(** * social-sentiment-app: the job queue, the Graph API client, the token
      vault and the sentiment worker, embedded from the TypeScript sources.

    - [Queue]     : src/lib/queue.ts (class JobQueue)
    - [Meta]      : src/lib/meta.ts (MetaGraphAPI.makeRequest, the paginated
                    fetches, TokenEncryption)
    - [Sentiment] : src/lib/workers/analyze-sentiment.ts

    Timestamps are milliseconds since the epoch ([Z]); every call of
    [Date.now()] / [new Date()] is an explicit argument.  Identifiers are
    strings, as Prisma generates them. *)

From Stdlib Require Import ZArith List String Ascii Bool Lia.
From Stdlib Require Import Permutation Sorted.
Import ListNotations.
Open Scope string_scope.
Open Scope list_scope.
Open Scope Z_scope.

(** A call either returns a value or throws a JavaScript [Error] whose
    [message] is recorded. *)
Inductive Result (A : Type) : Type :=
| Ok (a : A)
| Throw (message : string).
Arguments Ok {A} a.
Arguments Throw {A} message.

(* ===================================================================== *)
(** ** The job queue (src/lib/queue.ts) *)
(* ===================================================================== *)
Module Queue.

(** Modelled from the spec: the Prisma enums [JobType] and [JobStatus] and
    the [Job] table are declared in the Prisma schema, which is not among the
    sources.  Spec section 3 lists five kinds and four statuses; the [switch]
    of [processNextJob] has a [default] branch, so a stored kind outside the
    five is kept as [OTHER_TYPE]. *)
Inductive JobType : Type :=
| FETCH_POSTS
| FETCH_COMMENTS
| ANALYZE_SENTIMENT
| REFRESH_TOKENS
| CLEANUP_DATA
| OTHER_TYPE (name : string).

Inductive JobStatus : Type := QUEUED | RUNNING | COMPLETED | FAILED.

Definition status_eqb (a b : JobStatus) : bool :=
  match a, b with
  | QUEUED, QUEUED | RUNNING, RUNNING | COMPLETED, COMPLETED | FAILED, FAILED => true
  | _, _ => false
  end.

(** [interface JobData]: every field is optional. *)
Record JobData : Type := mkJobData {
  postId : option string;
  commentId : option string;
  pageId : option string;
  dateRange : option (string * string);
  platform : option string;
  userId : option string
}.

(** Modelled from the spec: one row of the [Job] table (spec section 3). *)
Record Job : Type := mkJob {
  id : string;
  type : JobType;
  payload : JobData;
  status : JobStatus;
  attempts : Z;
  maxAttempts : Z;
  scheduledAt : Z;
  startedAt : option Z;
  completedAt : option Z;
  lastError : option string
}.

(** The table: its rows, in insertion order. *)
Definition Store : Type := list Job.

(** [prisma.job.findUnique({ where: { id } })] *)
Definition findUnique (i : string) (rows : Store) : option Job :=
  find (fun j => String.eqb (id j) i) rows.

(** [prisma.job.update({ where: { id }, data })]: rewrites the row with that
    primary key; Prisma throws when there is none ([None]). *)
Fixpoint update (i : string) (f : Job -> Job) (rows : Store) : option Store :=
  match rows with
  | [] => None
  | j :: rest =>
      if String.eqb (id j) i then Some (f j :: rest)
      else option_map (cons j) (update i f rest)
  end.

(** Modelled from the spec: [maxAttempts] is an int column (spec section
    3), a Prisma [Int], which holds 32-bit signed values. *)
Definition fits_int (n : Z) : bool :=
  (-2147483648 <=? n) && (n <=? 2147483647).

(** [prisma.job.create]: a [maxAttempts] that the column cannot hold is
    refused before anything is written; the database picks the primary key
    [newId], and a key already in the table violates the unique constraint.
    [attempts] takes its column default 0 and the nullable columns start
    empty. *)
Definition create (newId : string) (ty : JobType) (p : JobData)
    (maxAtt sched : Z) (rows : Store) : Result (Job * Store) :=
  if negb (fits_int maxAtt) then
    Throw "Unable to fit integer value into an INT4 (32-bit signed integer)."
  else
    match findUnique newId rows with
    | Some _ => Throw "Unique constraint failed on the fields: (`id`)"
    | None =>
        let j := mkJob newId ty p QUEUED 0 maxAtt sched None None None in
        Ok (j, rows ++ [j])
    end.

(** [enqueue(type, payload, maxAttempts = 3, scheduledAt?)] *)
Definition enqueue (newId : string) (ty : JobType) (p : JobData)
    (maxAtt : option Z) (sched : option Z) (now : Z) (rows : Store)
    : Result (string * Store) :=
  let maxAtt' := match maxAtt with Some m => m | None => 3 end in
  let sched' := match sched with Some t => t | None => now end in
  match create newId ty p maxAtt' sched' rows with
  | Ok (j, rows') => Ok (id j, rows')
  | Throw m => Throw m
  end.

(** The [where] clause of [getNextJob]. *)
Definition eligible (now : Z) (j : Job) : bool :=
  status_eqb (status j) QUEUED
  && (scheduledAt j <=? now)
  && (attempts j <? maxAttempts j).

(** [orderBy: { scheduledAt: 'asc' }] then take the first: the earliest
    row, the first stored among equals. *)
Fixpoint earliest (l : list Job) : option Job :=
  match l with
  | [] => None
  | j :: rest =>
      match earliest rest with
      | Some b => if scheduledAt b <? scheduledAt j then Some b else Some j
      | None => Some j
      end
  end.

Definition findFirst (now : Z) (rows : Store) : option Job :=
  earliest (filter (eligible now) rows).

(** The [data] of the update in [getNextJob]. *)
Definition markRunning (t : Z) (j : Job) : Job :=
  mkJob (id j) (type j) (payload j) RUNNING (attempts j + 1) (maxAttempts j)
        (scheduledAt j) (Some t) (completedAt j) (lastError j).

(** [getNextJob()]: [findFirst] at [tFind], then a separate [update] at
    [tStart]; the value returned is the row as [findFirst] read it. *)
Definition getNextJob (tFind tStart : Z) (rows : Store)
    : Result (option Job * Store) :=
  match findFirst tFind rows with
  | None => Ok (None, rows)
  | Some job =>
      match update (id job) (markRunning tStart) rows with
      | Some rows' => Ok (Some job, rows')
      | None => Throw "Record to update not found."
      end
  end.

(** The [data] of the update in [completeJob]. *)
Definition markCompleted (t : Z) (j : Job) : Job :=
  mkJob (id j) (type j) (payload j) COMPLETED (attempts j) (maxAttempts j)
        (scheduledAt j) (startedAt j) (Some t) (lastError j).

(** [completeJob(jobId)] *)
Definition completeJob (now : Z) (jobId : string) (rows : Store)
    : Result Store :=
  match update jobId (markCompleted now) rows with
  | Some rows' => Ok rows'
  | None => Throw "Record to update not found."
  end.

(** [calculateBackoffDelay(attempts)], for [attempts >= 0] (the only values
    the column takes): [Math.min(1000 * Math.pow(2, attempts), 300000)]. *)
Definition baseDelay : Z := 1000.
Definition maxDelay : Z := 300000.
Definition calculateBackoffDelay (att : Z) : Z :=
  Z.min (baseDelay * 2 ^ att) maxDelay.

(** The delay of spec section 4.2, in the spec's words: base 1 s doubled per
    attempt, capped at 30 s. *)
Definition spec_backoff (n : Z) : Z := Z.min (1000 * 2 ^ n) 30000.

(** The [data] of the update in [failJob]; [scheduledAt: undefined] leaves
    the column as it is. *)
Definition markFailed (now : Z) (error : string) (j : Job) : Job :=
  let shouldRetry := attempts j <? maxAttempts j in
  mkJob (id j) (type j) (payload j)
        (if shouldRetry then QUEUED else FAILED)
        (attempts j) (maxAttempts j)
        (if shouldRetry then now + calculateBackoffDelay (attempts j)
         else scheduledAt j)
        None (completedAt j) (Some error).

(** [failJob(jobId, error)]: silently returns when the job is unknown. *)
Definition failJob (now : Z) (jobId error : string) (rows : Store)
    : Result Store :=
  match findUnique jobId rows with
  | None => Ok rows
  | Some _ =>
      match update jobId (markFailed now error) rows with
      | Some rows' => Ok rows'
      | None => Throw "Record to update not found."
      end
  end.

(** *** Store operations in sequence *)

(** One call on the store, with the clock readings it makes and, for
    [enqueue], the key the database assigns. *)
Inductive Op : Type :=
| OpEnqueue (newId : string) (ty : JobType) (p : JobData)
            (maxAtt : option Z) (sched : option Z) (now : Z)
| OpClaimNext (tFind tStart : Z)
| OpComplete (jobId : string) (now : Z)
| OpFail (jobId error : string) (now : Z).

(** A call that throws leaves the table as it was. *)
Definition apply_op (op : Op) (rows : Store) : Store :=
  match op with
  | OpEnqueue newId ty p m s now =>
      match enqueue newId ty p m s now rows with
      | Ok (_, rows') => rows'
      | Throw _ => rows
      end
  | OpClaimNext tFind tStart =>
      match getNextJob tFind tStart rows with
      | Ok (_, rows') => rows'
      | Throw _ => rows
      end
  | OpComplete jobId now =>
      match completeJob now jobId rows with
      | Ok rows' => rows'
      | Throw _ => rows
      end
  | OpFail jobId error now =>
      match failJob now jobId error rows with
      | Ok rows' => rows'
      | Throw _ => rows
      end
  end.

Definition run_ops (ops : list Op) (rows : Store) : Store :=
  fold_left (fun r op => apply_op op r) ops rows.

(** The [maxAttempts] an [enqueue] ends up storing. *)
Definition op_maxAttempts (op : Op) : option Z :=
  match op with
  | OpEnqueue _ _ _ m _ _ => Some (match m with Some m' => m' | None => 3 end)
  | _ => None
  end.

Definition enqueue_nonneg (op : Op) : Prop :=
  match op_maxAttempts op with Some m => 0 <= m | None => True end.

(** *** Two schedulers polling one store

    [getNextJob] awaits twice: once for [findFirst], once for [update].
    Another scheduler process can run between the two awaits, so each
    scheduler is a small machine whose steps interleave on the shared
    table. *)
Inductive Claimant : Type :=
| Polling                          (* before [findFirst] *)
| Read (job : Job)                 (* [findFirst] answered, [update] not yet sent *)
| Returned (r : option Job).       (* [getNextJob] has returned *)

Inductive Who : Type := SchedA | SchedB.

Record System : Type := mkSystem {
  table : Store;
  schedA : Claimant;
  schedB : Claimant
}.

(** One await of one scheduler, at clock reading [t]; a call whose
    [update] throws hands out no job. *)
Definition claimant_step (t : Z) (c : Claimant) (rows : Store)
    : Claimant * Store :=
  match c with
  | Polling =>
      match findFirst t rows with
      | Some job => (Read job, rows)
      | None => (Returned None, rows)
      end
  | Read job =>
      match update (id job) (markRunning t) rows with
      | Some rows' => (Returned (Some job), rows')
      | None => (Returned None, rows)
      end
  | Returned r => (Returned r, rows)
  end.

Definition system_step (w : Who) (t : Z) (s : System) : System :=
  match w with
  | SchedA =>
      let (c, rows) := claimant_step t (schedA s) (table s) in
      mkSystem rows c (schedB s)
  | SchedB =>
      let (c, rows) := claimant_step t (schedB s) (table s) in
      mkSystem rows (schedA s) c
  end.

(** A schedule says whose await completes next, and when. *)
Definition run_schedule (sch : list (Who * Z)) (s : System) : System :=
  fold_left (fun s' wt => system_step (fst wt) (snd wt) s') sch s.

Definition start (rows : Store) : System := mkSystem rows Polling Polling.

(** Both schedulers were handed the same job id. *)
Definition same_job_claimed (s : System) : Prop :=
  exists a b, schedA s = Returned (Some a) /\ schedB s = Returned (Some b)
              /\ id a = id b.

(** *** The polling tick ([processNextJob]) *)

(** What a worker does when run: it returns or throws an [Error]. *)
Inductive HandlerOutcome : Type :=
| Returns
| Throws (message : string).

(** The [Error] object that reaches the [catch] of [processNextJob]; only
    the [process*Job] wrappers attach a [jobId] to it. *)
Record JsError : Type := mkJsError {
  message : string;
  jobId : option string
}.

(** The store call the tick ends with (made, whether or not the store then
    accepts it); [NoTransition] when the claimed job gets neither call. *)
Inductive Transition : Type :=
| NoJob
| CalledComplete (jobId : string)
| CalledFail (jobId error : string)
| NoTransition (jobId : string).

(** The [try]/[catch] every [process*Job] wrapper puts around its worker:
    a thrown error gets the wrapper's prefix on its message and the job's id
    as [jobId], and is thrown again. *)
Definition wrapped (prefix : string) (job : Job)
    (run : HandlerOutcome * Store) : option JsError * Store :=
  match run with
  | (Returns, rows') => (None, rows')
  | (Throws m, rows') =>
      (Some (mkJsError (String.append prefix m) (Some (id job))), rows')
  end.

Section Scheduler.

(** The five workers of src/lib/workers, called with the payload fields the
    wrappers pick. They write their own tables and may [enqueue] follow-up
    jobs, so they see and return the job table. *)
Variable fetchPostsForPage :
  option string -> option (string * string) -> option string ->
  Store -> HandlerOutcome * Store.
Variable fetchCommentsForPost :
  option string -> option string -> Store -> HandlerOutcome * Store.
Variable analyzeSentiment : option string -> Store -> HandlerOutcome * Store.
Variable refreshExpiredTokens : Store -> HandlerOutcome * Store.
Variable cleanupUserData : option string -> Store -> HandlerOutcome * Store.

Definition processFetchPostsJob (job : Job) (rows : Store) :=
  wrapped "Failed to fetch posts: " job
    (fetchPostsForPage (pageId (payload job)) (dateRange (payload job))
                       (platform (payload job)) rows).

Definition processFetchCommentsJob (job : Job) (rows : Store) :=
  wrapped "Failed to fetch comments: " job
    (fetchCommentsForPost (postId (payload job)) (platform (payload job)) rows).

Definition processAnalyzeSentimentJob (job : Job) (rows : Store) :=
  wrapped "Failed to analyze sentiment: " job
    (analyzeSentiment (commentId (payload job)) rows).

Definition processRefreshTokensJob (job : Job) (rows : Store) :=
  wrapped "Failed to refresh tokens: " job (refreshExpiredTokens rows).

Definition processCleanupDataJob (job : Job) (rows : Store) :=
  wrapped "Failed to cleanup data: " job
    (cleanupUserData (userId (payload job)) rows).

(** The [switch] of [processNextJob]: [None] when the selected wrapper
    returned, the thrown error otherwise. *)
Definition dispatch (job : Job) (rows : Store) : option JsError * Store :=
  match type job with
  | FETCH_POSTS => processFetchPostsJob job rows
  | FETCH_COMMENTS => processFetchCommentsJob job rows
  | ANALYZE_SENTIMENT => processAnalyzeSentimentJob job rows
  | REFRESH_TOKENS => processRefreshTokensJob job rows
  | CLEANUP_DATA => processCleanupDataJob job rows
  | OTHER_TYPE name =>
      (Some (mkJsError (String.append "Unknown job type: " name) None), rows)
  end.

(** The [catch] block: [failJob] only for an error carrying a [jobId]. *)
Definition on_error (tFail : Z) (job : Job) (e : JsError) (rows : Store)
    : Transition * Store :=
  match jobId e with
  | Some jid =>
      match failJob tFail jid (message e) rows with
      | Ok rows' => (CalledFail jid (message e), rows')
      | Throw _ => (CalledFail jid (message e), rows)
      end
  | None => (NoTransition (id job), rows)
  end.

(** [processNextJob()], with the clock readings of its three store calls.
    An error thrown by the store itself carries no [jobId]. *)
Definition processNextJob (tFind tStart tEnd : Z) (rows : Store)
    : Transition * Store :=
  match getNextJob tFind tStart rows with
  | Throw _ => (NoJob, rows)
  | Ok (None, rows1) => (NoJob, rows1)
  | Ok (Some job, rows1) =>
      match dispatch job rows1 with
      | (None, rows2) =>
          match completeJob tEnd (id job) rows2 with
          | Ok rows3 => (CalledComplete (id job), rows3)
          | Throw _ => (CalledComplete (id job), rows2)
          end
      | (Some e, rows2) => on_error tEnd job e rows2
      end
  end.

End Scheduler.

(** *** Predicates and sample data used in the statements below *)

Definition sample_data : JobData := mkJobData None None (Some "page-1") None None None.

Definition failed_job : Job :=
  mkJob "job-1" FETCH_POSTS sample_data FAILED 3 3 50 None None (Some "boom").

Definition running_job : Job :=
  mkJob "job-2" FETCH_COMMENTS sample_data RUNNING 5 10 50 (Some 60) None None.

(** The state of one of the two schedulers, and the other scheduler. *)
Definition claimant (w : Who) (s : System) : Claimant :=
  match w with SchedA => schedA s | SchedB => schedB s end.

Definition other (w : Who) : Who :=
  match w with SchedA => SchedB | SchedB => SchedA end.

(** Every step of the schedule is a step of scheduler [w]. *)
Definition only (w : Who) (sch : list (Who * Z)) : Prop :=
  Forall (fun wt => fst wt = w) sch.

(** A schedule in which the two calls do not overlap: one scheduler takes
    all its steps, then the other takes all of its own. *)
Definition serial (sch : list (Who * Z)) : Prop :=
  exists w first second,
    sch = first ++ second /\ only w first /\ only (other w) second.

Definition queued_job : Job :=
  mkJob "job-3" FETCH_POSTS sample_data QUEUED 0 3 5 None None None.

(** What one store call does to the table: nothing, one appended row with
    a new key, or one row rewritten by one of the three updates. *)
Inductive RowChange (op : Op) (j : Job) : Job -> Prop :=
| ChangeClaim tFind tStart :
    op = OpClaimNext tFind tStart -> eligible tFind j = true ->
    RowChange op j (markRunning tStart j)
| ChangeComplete now :
    op = OpComplete (id j) now -> RowChange op j (markCompleted now j)
| ChangeFail error now :
    op = OpFail (id j) error now -> RowChange op j (markFailed now error j).

(** The bound kept by every row when no [enqueue] passes a negative
    [maxAttempts]. *)
Definition bounded (j : Job) : Prop := attempts j <= maxAttempts j.

(** A job that has used up its attempts and is not waiting. *)
Definition spent (j : Job) : Prop :=
  maxAttempts j <= attempts j /\ status j <> QUEUED.

Definition failed_spent (j : Job) : Prop :=
  status j = FAILED -> maxAttempts j <= attempts j.

Definition retry_once_ops : list Op :=
  [OpEnqueue "job-4" ANALYZE_SENTIMENT sample_data (Some 1) None 0;
   OpClaimNext 1 1;
   OpFail "job-4" "boom" 2].

Definition odd_job : Job :=
  mkJob "job-6" (OTHER_TYPE "EXPORT_DATA") sample_data QUEUED 0 3 5 None None None.

(** *** Statistics, retention and the polling switch *)

(** [prisma.job.count({ where: { status } })] *)
Definition count_status (s : JobStatus) (rows : Store) : Z :=
  Z.of_nat (List.length (filter (fun j => status_eqb (status j) s) rows)).

Record QueueStats : Type := mkStats {
  queued : Z;
  running : Z;
  completed : Z;
  failed : Z
}.

(** [getQueueStats()] *)
Definition getQueueStats (rows : Store) : QueueStats :=
  mkStats (count_status QUEUED rows) (count_status RUNNING rows)
          (count_status COMPLETED rows) (count_status FAILED rows).

(** The [where] clause of [cleanupOldJobs]; a null [completedAt] is below
    no date. *)
Definition stale (cutoff : Z) (j : Job) : bool :=
  status_eqb (status j) COMPLETED
  && match completedAt j with
     | Some t => t <? cutoff
     | None => false
     end.

Section Retention.

(** [d.setDate(d.getDate() - days)] on the date [d] of the call: the
    runtime's calendar arithmetic, from the clock reading and the number of
    days to the cutoff instant. *)
Variable daysBefore : Z -> Z -> Z.

(** [cleanupOldJobs(olderThanDays = 7)]: the number of rows deleted and the
    table after [deleteMany]. *)
Definition cleanupOldJobs (olderThanDays : option Z) (now : Z) (rows : Store)
    : Z * Store :=
  let days := match olderThanDays with Some d => d | None => 7 end in
  let cutoffDate := daysBefore now days in
  (Z.of_nat (List.length (filter (stale cutoffDate) rows)),
   filter (fun j => negb (stale cutoffDate j)) rows).

End Retention.

(** The timers of the runtime: [setInterval] hands out a new handle and
    keeps the timer, with its period, until [clearInterval]. *)
Record Timers : Type := mkTimers {
  nextHandle : nat;
  live : list (nat * Z)
}.

(** The two private fields of a [JobQueue]. *)
Record Processor : Type := mkProcessor {
  isProcessing : bool;
  processingInterval : option nat
}.

(** [startProcessing(intervalMs = 5000)] *)
Definition startProcessing (intervalMs : option Z) (st : Processor * Timers)
    : Processor * Timers :=
  let (p, rt) := st in
  if isProcessing p then st
  else
    let ms := match intervalMs with Some m => m | None => 5000 end in
    (mkProcessor true (Some (nextHandle rt)),
     mkTimers (S (nextHandle rt)) (live rt ++ [(nextHandle rt, ms)])).

(** [stopProcessing()] *)
Definition stopProcessing (st : Processor * Timers) : Processor * Timers :=
  let (p, rt) := st in
  match processingInterval p with
  | Some h =>
      (mkProcessor false None,
       mkTimers (nextHandle rt)
                (filter (fun t => negb (Nat.eqb (fst t) h)) (live rt)))
  | None => (mkProcessor false None, rt)
  end.

Inductive Switch : Type :=
| Start (intervalMs : option Z)
| Stop.

Definition flip (c : Switch) (st : Processor * Timers) : Processor * Timers :=
  match c with
  | Start ms => startProcessing ms st
  | Stop => stopProcessing st
  end.

(** A new [JobQueue] in a runtime with no timer of its own yet. *)
Definition fresh_processor (next : nat) : Processor * Timers :=
  (mkProcessor false None, mkTimers next []).

Definition switches (cs : list Switch) (st : Processor * Timers)
    : Processor * Timers :=
  fold_left (fun s c => flip c s) cs st.

(** A job that has used up its attempts. *)
Definition exhausted (j : Job) : Prop := maxAttempts j <= attempts j.

Definition zero_budget_job : Job :=
  mkJob "job-7" CLEANUP_DATA sample_data QUEUED 0 0 5 None None None.

Definition done_job : Job :=
  mkJob "job-8" REFRESH_TOKENS sample_data COMPLETED 1 3 5 (Some 6) (Some 7) None.

Definition late_job : Job :=
  mkJob "job-9" FETCH_POSTS sample_data QUEUED 0 3 9 None None None.

(** What the two fields and the runtime's timers look like together. *)
Definition one_timer (st : Processor * Timers) : Prop :=
  match processingInterval (fst st) with
  | Some h =>
      isProcessing (fst st) = true /\ exists ms, live (snd st) = [(h, ms)]
  | None => isProcessing (fst st) = false /\ live (snd st) = []
  end.

(** A job that may be tried once. *)
Definition single_try_job : Job :=
  mkJob "job-10" FETCH_POSTS sample_data QUEUED 0 1 5 None None None.

End Queue.

(* ===================================================================== *)
(** ** The Graph API client (src/lib/meta.ts) *)
(* ===================================================================== *)
Module Meta.

Inductive ParamValue : Type :=
| PStr (s : string)
| PNum (n : Z)
| PBool (b : bool).

(** The URL [makeRequest] builds: base + endpoint, the token, then the
    entries of [params] in order. *)
Record Request : Type := mkRequest {
  endpoint : string;
  access_token : string;
  params : list (string * ParamValue)
}.

(** The JSON body as the client reads it: [error.error?.message] on a
    failure, the body cast to [T] on success. *)
Record Body (T : Type) : Type := mkBody {
  error_message : option string;
  value : T
}.
Arguments mkBody {T}.
Arguments error_message {T}.
Arguments value {T}.

(** A [Response]; [body = None] when [response.json()] rejects. *)
Record HttpResponse (T : Type) : Type := mkResponse {
  status : Z;
  statusText : string;
  body : option (Body T)
}.
Arguments mkResponse {T}.
Arguments status {T}.
Arguments statusText {T}.
Arguments body {T}.

(** [fetch(url)] resolves to a response or rejects (network failure). *)
Inductive FetchOutcome (T : Type) : Type :=
| Rejected (message : string)
| Responded (r : HttpResponse T).
Arguments Rejected {T}.
Arguments Responded {T}.

(** [response.ok] *)
Definition ok {T} (r : HttpResponse T) : bool :=
  (200 <=? status r) && (status r <=? 299).

(** [a || b] on an optional string: [undefined] and the empty string are
    falsy. *)
Definition truthy (s : option string) : bool :=
  match s with
  | Some s' => negb (String.eqb s' "")
  | None => false
  end.

Definition or_else (a : option string) (b : string) : string :=
  match a with
  | Some s => if String.eqb s "" then b else s
  | None => b
  end.

(** What the client does to the outside world, in order. [CheckLimit] is
    the sliding-window limiter, which only delays the caller. *)
Inductive Event : Type :=
| CheckLimit
| Fetch (r : Request)
| Sleep (ms : Z).

(** [Math.min(1000 * Math.pow(2, attempt), 30000)] *)
Definition retryDelay (attempt : Z) : Z := Z.min (1000 * 2 ^ attempt) 30000.

Definition json_syntax_error : string := "Unexpected token in JSON".
Definition max_retries_exceeded : string := "Max retries exceeded".

(** How many requests went out, and the pauses taken, in order. *)
Definition fetches (ev : list Event) : nat :=
  List.length (filter (fun e => match e with Fetch _ => true | _ => false end) ev).

Definition sleeps (ev : list Event) : list Z :=
  flat_map (fun e => match e with Sleep ms => [ms] | _ => [] end) ev.

(** [retryDelay] at [n] consecutive loop counters starting at [from]. *)
Fixpoint delays (from : Z) (n : nat) : list Z :=
  match n with
  | O => []
  | S n' => retryDelay from :: delays (from + 1) n'
  end.

Section MakeRequest.

Context {T Net : Type}.

(** The upstream: each call may depend on, and change, its state. *)
Variable fetch : Request -> Net -> FetchOutcome T * Net.

(** The [for] loop of [makeRequest]; [left] iterations remain and
    [attempt] is the loop counter. *)
Fixpoint attempts_loop (left : nat) (attempt maxRetries : Z)
    (req : Request) (net : Net) : Result T * list Event * Net :=
  match left with
  | O => (Throw max_retries_exceeded, [], net)
  | S left' =>
      let (o, net1) := fetch req net in
      let again :=
        let '(r, ev, net2) :=
          attempts_loop left' (attempt + 1) maxRetries req net1 in
        (r, Fetch req :: Sleep (retryDelay attempt) :: ev, net2) in
      (* the [catch] block *)
      let caught (m : string) :=
        if attempt =? maxRetries - 1 then (Throw m, [Fetch req], net1)
        else again in
      match o with
      | Rejected m => caught m
      | Responded resp =>
          if status resp =? 429 then again
          else if negb (ok resp) then
            match body resp with
            | Some b =>
                caught (String.append "Meta API Error: "
                          (or_else (error_message b) (statusText resp)))
            | None => caught json_syntax_error
            end
          else
            match body resp with
            | Some b => (Ok (value b), [Fetch req], net1)
            | None => caught json_syntax_error
            end
      end
  end.

(** [makeRequest(endpoint, params, maxRetries = 3)] of a client holding
    [accessToken]. *)
Definition makeRequest (accessToken endp : string)
    (ps : list (string * ParamValue)) (maxRetries : option Z) (net : Net)
    : Result T * list Event * Net :=
  let maxRetries' := match maxRetries with Some m => m | None => 3 end in
  let req := mkRequest endp accessToken ps in
  let '(r, ev, net') :=
    attempts_loop (Z.to_nat maxRetries') 0 maxRetries' req net in
  (r, CheckLimit :: ev, net').

End MakeRequest.

(** The message of the error that one attempt of [makeRequest] hands to
    its [catch] block, if it does: a rejected [fetch], a response that is
    neither 429 nor ok, or a body that is not JSON. *)
Definition caught_message {T} (o : FetchOutcome T) : option string :=
  match o with
  | Rejected m => Some m
  | Responded resp =>
      if status resp =? 429 then None
      else match body resp with
           | None => Some json_syntax_error
           | Some b =>
               if ok resp then None
               else Some (String.append "Meta API Error: "
                            (or_else (error_message b) (statusText resp)))
           end
  end.

(** [PaginatedResponse<T>]; [paging_next] is [paging?.next]. *)
Record PaginatedResponse (T : Type) : Type := mkPage {
  data : list T;
  paging_next : option string
}.
Arguments mkPage {T}.
Arguments data {T}.
Arguments paging_next {T}.

Record FacebookPost : Type := mkPost {
  post_id : string;
  post_message : option string;
  post_created_time : string;
  post_permalink_url : option string;
  post_likes : option Z;
  post_comments : option Z
}.

Record FacebookComment : Type := mkComment {
  comment_id : string;
  comment_from : option (string * string);
  comment_message : string;
  comment_created_time : string;
  comment_like_count : Z;
  comment_parent : option string
}.

Section Paginate.

Context {T Net : Type}.
Variable fetch : Request -> Net -> FetchOutcome (PaginatedResponse T) * Net.

(** The [do ... while (nextUrl && items.length < cap)] loop shared, word
    for word, by [getPagePosts] (cap 1000) and [getPostComments] (cap
    10000): every round calls [makeRequest] with the same endpoint and the
    same [params]; [nextUrl] is read by the loop test only.  [None]: the
    loop was still running after [fuel] rounds. *)
Fixpoint pages_loop (fuel : nat) (cap : Z) (token endp : string)
    (ps : list (string * ParamValue)) (items : list T) (net : Net)
    : option (Result (list T)) * list Event * Net :=
  match fuel with
  | O => (None, [], net)
  | S fuel' =>
      match makeRequest fetch token endp ps None net with
      | (Throw m, ev, net1) => (Some (Throw m), ev, net1)
      | (Ok response, ev, net1) =>
          let items' := items ++ data response in
          let nextUrl := paging_next response in
          if truthy nextUrl && (Z.of_nat (List.length items') <? cap) then
            let '(r, ev2, net2) :=
              pages_loop fuel' cap token endp ps items' net1 in
            (r, ev ++ ev2, net2)
          else (Some (Ok items'), ev, net1)
      end
  end.

End Paginate.

Definition posts_fields : string :=
  "id,message,created_time,permalink_url,likes.summary(true),comments.summary(true)".
Definition comments_fields : string :=
  "id,from,message,created_time,like_count,parent".

(** The [params] object of [getPagePosts]: [since] and [until] are added
    only when truthy. *)
Definition posts_params (since until : option string) (limit : Z)
    : list (string * ParamValue) :=
  [("fields", PStr posts_fields); ("limit", PNum limit)]
  ++ (if truthy since then [("since", PStr (or_else since ""))] else [])
  ++ (if truthy until then [("until", PStr (or_else until ""))] else []).

Definition comments_params (limit : Z) : list (string * ParamValue) :=
  [("fields", PStr comments_fields); ("filter", PStr "stream");
   ("limit", PNum limit)].

Definition posts_cap : Z := 1000.
Definition comments_cap : Z := 10000.

(** [getPagePosts(pageId, pageToken, since?, until?, limit = 25)] *)
Definition getPagePosts {Net : Type}
    (fetch : Request -> Net -> FetchOutcome (PaginatedResponse FacebookPost) * Net)
    (fuel : nat) (pageId pageToken : string) (since until : option string)
    (limit : option Z) (net : Net) :=
  pages_loop fetch fuel posts_cap pageToken
    (String.append "/" (String.append pageId "/posts"))
    (posts_params since until (match limit with Some l => l | None => 25 end))
    [] net.

(** [getPostComments(postId, pageToken, limit = 100)] *)
Definition getPostComments {Net : Type}
    (fetch : Request -> Net -> FetchOutcome (PaginatedResponse FacebookComment) * Net)
    (fuel : nat) (postId pageToken : string) (limit : option Z) (net : Net) :=
  pages_loop fetch fuel comments_cap pageToken
    (String.append "/" (String.append postId "/comments"))
    (comments_params (match limit with Some l => l | None => 100 end))
    [] net.

(** *** Predicates and sample data used in the statements below *)

(** An upstream that rejects the token on every call. *)
Definition invalid_token_response : HttpResponse unit :=
  mkResponse 400 "Bad Request"
    (Some (mkBody (Some "Invalid OAuth access token.") tt)).

Definition invalid_token_upstream (r : Request) (n : unit)
    : FetchOutcome unit * unit :=
  (Responded invalid_token_response, n).

Definition me_request : Request :=
  mkRequest "/me" "token" [("fields", PStr "id")].

(** No successful response comes with an empty [data] array. *)
Definition pages_nonempty {T Net : Type}
    (fetch : Request -> Net -> FetchOutcome (PaginatedResponse T) * Net)
    : Prop :=
  forall req n resp n' b,
    fetch req n = (Responded resp, n') ->
    ok resp = true -> body resp = Some b -> data (value b) <> [].

Definition post_a : FacebookPost :=
  mkPost "1_a" (Some "first") "2024-01-01T00:00:00+0000" None (Some 2) (Some 5).
Definition post_b : FacebookPost :=
  mkPost "1_b" (Some "second") "2024-01-02T00:00:00+0000" None None (Some 0).

(** An upstream with a single page. *)
Definition single_page {T} (items : list T) (r : Request) (n : unit)
    : FetchOutcome (PaginatedResponse T) * unit :=
  (Responded (mkResponse 200 "OK" (Some (mkBody None (mkPage items None)))), n).


(** An upstream with two pages that serves the second one only to a
    request carrying the cursor of the first. *)
Definition has_cursor (r : Request) : bool :=
  existsb (fun kv => String.eqb (fst kv) "after") (params r).

Definition two_pages (r : Request) (n : unit)
    : FetchOutcome (PaginatedResponse FacebookPost) * unit :=
  (Responded
     (mkResponse 200 "OK"
        (Some (mkBody None
                 (if has_cursor r then mkPage [post_b] None
                  else mkPage [post_a]
                         (Some "https://graph.facebook.com/v18.0/page/posts?after=c1"))))),
   n).

(** *** The sliding-window limiter ([class RateLimiter]) *)

Record RateLimiter : Type := mkLimiter {
  requests : list Z;
  maxRequests : Z;
  timeWindow : Z
}.

(** [new RateLimiter(maxRequests = 200, timeWindow = 3600000)] *)
Definition newRateLimiter (maxReq window : option Z) : RateLimiter :=
  mkLimiter [] (match maxReq with Some m => m | None => 200 end)
            (match window with Some w => w | None => 3600000 end).

(** What [checkLimit] passes to [sleep], if it sleeps; [Math.min()] of no
    argument is [Infinity]. *)
Inductive Wait : Type :=
| NoWait
| WaitMs (ms : Z)
| WaitInfinity.

(** [Math.min(...list)] *)
Fixpoint list_min (l : list Z) : option Z :=
  match l with
  | [] => None
  | x :: rest =>
      match list_min rest with
      | Some m => Some (Z.min x m)
      | None => Some x
      end
  end.

(** The timestamps [checkLimit] keeps at clock reading [now]. *)
Definition in_window (now : Z) (rl : RateLimiter) : list Z :=
  filter (fun time => now - time <? timeWindow rl) (requests rl).

(** [checkLimit()] run by one caller at a time: the wait it asks for and the
    limiter after; the time pushed is the one read on entry. *)
Definition checkLimit (now : Z) (rl : RateLimiter) : Wait * RateLimiter :=
  let kept := in_window now rl in
  let wait :=
    if Z.of_nat (List.length kept) >=? maxRequests rl then
      match list_min kept with
      | Some oldestRequest => WaitMs (timeWindow rl - (now - oldestRequest))
      | None => WaitInfinity
      end
    else NoWait in
  (wait, mkLimiter (kept ++ [now]) (maxRequests rl) (timeWindow rl)).

(** Calls of [checkLimit] one after the other, at the given clock readings. *)
Fixpoint checkLimits (times : list Z) (rl : RateLimiter) : list Wait :=
  match times with
  | [] => []
  | now :: rest =>
      let (w, rl') := checkLimit now rl in w :: checkLimits rest rl'
  end.

(** Each clock reading is at least [gap] after the one before. *)
Fixpoint spaced (gap : Z) (times : list Z) : Prop :=
  match times with
  | t1 :: ((t2 :: _) as rest) => t1 + gap <= t2 /\ spaced gap rest
  | _ => True
  end.

(** *** More of the client *)

(** An upstream that plays a script: each call takes the next outcome; past
    the end of the script [fetch] rejects. *)
Definition scripted {T : Type} (r : Request) (script : list (FetchOutcome T))
    : FetchOutcome T * list (FetchOutcome T) :=
  match script with
  | o :: rest => (o, rest)
  | [] => (Rejected "fetch failed", [])
  end.

(** The value an attempt returns, if it does: the body of a response that
    is ok, not 429, and JSON. *)
Definition success_value {T} (o : FetchOutcome T) : option T :=
  match o with
  | Rejected _ => None
  | Responded resp =>
      if status resp =? 429 then None
      else if ok resp then option_map value (body resp)
      else None
  end.

Definition throttled {T} (o : FetchOutcome T) : bool :=
  match o with
  | Rejected _ => false
  | Responded resp => status resp =? 429
  end.

(** How often the limiter was consulted. *)
Definition limit_checks (ev : list Event) : nat :=
  List.length
    (filter (fun e => match e with CheckLimit => true | _ => false end) ev).

(** [validateToken()] of a client holding [accessToken]: [true] when
    [makeRequest('/me', { fields: 'id' })] returns, [false] when it throws. *)
Definition validateToken {T Net : Type}
    (fetch : Request -> Net -> FetchOutcome T * Net)
    (accessToken : string) (net : Net) : bool * list Event * Net :=
  match makeRequest fetch accessToken "/me" [("fields", PStr "id")] None net with
  | (Ok _, ev, net') => (true, ev, net')
  | (Throw _, ev, net') => (false, ev, net')
  end.








(** Every successful response is an empty page that still has a next
    link. *)
Definition pages_empty_with_next {T Net : Type}
    (fetch : Request -> Net -> FetchOutcome (PaginatedResponse T) * Net)
    : Prop :=
  forall req n, exists resp b n',
    fetch req n = (Responded resp, n')
    /\ status resp <> 429 /\ ok resp = true /\ body resp = Some b
    /\ data (value b) = [] /\ truthy (paging_next (value b)) = true.

Definition ok_page {T} (items : list T) (next : option string)
    : FetchOutcome (PaginatedResponse T) :=
  Responded (mkResponse 200 "OK" (Some (mkBody None (mkPage items next)))).

Definition server_error {T} : FetchOutcome T :=
  Responded (mkResponse 500 "Internal Server Error" None).

Definition too_many {T} : FetchOutcome T :=
  Responded (mkResponse 429 "Too Many Requests" None).

Definition empty_forever {T} (r : Request) (n : unit)
    : FetchOutcome (PaginatedResponse T) * unit :=
  (ok_page [] (Some "https://graph.facebook.com/v18.0/next"), n).

Definition busy_limiter : RateLimiter := mkLimiter [100; 400; 900] 2 1000.

Definition network_down (r : Request) (n : unit) : FetchOutcome unit * unit :=
  (Rejected "fetch failed", n).



(** *** What a paginated fetch was answered with *)




(** The upstream answers the next calls for [req] with [os], in order. *)
Fixpoint answers {T Net : Type} (fetch : Request -> Net -> FetchOutcome T * Net)
    (req : Request) (net : Net) (os : list (FetchOutcome T)) : Prop :=
  match os with
  | [] => True
  | o :: rest =>
      fst (fetch req net) = o /\ answers fetch req (snd (fetch req net)) rest
  end.


End Meta.

(* ===================================================================== *)
(** ** The token vault (class TokenEncryption of src/lib/meta.ts) *)
(* ===================================================================== *)
Module Vault.

(** A [Buffer] is a list of bytes; a byte is an [ascii]. A JavaScript string
    holding text is the list of its Unicode code points; strings that only
    ever hold hexadecimal digits and colons are [string]s. *)
Definition Buffer : Type := list ascii.
Definition Text : Type := list N.

(** A code point that a well-formed string can hold (no lone surrogate). *)
Definition scalar_value (c : N) : Prop :=
  (c < 0xD800 \/ (0xE000 <= c /\ c < 0x110000))%N.

(** *** [Buffer.toString('hex')] and [Buffer.from(s, 'hex')] *)

Definition hex_digit (n : N) : ascii :=
  match n with
  | 0 => "0" | 1 => "1" | 2 => "2" | 3 => "3" | 4 => "4" | 5 => "5"
  | 6 => "6" | 7 => "7" | 8 => "8" | 9 => "9" | 10 => "a" | 11 => "b"
  | 12 => "c" | 13 => "d" | 14 => "e" | _ => "f"
  end%N%char.

Fixpoint to_hex (buf : Buffer) : string :=
  match buf with
  | [] => EmptyString
  | b :: rest =>
      let n := N_of_ascii b in
      String (hex_digit (n / 16)) (String (hex_digit (n mod 16)) (to_hex rest))
  end.

Definition hex_value (c : ascii) : option N :=
  let n := N_of_ascii c in
  (if (48 <=? n) && (n <=? 57) then Some (n - 48)
   else if (97 <=? n) && (n <=? 102) then Some (n - 87)
   else if (65 <=? n) && (n <=? 70) then Some (n - 55)
   else None)%N.

(** Decoding stops at the first pair that is not two hex digits. *)
Fixpoint from_hex (s : string) : Buffer :=
  match s with
  | String c1 (String c2 rest) =>
      match hex_value c1, hex_value c2 with
      | Some h, Some l => ascii_of_N (16 * h + l) :: from_hex rest
      | _, _ => []
      end
  | _ => []
  end.

(** *** UTF-8, as [cipher.update(text, 'utf8', ...)] writes it and
        [decipher.update(..., 'utf8')] reads it *)

Definition replacement : N := 0xFFFD%N.

Definition utf8_encode_cp (c : N) : Buffer :=
  (if c <? 0x80 then [ascii_of_N c]
   else if c <? 0x800 then
     [ascii_of_N (0xC0 + c / 64); ascii_of_N (0x80 + c mod 64)]
   else if (0xD800 <=? c) && (c <? 0xE000) then
     [ascii_of_N 0xEF; ascii_of_N 0xBF; ascii_of_N 0xBD]
   else if c <? 0x10000 then
     [ascii_of_N (0xE0 + c / 4096); ascii_of_N (0x80 + (c / 64) mod 64);
      ascii_of_N (0x80 + c mod 64)]
   else if c <? 0x110000 then
     [ascii_of_N (0xF0 + c / 262144); ascii_of_N (0x80 + (c / 4096) mod 64);
      ascii_of_N (0x80 + (c / 64) mod 64); ascii_of_N (0x80 + c mod 64)]
   else [ascii_of_N 0xEF; ascii_of_N 0xBF; ascii_of_N 0xBD])%N.

Definition utf8_encode (t : Text) : Buffer := flat_map utf8_encode_cp t.

Definition is_cont (b : ascii) : bool :=
  let n := N_of_ascii b in ((0x80 <=? n) && (n <? 0xC0))%N.

Definition cont_bits (b : ascii) : N := (N_of_ascii b - 0x80)%N.

(** An ill-formed byte decodes to U+FFFD and decoding resumes after it. *)
Fixpoint utf8_decode (bs : Buffer) : Text :=
  match bs with
  | [] => []
  | b0 :: r0 =>
      let n0 := N_of_ascii b0 in
      if (n0 <? 0x80)%N then n0 :: utf8_decode r0
      else if ((0xC2 <=? n0) && (n0 <? 0xE0))%N then
        match r0 with
        | b1 :: r1 =>
            if is_cont b1
            then ((n0 - 0xC0) * 64 + cont_bits b1)%N :: utf8_decode r1
            else replacement :: utf8_decode r0
        | [] => [replacement]
        end
      else if ((0xE0 <=? n0) && (n0 <? 0xF0))%N then
        match r0 with
        | b1 :: b2 :: r2 =>
            let c := ((n0 - 0xE0) * 4096 + cont_bits b1 * 64 + cont_bits b2)%N in
            if is_cont b1 && is_cont b2 && (0x800 <=? c)%N
               && negb ((0xD800 <=? c) && (c <? 0xE000))%N
            then c :: utf8_decode r2
            else replacement :: utf8_decode r0
        | _ => replacement :: utf8_decode r0
        end
      else if ((0xF0 <=? n0) && (n0 <? 0xF5))%N then
        match r0 with
        | b1 :: b2 :: b3 :: r3 =>
            let c := ((n0 - 0xF0) * 262144 + cont_bits b1 * 4096
                      + cont_bits b2 * 64 + cont_bits b3)%N in
            if is_cont b1 && is_cont b2 && is_cont b3
               && (0x10000 <=? c)%N && (c <? 0x110000)%N
            then c :: utf8_decode r3
            else replacement :: utf8_decode r0
        | _ => replacement :: utf8_decode r0
        end
      else replacement :: utf8_decode r0
  end.

(** *** [String.prototype.split(':')] *)

Fixpoint split_on (sep : ascii) (s : string) : list string :=
  match s with
  | EmptyString => [EmptyString]
  | String c rest =>
      if Ascii.eqb c sep then EmptyString :: split_on sep rest
      else match split_on sep rest with
           | h :: t => String c h :: t
           | [] => [String c EmptyString]
           end
  end.

Definition xor_byte (a b : ascii) : ascii :=
  match a, b with
  | Ascii a0 a1 a2 a3 a4 a5 a6 a7, Ascii b0 b1 b2 b3 b4 b5 b6 b7 =>
      Ascii (xorb a0 b0) (xorb a1 b1) (xorb a2 b2) (xorb a3 b3)
            (xorb a4 b4) (xorb a5 b5) (xorb a6 b6) (xorb a7 b7)
  end.

Fixpoint buffer_eqb (a b : Buffer) : bool :=
  match a, b with
  | [], [] => true
  | x :: a', y :: b' => Ascii.eqb x y && buffer_eqb a' b'
  | _, _ => false
  end.

Definition colon : ascii := ":"%char.

Definition auth_failure : string :=
  "Unsupported state or unable to authenticate data".
Definition not_a_string : string :=
  "The first argument must be of type string or an instance of Buffer".

Section Cipher.

(** Node's [crypto] with algorithm ['aes-256-gcm'], as three functions:
    the password-to-(key, IV) derivation that [createCipher] and
    [createDecipher] apply to their second argument, the counter-mode
    keystream byte at each offset, and the authentication tag of a
    ciphertext. *)
Variable EVP_BytesToKey : Buffer -> Buffer * Buffer.
Variable keystream : Buffer -> Buffer -> nat -> ascii.
Variable gcm_tag : Buffer -> Buffer -> Buffer -> Buffer.

(** The state a cipher object is created with. *)
Record CipherState : Type := mkCipher {
  cipher_key : Buffer;
  cipher_iv : Buffer
}.

(** [crypto.createCipher(algorithm, password)] and
    [crypto.createDecipher(algorithm, password)]: no IV argument. *)
Definition createCipher (password : Buffer) : CipherState :=
  let (k, iv) := EVP_BytesToKey password in mkCipher k iv.

Definition createDecipher (password : Buffer) : CipherState :=
  createCipher password.

(** Counter mode: byte [i] of the input xor byte [i] of the keystream. *)
Fixpoint ctr_xor (c : CipherState) (i : nat) (input : Buffer) : Buffer :=
  match input with
  | [] => []
  | b :: rest =>
      xor_byte b (keystream (cipher_key c) (cipher_iv c) i)
        :: ctr_xor c (S i) rest
  end.

(** [cipher.getAuthTag()] after the ciphertext [ct] was produced. *)
Definition getAuthTag (c : CipherState) (ct : Buffer) : Buffer :=
  gcm_tag (cipher_key c) (cipher_iv c) ct.

(** The cipher object [encrypt] works with: built from the key alone;
    the 16 random bytes are not handed to it. *)
Definition encrypt_cipher (key randomBytes16 : Buffer) : CipherState :=
  createCipher key.

(** [TokenEncryption.encrypt(text)]; [env] is
    [process.env.ENCRYPTION_KEY] and [randomBytes16] what
    [crypto.randomBytes(16)] returned. *)
Definition encrypt (env : option string) (randomBytes16 : Buffer)
    (text : Text) : Result string :=
  match env with
  | None => Throw not_a_string
  | Some keyHex =>
      let key := from_hex keyHex in
      let iv := randomBytes16 in
      let cipher := encrypt_cipher key randomBytes16 in
      let ct := ctr_xor cipher 0 (utf8_encode text) in
      let encrypted := to_hex ct in
      let authTag := getAuthTag cipher ct in
      Ok (String.append (to_hex iv)
            (String colon (String.append (to_hex authTag)
                             (String colon encrypted))))
  end.

(** [TokenEncryption.decrypt(encryptedText)]: [parts[0]] is decoded and
    not used; a missing [parts[1]] or [parts[2]] is [undefined] where a
    string is required; [decipher.final] throws when the tag does not
    verify. *)
Definition decrypt (env : option string) (encryptedText : string)
    : Result Text :=
  match env with
  | None => Throw not_a_string
  | Some keyHex =>
      let key := from_hex keyHex in
      match split_on colon encryptedText with
      | p0 :: p1 :: rest =>
          let iv := from_hex p0 in
          let authTag := from_hex p1 in
          match rest with
          | encrypted :: _ =>
              let decipher := createDecipher key in
              let ct := from_hex encrypted in
              let decrypted := utf8_decode (ctr_xor decipher 0 ct) in
              if buffer_eqb authTag (getAuthTag decipher ct)
              then Ok decrypted
              else Throw auth_failure
          | [] => Throw not_a_string
          end
      | _ => Throw not_a_string
      end
  end.

(** The three segments of an envelope, when it has exactly three. *)
Definition envelope_segments (e : string) : option (Buffer * Buffer * Buffer) :=
  match split_on colon e with
  | [p0; p1; p2] => Some (from_hex p0, from_hex p1, from_hex p2)
  | _ => None
  end.

End Cipher.

(** *** Predicates and sample data used in the statements below *)

Fixpoint has_char (c : ascii) (s : string) : bool :=
  match s with
  | EmptyString => false
  | String x rest => Ascii.eqb x c || has_char c rest
  end.

(** A toy instance of the three cipher functions, for running the model. *)
Definition toy_kdf (password : Buffer) : Buffer * Buffer :=
  (password, [ascii_of_N 7]).
Definition toy_keystream (k iv : Buffer) (i : nat) : ascii :=
  ascii_of_N (N.of_nat (i * 37 + 11) mod 256).
Definition toy_tag (k iv ct : Buffer) : Buffer :=
  [ascii_of_N (N.of_nat (List.length ct) mod 256)].

(** "H", e-acute, the euro sign and an emoji: one to four bytes each. *)
Definition sample_text : Text := [72; 233; 8364; 128512]%N.

(** How many times a character occurs in a string. *)
Fixpoint count_char (c : ascii) (s : string) : nat :=
  match s with
  | EmptyString => O
  | String x rest =>
      (if Ascii.eqb x c then 1 else 0) + count_char c rest
  end.

(** The key the toy envelopes are made under. *)
Definition toy_key : string := "00ff".

End Vault.

(* ===================================================================== *)
(** ** The analyze-sentiment worker (src/lib/workers/analyze-sentiment.ts) *)
(* ===================================================================== *)
Module Sentiment.

Inductive SentimentLabel : Type := POSITIVE | NEGATIVE | NEUTRAL.

(** [interface AnalysisResult] of src/lib/analysis.ts; the two scores are
    carried as thousandths. *)
Record AnalysisResult : Type := mkResult {
  sentimentLabel : SentimentLabel;
  sentimentScore : Z;
  toxicityScore : Z;
  language : option string;
  keywords : option (list string);
  claims : option (list string);
  factualAccuracy : option string;
  modelName : string;
  modelVersion : option string
}.

(** Modelled from the spec: the [Comment] and [Analysis] tables are declared
    in the Prisma schema, which is not among the sources; the columns are
    those the worker reads and writes. *)
Record Comment : Type := mkComment {
  comment_id : string;
  comment_message : string
}.

Record Analysis : Type := mkAnalysis {
  commentId : string;
  a_language : option string;
  a_sentimentLabel : SentimentLabel;
  a_sentimentScore : Z;
  a_toxicityScore : Z;
  a_keywords : list string;
  a_claims : list string;
  a_factualAccuracy : option string;
  a_modelName : string;
  a_modelVersion : option string;
  analyzedAt : Z
}.

Record Db : Type := mkDb {
  comments : list Comment;
  analyses : list Analysis
}.

(** [prisma.comment.findUnique({ where: { id } })] *)
Definition findComment (i : string) (db : Db) : option Comment :=
  find (fun c => String.eqb (comment_id c) i) (comments db).

(** [prisma.analysis.findFirst({ where: { commentId } })] *)
Definition findAnalysis (i : string) (db : Db) : option Analysis :=
  find (fun a => String.eqb (commentId a) i) (analyses db).

(** The [data] of [prisma.analysis.create]. *)
Definition analysis_row (c : Comment) (r : AnalysisResult) (now : Z) : Analysis :=
  mkAnalysis (comment_id c) (language r) (sentimentLabel r)
    (sentimentScore r) (toxicityScore r)
    (match keywords r with Some k => k | None => [] end)
    (match claims r with Some k => k | None => [] end)
    (factualAccuracy r) (modelName r) (modelVersion r) now.

(** [new AnalysisEngine().analyze(text)] on one run of the worker: the
    engine returns a result or throws. *)
Definition Engine : Type := string -> Result AnalysisResult.

(** [analyzeSentiment(commentId)]: the outcome and the database after. *)
Definition analyzeSentiment (analyze : Engine) (now : Z) (cid : string)
    (db : Db) : Result unit * Db :=
  match findComment cid db with
  | None => (Throw (String.append "Comment not found: " cid), db)
  | Some comment =>
      match findAnalysis (comment_id comment) db with
      | Some _ => (Ok tt, db)
      | None =>
          match analyze (comment_message comment) with
          | Throw m => (Throw m, db)
          | Ok result =>
              (Ok tt,
               mkDb (comments db)
                    (analyses db ++ [analysis_row comment result now]))
          end
      end
  end.

(** The same job delivered again and again: each run has its own clock
    reading and its own engine behaviour. *)
Definition deliveries (runs : list (Engine * Z)) (cid : string) (db : Db)
    : Db :=
  fold_left (fun d run => snd (analyzeSentiment (fst run) (snd run) cid d))
            runs db.

(** How many [Analysis] rows a comment has. *)
Definition analyses_of (cid : string) (db : Db) : nat :=
  List.length (filter (fun a => String.eqb (commentId a) cid) (analyses db)).

(** *** Two deliveries of one job in flight

    [analyzeSentiment] awaits four times: [findUnique], [findFirst],
    [engine.analyze] and [create]. Another run of the same job can make
    progress between any two of them, so each run is a small machine whose
    steps interleave on the shared database.  Nothing in the sources makes
    [commentId] unique among the [Analysis] rows (the export route reads
    [comment.analysis] as a list), so [create] appends whatever is there. *)
Inductive Run : Type :=
| Fresh                                    (* before [findUnique] *)
| Found (comment : Comment)                (* comment read, [findFirst] not yet sent *)
| Unanalysed (comment : Comment)           (* no row seen, engine not yet called *)
| Scored (comment : Comment) (result : AnalysisResult)
                                           (* engine answered, [create] not yet sent *)
| Finished (r : Result unit).              (* [analyzeSentiment] has settled *)

(** One await of one run, at clock reading [t]. *)
Definition run_step (analyze : Engine) (t : Z) (cid : string) (r : Run)
    (db : Db) : Run * Db :=
  match r with
  | Fresh =>
      match findComment cid db with
      | None => (Finished (Throw (String.append "Comment not found: " cid)), db)
      | Some comment => (Found comment, db)
      end
  | Found comment =>
      match findAnalysis (comment_id comment) db with
      | Some _ => (Finished (Ok tt), db)
      | None => (Unanalysed comment, db)
      end
  | Unanalysed comment =>
      match analyze (comment_message comment) with
      | Throw m => (Finished (Throw m), db)
      | Ok result => (Scored comment result, db)
      end
  | Scored comment result =>
      (Finished (Ok tt),
       mkDb (comments db) (analyses db ++ [analysis_row comment result t]))
  | Finished r' => (Finished r', db)
  end.

(** One run taking its steps undisturbed, at the given clock readings. *)
Definition run_alone (analyze : Engine) (cid : string) (times : list Z)
    (db : Db) : Run * Db :=
  fold_left (fun s t => run_step analyze t cid (fst s) (snd s)) times
            (Fresh, db).

Inductive Delivery : Type := FirstRun | SecondRun.

Record InFlight : Type := mkInFlight {
  shared : Db;
  firstRun : Run;
  secondRun : Run
}.

Definition flight_step (cid : string) (step : Delivery * Engine * Z)
    (f : InFlight) : InFlight :=
  let '(w, analyze, t) := step in
  match w with
  | FirstRun =>
      let (r, db) := run_step analyze t cid (firstRun f) (shared f) in
      mkInFlight db r (secondRun f)
  | SecondRun =>
      let (r, db) := run_step analyze t cid (secondRun f) (shared f) in
      mkInFlight db (firstRun f) r
  end.

(** A schedule says whose await completes next, when, and what the engine
    does if that await is the engine call. *)
Definition fly (cid : string) (sch : list (Delivery * Engine * Z)) (db : Db)
    : InFlight :=
  fold_left (fun f step => flight_step cid step f) sch
            (mkInFlight db Fresh Fresh).

(** *** Predicates and sample data used in the statements below *)

Definition happy : AnalysisResult :=
  mkResult POSITIVE 930 12 (Some "en") (Some ["great"]) None None
           "distilbert-sst2" None.

Definition db_one_comment : Db := mkDb [mkComment "c1" "great post"] [].

End Sentiment.

(* ===================================================================== *)
(** ** The analysis engine (src/lib/analysis.ts) *)
(* ===================================================================== *)
Module Analysis.

(** [interface SentimentAnalyzer], at the moment of one call: its name,
    what [isAvailable()] answers, and what [analyze(text)] does. *)
Record SentimentAnalyzer : Type := mkAnalyzer {
  getName : string;
  isAvailable : bool;
  analyze_text : string -> Result Sentiment.AnalysisResult
}.

(** [class AnalysisEngine]: its two private fields. *)
Record AnalysisEngine : Type := mkEngine {
  analyzers : list SentimentAnalyzer;
  preferredAnalyzer : option string
}.

(** [getAvailableAnalyzers()] *)
Definition getAvailableAnalyzers (e : AnalysisEngine) : list SentimentAnalyzer :=
  filter isAvailable (analyzers e).

(** [setPreferredAnalyzer(name)] and [getPreferredAnalyzer()] *)
Definition setPreferredAnalyzer (name : string) (e : AnalysisEngine)
    : AnalysisEngine :=
  mkEngine (analyzers e) (Some name).

Definition getPreferredAnalyzer (e : AnalysisEngine) : option string :=
  preferredAnalyzer e.

(** [s.includes(sub)] *)
Fixpoint includes (s sub : string) : bool :=
  String.prefix sub s
  || match s with
     | EmptyString => false
     | String _ rest => includes rest sub
     end.

Definition no_analyzers : string := "No sentiment analyzers available".

Section Engine.

(** [String.prototype.toLowerCase], the runtime's. *)
Variable toLowerCase : string -> string.

(** [analyze(text, preferredAnalyzer?)]: the parameter, not the field of
    the same name, picks the analyzer. *)
Definition analyze (e : AnalysisEngine) (text : string)
    (preferred : option string) : Result Sentiment.AnalysisResult :=
  match getAvailableAnalyzers e with
  | [] => Throw no_analyzers
  | first :: rest =>
      let available := first :: rest in
      let analyzer :=
        match preferred with
        | Some p =>
            if String.eqb p "" then first
            else
              match find (fun a => includes (toLowerCase (getName a))
                                            (toLowerCase p)) available with
              | Some a => a
              | None => first
              end
        | None => first
        end in
      analyze_text analyzer text
  end.

(** The engine as the analyze-sentiment worker calls it:
    [engine.analyze(comment.message)]. *)
Definition as_worker_engine (e : AnalysisEngine) : Sentiment.Engine :=
  fun text => analyze e text None.

End Engine.

(** *** Keyword extraction ([LocalTransformersAnalyzer.extractKeywords]) *)

(** A text is the list of its code points, as in the vault. *)
Definition Text : Type := list N.

Definition text_of (s : string) : Text :=
  map N_of_ascii (list_ascii_of_string s).

(** [\w] and [\s] of a regular expression without the [u] flag. *)
Definition is_word (c : N) : bool :=
  ((48 <=? c) && (c <=? 57) || (65 <=? c) && (c <=? 90)
   || (c =? 95) || (97 <=? c) && (c <=? 122))%N.

Definition is_space (c : N) : bool :=
  ((9 <=? c) && (c <=? 13) || (c =? 32) || (c =? 160) || (c =? 5760)
   || (8192 <=? c) && (c <=? 8202) || (c =? 8232) || (c =? 8233)
   || (c =? 8239) || (c =? 8287) || (c =? 12288) || (c =? 65279))%N.

Definition stopWords : list Text :=
  map text_of
    ["the"; "a"; "an"; "and"; "or"; "but"; "in"; "on"; "at"; "to"; "for";
     "of"; "with"; "by"; "is"; "are"; "was"; "were"; "be"; "been"; "being";
     "have"; "has"; "had"; "do"; "does"; "did"; "will"; "would"; "could";
     "should"; "may"; "might"; "must"; "can"; "this"; "that"; "these";
     "those"].

Fixpoint text_eqb (a b : Text) : bool :=
  match a, b with
  | [], [] => true
  | x :: a', y :: b' => (x =? y)%N && text_eqb a' b'
  | _, _ => false
  end.

(** [stopWords.has(word)] *)
Definition is_stop_word (w : Text) : bool := existsb (text_eqb w) stopWords.

(** [s.split(/\s+/)]: [cur] is the piece being read, in reverse, and
    [in_gap] tells that the previous character was white space. *)
Fixpoint split_spaces (s : Text) (cur : Text) (in_gap : bool) : list Text :=
  match s with
  | [] => [rev cur]
  | c :: rest =>
      if is_space c then
        if in_gap then split_spaces rest cur true
        else rev cur :: split_spaces rest [] true
      else split_spaces rest (c :: cur) false
  end.

(** [wordCount.set(word, (wordCount.get(word) || 0) + 1)] on a [Map],
    whose entries stay in the order of first insertion. *)
Fixpoint bump (w : Text) (counts : list (Text * Z)) : list (Text * Z) :=
  match counts with
  | [] => [(w, 1)]
  | (k, n) :: rest =>
      if text_eqb k w then (k, n + 1) :: rest else (k, n) :: bump w rest
  end.

Definition wordCount (words : list Text) : list (Text * Z) :=
  fold_left (fun counts w => bump w counts) words [].

(** [entries.sort((a, b) => b[1] - a[1])]: the sort is stable, so an entry
    goes after every entry that counts at least as much. *)
Fixpoint place (x : Text * Z) (sorted : list (Text * Z)) : list (Text * Z) :=
  match sorted with
  | [] => [x]
  | y :: rest =>
      if snd y <? snd x then x :: y :: rest else y :: place x rest
  end.

Definition sort_by_count (entries : list (Text * Z)) : list (Text * Z) :=
  fold_left (fun sorted x => place x sorted) entries [].

Section Keywords.

(** [String.prototype.toLowerCase] on a text, the runtime's. *)
Variable lower : Text -> Text.

(** The [words] of [extractKeywords]. *)
Definition words_of (text : Text) : list Text :=
  filter (fun word => (2 <? Z.of_nat (List.length word)) && negb (is_stop_word word))
    (split_spaces (filter (fun c => is_word c || is_space c) (lower text))
                  [] false).

(** [extractKeywords(text)] *)
Definition extractKeywords (text : Text) : list Text :=
  map fst (firstn 5 (sort_by_count (wordCount (words_of text)))).

End Keywords.

(** How often [w] occurs among [words]. *)
Definition occurrences (w : Text) (words : list Text) : Z :=
  Z.of_nat (List.length (filter (text_eqb w) words)).

(** The order [sort] leaves the entries in: counts never go up. *)
Definition by_count (a b : Text * Z) : Prop := snd b <= snd a.

(** ASCII lower-casing, for running the model on ASCII texts. *)
Definition ascii_lower (t : Text) : Text :=
  map (fun c => if ((65 <=? c) && (c <=? 90))%N then (c + 32)%N else c) t.

Definition local_stub : SentimentAnalyzer :=
  mkAnalyzer "Local Transformers" false (fun _ => Throw "model not loaded").

Definition openai_stub : SentimentAnalyzer :=
  mkAnalyzer "OpenAI GPT-3.5" true
    (fun _ => Ok (Sentiment.mkResult Sentiment.NEUTRAL 500 0 (Some "en") None
                    None None "openai-gpt-3.5-turbo" (Some "3.5"))).

End Analysis.

(* ===================================================================== *)
(** ** Properties of the job queue *)
(* ===================================================================== *)
Module QueueFacts.
Import Queue.

Lemma status_eqb_eq a b : status_eqb a b = true <-> a = b.
Proof. destruct a, b; simpl; split; congruence. Qed.

(** [update] rewrites exactly the first row carrying the key. *)
Lemma update_split i f rows rows' :
  update i f rows = Some rows' ->
  exists pre j post,
    rows = pre ++ j :: post /\ rows' = pre ++ f j :: post /\ id j = i
    /\ findUnique i rows = Some j.
Proof.
  revert rows'. induction rows as [|x rest IH]; simpl; intros rows' H.
  - discriminate.
  - unfold findUnique; simpl. destruct (String.eqb (id x) i) eqn:E.
    + inversion H; subst. exists [], x, rest.
      apply String.eqb_eq in E. auto.
    + destruct (update i f rest) as [r|] eqn:U; simpl in H; [|discriminate].
      inversion H; subst.
      destruct (IH r eq_refl) as (pre & j & post & -> & -> & Hid & Hf).
      exists (x :: pre), j, post. auto.
Qed.

Lemma findUnique_split i rows j :
  findUnique i rows = Some j ->
  exists pre post, rows = pre ++ j :: post /\ id j = i
    /\ forall f, update i f rows = Some (pre ++ f j :: post).
Proof.
  unfold findUnique.
  induction rows as [|x rest IH]; simpl; intros H; [discriminate|].
  destruct (String.eqb (id x) i) eqn:E.
  - inversion H; subst. exists [], rest. apply String.eqb_eq in E.
    split; [reflexivity|]. split; [exact E|].
    intros f. reflexivity.
  - destruct (IH H) as (pre & post & -> & Hid & Hu).
    exists (x :: pre), post.
    split; [reflexivity|]. split; [exact Hid|].
    intros f. simpl. rewrite Hu. reflexivity.
Qed.

Lemma findUnique_none i rows :
  findUnique i rows = None -> forall x, In x rows -> id x <> i.
Proof.
  unfold findUnique. intros H x Hin Hid.
  apply (find_none _ _ H) in Hin. apply String.eqb_neq in Hin. auto.
Qed.

(** C10: for every job id present in the store, [completeJob] succeeds
    whatever the job's current status is; afterwards the row has status
    COMPLETED and [completedAt] stamped with the call's clock reading, every
    other column of the row keeps its value, and every other row is
    untouched. *)
Theorem completeJob_unconditional (now : Z) (jobId : string) (rows : Store)
    (j : Job) :
  findUnique jobId rows = Some j ->
  exists pre post,
    rows = pre ++ j :: post /\
    completeJob now jobId rows =
      Ok (pre ++ mkJob (id j) (type j) (payload j) COMPLETED (attempts j)
                       (maxAttempts j) (scheduledAt j) (startedAt j)
                       (Some now) (lastError j) :: post).
Proof.
  intros H. destruct (findUnique_split _ _ _ H) as (pre & post & Hr & _ & Hu).
  exists pre, post. split; [exact Hr|].
  unfold completeJob. rewrite Hu. reflexivity.
Qed.

Lemma completeJob_unconditional_witness :
  exists pre post,
    [failed_job] = pre ++ failed_job :: post /\
    completeJob 99 "job-1" [failed_job] =
      Ok (pre ++ mkJob "job-1" FETCH_POSTS sample_data COMPLETED 3 3 50 None
                       (Some 99) (Some "boom") :: post).
Proof.
  exact (completeJob_unconditional 99 "job-1" [failed_job] failed_job eq_refl).
Defined.

(** C5, as the code has it: [failJob] on a known job (with the
    non-negative [attempts] the column holds) whose [attempts] is below
    [maxAttempts] re-queues it (status QUEUED) at
    [now + min(1000 * 2^attempts, 300000)] milliseconds: the cap is five
    minutes, not thirty seconds; otherwise the job becomes FAILED and keeps
    its [scheduledAt]. Both branches record [lastError] and clear
    [startedAt]; no other row changes. *)
Theorem failJob_requeues_or_fails (now : Z) (jobId error : string)
    (rows : Store) (j : Job) :
  findUnique jobId rows = Some j ->
  0 <= attempts j ->
  exists pre post,
    rows = pre ++ j :: post /\
    (attempts j < maxAttempts j ->
       failJob now jobId error rows =
         Ok (pre ++ mkJob (id j) (type j) (payload j) QUEUED (attempts j)
                          (maxAttempts j)
                          (now + Z.min (1000 * 2 ^ attempts j) 300000)
                          None (completedAt j) (Some error) :: post)) /\
    (maxAttempts j <= attempts j ->
       failJob now jobId error rows =
         Ok (pre ++ mkJob (id j) (type j) (payload j) FAILED (attempts j)
                          (maxAttempts j) (scheduledAt j)
                          None (completedAt j) (Some error) :: post)).
Proof.
  intros H _. destruct (findUnique_split _ _ _ H) as (pre & post & Hr & _ & Hu).
  exists pre, post. split; [exact Hr|].
  unfold failJob. rewrite H, Hu. unfold markFailed, calculateBackoffDelay,
    baseDelay, maxDelay.
  split; intros Hlt.
  - apply Z.ltb_lt in Hlt. rewrite Hlt. reflexivity.
  - apply Z.ltb_ge in Hlt. rewrite Hlt. reflexivity.
Qed.

Lemma failJob_requeues_or_fails_witness :
  findUnique "job-2" [running_job] = Some running_job /\
  0 <= attempts running_job /\
  exists pre post,
    [running_job] = pre ++ running_job :: post /\
    (attempts running_job < maxAttempts running_job ->
       failJob 100 "job-2" "boom" [running_job] =
         Ok (pre ++ mkJob "job-2" FETCH_COMMENTS sample_data QUEUED 5 10
                          (100 + Z.min (1000 * 2 ^ 5) 300000)
                          None None (Some "boom") :: post)) /\
    (maxAttempts running_job <= attempts running_job ->
       failJob 100 "job-2" "boom" [running_job] =
         Ok (pre ++ mkJob "job-2" FETCH_COMMENTS sample_data FAILED 5 10 50
                          None None (Some "boom") :: post)).
Proof.
  split; [reflexivity|]. split; [simpl; lia|].
  apply (failJob_requeues_or_fails 100 "job-2" "boom" [running_job] running_job).
  - reflexivity.
  - simpl; lia.
Defined.

(** C5 as stated fails: with [attempts = 5] the claimed delay
    [min(1s * 2^5, 30s)] is 30000 ms, the job is re-queued 32000 ms ahead. *)
Lemma failJob_backoff_exceeds_30s :
  attempts running_job < maxAttempts running_job /\
  exists j',
    failJob 100 "job-2" "boom" [running_job] = Ok [j'] /\
    status j' = QUEUED /\
    scheduledAt j' = 100 + 32000 /\
    scheduledAt j' <> 100 + spec_backoff (attempts running_job).
Proof.
  split; [simpl; lia|]. eexists. split; [reflexivity|].
  repeat split. vm_compute. discriminate.
Qed.

(** *** Claiming *)

Lemma earliest_In l j : earliest l = Some j -> In j l.
Proof.
  revert j. induction l as [|x rest IH]; simpl; intros j H; [discriminate|].
  destruct (earliest rest) as [b|].
  - destruct (scheduledAt b <? scheduledAt x); inversion H; subst; auto.
  - inversion H; auto.
Qed.

Lemma findFirst_eligible t rows j :
  findFirst t rows = Some j -> In j rows /\ eligible t j = true.
Proof.
  unfold findFirst. intros H. apply earliest_In in H.
  apply filter_In in H. exact H.
Qed.

Lemma eligible_queued t j :
  eligible t j = true -> status j = QUEUED /\ attempts j < maxAttempts j.
Proof.
  unfold eligible. intros H.
  apply andb_prop in H as [H Hlt]. apply andb_prop in H as [Hs _].
  apply status_eqb_eq in Hs. apply Z.ltb_lt in Hlt. auto.
Qed.

(** With unique keys, the rows of an updated table that carry the updated
    key are the rewritten row alone. *)
Lemma NoDup_update_row pre (j : Job) post f x :
  NoDup (map id (pre ++ j :: post)) ->
  id (f j) = id j ->
  In x (pre ++ f j :: post) -> id x = id j -> x = f j.
Proof.
  intros Hnd Hf Hin Hid.
  rewrite map_app in Hnd. simpl in Hnd.
  apply NoDup_remove_2 in Hnd.
  apply in_app_or in Hin. destruct Hin as [Hin|[Hin|Hin]]; auto.
  - exfalso. apply Hnd. apply in_or_app. left.
    rewrite <- Hid. apply in_map. exact Hin.
  - exfalso. apply Hnd. apply in_or_app. right.
    rewrite <- Hid. apply in_map. exact Hin.
Qed.

(** Two calls of [getNextJob] that run one after the other never hand out
    the same job. *)
Lemma getNextJob_twice_distinct t1 t1' t2 t2' rows rows1 rows2 j1 j2 :
  NoDup (map id rows) ->
  getNextJob t1 t1' rows = Ok (Some j1, rows1) ->
  getNextJob t2 t2' rows1 = Ok (Some j2, rows2) ->
  id j1 <> id j2.
Proof.
  unfold getNextJob. intros Hnd H1 H2 Heq.
  destruct (findFirst t1 rows) as [a|] eqn:F1; [|discriminate].
  destruct (update (id a) (markRunning t1') rows) as [r1|] eqn:U1;
    [|discriminate].
  inversion H1; subst a r1; clear H1.
  destruct (findFirst t2 rows1) as [b|] eqn:F2; [|discriminate].
  destruct (update (id b) (markRunning t2') rows1) as [r2|] eqn:U2;
    [|discriminate].
  inversion H2; subst b r2; clear H2.
  apply update_split in U1 as (pre & j & post & -> & -> & Hid & _).
  apply findFirst_eligible in F2 as [Hin Hel].
  apply eligible_queued in Hel as [Hq _].
  assert (j2 = markRunning t1' j) as ->.
  { apply (NoDup_update_row pre j post (markRunning t1') j2 Hnd);
      [reflexivity | exact Hin | congruence]. }
  discriminate Hq.
Qed.

(** *** Two schedulers *)

Lemma step_other w t s :
  claimant (other w) (system_step w t s) = claimant (other w) s.
Proof.
  destruct w; simpl;
    match goal with
    | |- context [claimant_step ?t ?c ?r] => destruct (claimant_step t c r)
    end; reflexivity.
Qed.

Lemma step_self w t s :
  claimant_step t (claimant w s) (table s)
  = (claimant w (system_step w t s), table (system_step w t s)).
Proof.
  destruct w; simpl;
    match goal with
    | |- context [claimant_step ?t ?c ?r] => destruct (claimant_step t c r)
    end; reflexivity.
Qed.

Lemma step_returned w t s r :
  claimant w s = Returned r -> system_step w t s = s.
Proof. destruct s as [rows a b]; destruct w; simpl; intros ->; reflexivity. Qed.

Lemma only_cons w w' t sch :
  only w ((w', t) :: sch) -> w' = w /\ only w sch.
Proof. intros H. inversion H; auto. Qed.

Lemma run_alone_other w sch s :
  only w sch ->
  claimant (other w) (run_schedule sch s) = claimant (other w) s.
Proof.
  unfold run_schedule. revert s.
  induction sch as [|[w' t] sch IH]; intros s H; simpl; [reflexivity|].
  apply only_cons in H as [-> Hrest].
  rewrite (IH _ Hrest). apply step_other.
Qed.

Lemma run_alone_returned w sch s r :
  only w sch -> claimant w s = Returned r -> run_schedule sch s = s.
Proof.
  unfold run_schedule. revert s.
  induction sch as [|[w' t] sch IH]; intros s H Hr; simpl; [reflexivity|].
  apply only_cons in H as [-> Hrest].
  rewrite (step_returned w t s r Hr). exact (IH s Hrest Hr).
Qed.

(** A scheduler that ran alone from [Polling] and holds a job made one
    whole call of [getNextJob] on the table it started from. *)
Lemma run_alone_claims w sch s job :
  only w sch ->
  claimant w s = Polling ->
  claimant w (run_schedule sch s) = Returned (Some job) ->
  exists t1 t2,
    getNextJob t1 t2 (table s) = Ok (Some job, table (run_schedule sch s)).
Proof.
  intros H Hp Hr.
  destruct sch as [|[w1 t1] sch]; [simpl in Hr; congruence|].
  apply only_cons in H as [-> H1].
  change (run_schedule ((w, t1) :: sch) s)
    with (run_schedule sch (system_step w t1 s)) in *.
  pose proof (step_self w t1 s) as S1. rewrite Hp in S1. simpl in S1.
  destruct (findFirst t1 (table s)) as [found|] eqn:F.
  - inversion S1 as [[Hc1 Ht1]].
    destruct sch as [|[w2 t2] sch]; [simpl in Hr; congruence|].
    apply only_cons in H1 as [-> H2].
    change (run_schedule ((w, t2) :: sch) (system_step w t1 s))
      with (run_schedule sch (system_step w t2 (system_step w t1 s))) in *.
    pose proof (step_self w t2 (system_step w t1 s)) as S2.
    rewrite <- Hc1, <- Ht1 in S2. simpl in S2.
    destruct (update (id found) (markRunning t2) (table s)) as [rows'|] eqn:U;
      inversion S2 as [[Hc2 Ht2]].
    + rewrite (run_alone_returned w sch _ _ H2 (eq_sym Hc2)) in *.
      rewrite <- Hc2 in Hr. inversion Hr; subst found.
      exists t1, t2. unfold getNextJob. rewrite F, U, Ht2. reflexivity.
    + rewrite (run_alone_returned w sch _ _ H2 (eq_sym Hc2)) in Hr.
      congruence.
  - inversion S1 as [[Hc1 Ht1]].
    rewrite (run_alone_returned w sch _ _ H1 (eq_sym Hc1)) in Hr.
    congruence.
Qed.

Lemma run_schedule_app first second s :
  run_schedule (first ++ second) s = run_schedule second (run_schedule first s).
Proof. unfold run_schedule. apply fold_left_app. Qed.

(** C1, as the code has it: [getNextJob] is a read followed by a separate
    write. When the two schedulers' calls do not overlap (one runs all its
    steps before the other runs any of its own), they never receive the same
    job id, on any table with unique keys. *)
Theorem claim_exclusive_when_serial (rows : Store) (sch : list (Who * Z)) :
  NoDup (map id rows) ->
  serial sch ->
  ~ same_job_claimed (run_schedule sch (start rows)).
Proof.
  intros Hnd (w & first & second & -> & Hfirst & Hsecond) (a & b & Ha & Hb & Hab).
  rewrite run_schedule_app in Ha, Hb.
  set (s1 := run_schedule first (start rows)) in *.
  set (s2 := run_schedule second s1) in *.
  assert (Hpair : exists x y,
             claimant w s2 = Returned (Some x)
             /\ claimant (other w) s2 = Returned (Some y) /\ id x = id y).
  { destruct w; simpl; [exists a, b | exists b, a]; auto. }
  destruct Hpair as (x & y & Hx & Hy & Hxy).
  assert (Hx1 : claimant w s1 = Returned (Some x)).
  { rewrite <- Hx. unfold s2.
    replace w with (other (other w)) at 1 2 by (destruct w; reflexivity).
    symmetry. apply run_alone_other. exact Hsecond. }
  destruct (run_alone_claims w first (start rows) x Hfirst
              ltac:(destruct w; reflexivity) Hx1) as (t1 & t2 & G1).
  assert (Hp : claimant (other w) s1 = Polling).
  { unfold s1. rewrite (run_alone_other w first _ Hfirst).
    destruct w; reflexivity. }
  destruct (run_alone_claims (other w) second s1 y Hsecond Hp Hy)
    as (t3 & t4 & G2).
  exact (getNextJob_twice_distinct _ _ _ _ _ _ _ _ _ Hnd G1 G2 Hxy).
Qed.

Lemma claim_exclusive_when_serial_witness :
  NoDup (map id [queued_job]) /\
  serial [(SchedA, 10); (SchedA, 11); (SchedB, 12); (SchedB, 13)] /\
  ~ same_job_claimed
      (run_schedule [(SchedA, 10); (SchedA, 11); (SchedB, 12); (SchedB, 13)]
                    (start [queued_job])).
Proof.
  assert (Hnd : NoDup (map id [queued_job])).
  { simpl. constructor; [intros []|constructor]. }
  assert (Hs : serial [(SchedA, 10); (SchedA, 11); (SchedB, 12); (SchedB, 13)]).
  { exists SchedA, [(SchedA, 10); (SchedA, 11)], [(SchedB, 12); (SchedB, 13)].
    split; [reflexivity|]. split; repeat constructor. }
  split; [exact Hnd|]. split; [exact Hs|].
  exact (claim_exclusive_when_serial [queued_job] _ Hnd Hs).
Defined.

(** C1 as stated fails: when scheduler B's [findFirst] runs between
    scheduler A's [findFirst] and A's [update], both calls return job
    "job-3" (and its [attempts] is incremented twice). *)
Lemma claim_race_same_job :
  let s := run_schedule [(SchedA, 10); (SchedB, 10); (SchedA, 11); (SchedB, 12)]
                        (start [queued_job]) in
  same_job_claimed s /\
  schedA s = Returned (Some queued_job) /\
  schedB s = Returned (Some queued_job) /\
  map attempts (table s) = [2].
Proof.
  cbv zeta. split; [|repeat split].
  exists queued_job, queued_job. repeat split.
Qed.

(** *** Invariants of the table under sequences of store calls *)

Lemma RowChange_id op j j' : RowChange op j j' -> id j' = id j.
Proof. destruct 1; reflexivity. Qed.

Lemma apply_op_cases op rows :
  NoDup (map id rows) ->
  apply_op op rows = rows
  \/ (exists j, apply_op op rows = rows ++ [j]
        /\ findUnique (id j) rows = None
        /\ status j = QUEUED /\ attempts j = 0
        /\ op_maxAttempts op = Some (maxAttempts j))
  \/ (exists pre j post j', rows = pre ++ j :: post
        /\ apply_op op rows = pre ++ j' :: post /\ RowChange op j j').
Proof.
  intros Hnd.
  destruct op as [newId ty p m s now | tFind tStart | jobId now | jobId error now];
    simpl.
  - unfold enqueue, create.
    destruct (negb (fits_int match m with Some m' => m' | None => 3 end));
      [left; reflexivity|].
    destruct (findUnique newId rows) eqn:F; [left; reflexivity|].
    right; left. eexists. split; [reflexivity|]. simpl. auto.
  - unfold getNextJob. destruct (findFirst tFind rows) as [job|] eqn:F;
      [|left; reflexivity].
    destruct (update (id job) (markRunning tStart) rows) eqn:U;
      [|left; reflexivity].
    right; right.
    apply update_split in U as (pre & j & post & -> & -> & Hid & Hf).
    apply findFirst_eligible in F as [Hin Hel].
    assert (job = j) as ->.
    { exact (NoDup_update_row pre j post (fun x => x) job Hnd eq_refl Hin
               (eq_sym Hid)). }
    exists pre, j, post, (markRunning tStart j).
    split; [reflexivity|]. split; [reflexivity|].
    exact (ChangeClaim _ _ tFind tStart eq_refl Hel).
  - unfold completeJob. destruct (update jobId (markCompleted now) rows) eqn:U;
      [|left; reflexivity].
    right; right.
    apply update_split in U as (pre & j & post & -> & -> & Hid & Hf).
    exists pre, j, post, (markCompleted now j). subst jobId.
    split; [reflexivity|]. split; [reflexivity|].
    exact (ChangeComplete _ _ now eq_refl).
  - unfold failJob. destruct (findUnique jobId rows) as [found|] eqn:F;
      [|left; reflexivity].
    destruct (update jobId (markFailed now error) rows) eqn:U;
      [|left; reflexivity].
    right; right.
    apply update_split in U as (pre & j & post & -> & -> & Hid & Hf).
    exists pre, j, post, (markFailed now error j). subst jobId.
    split; [reflexivity|]. split; [reflexivity|].
    exact (ChangeFail _ _ error now eq_refl).
Qed.

Lemma apply_op_NoDup op rows :
  NoDup (map id rows) -> NoDup (map id (apply_op op rows)).
Proof.
  intros Hnd.
  destruct (apply_op_cases op rows Hnd)
    as [-> | [(j & -> & Hnone & _) | (pre & j & post & j' & -> & -> & Hc)]].
  - exact Hnd.
  - rewrite map_app. simpl.
    apply NoDup_incl_NoDup with (l := id j :: map id rows).
    + constructor; [|exact Hnd].
      intros Hin. apply in_map_iff in Hin as (x & Hx & Hin).
      exact (findUnique_none _ _ Hnone x Hin Hx).
    + rewrite length_app. simpl. lia.
    + intros x [<-|Hx]; apply in_or_app;
        [right; left; reflexivity | left; exact Hx].
  - rewrite map_app in *. simpl in *.
    rewrite (RowChange_id _ _ _ Hc). exact Hnd.
Qed.

Lemma run_ops_NoDup ops rows :
  NoDup (map id rows) -> NoDup (map id (run_ops ops rows)).
Proof.
  revert rows. induction ops as [|op ops IH]; simpl; intros rows H; auto.
  apply IH. apply apply_op_NoDup. exact H.
Qed.

Lemma RowChange_bounded op j j' :
  RowChange op j j' -> bounded j -> bounded j'.
Proof.
  unfold bounded. destruct 1 as [tf ts _ Hel | now _ | e now _]; simpl; auto.
  apply eligible_queued in Hel. lia.
Qed.

Lemma RowChange_failed_spent op j j' :
  RowChange op j j' -> failed_spent j -> failed_spent j'.
Proof.
  unfold failed_spent. destruct 1 as [tf ts _ Hel | now _ | e now _]; simpl.
  - discriminate.
  - discriminate.
  - intros _. destruct (attempts j <? maxAttempts j) eqn:E; [discriminate|].
    intros _. apply Z.ltb_ge in E. exact E.
Qed.

Lemma RowChange_spent op j j' :
  RowChange op j j' -> spent j -> spent j'.
Proof.
  unfold spent. destruct 1 as [tf ts _ Hel | now _ | e now _]; simpl;
    intros [Hle Hq].
  - apply eligible_queued in Hel as [Hs _]. contradiction.
  - split; [exact Hle | discriminate].
  - destruct (attempts j <? maxAttempts j) eqn:E.
    + apply Z.ltb_lt in E. lia.
    + split; [exact Hle | discriminate].
Qed.

(** A row that is FAILED after a call and was not so before was rewritten
    by [failJob]. *)
Lemma RowChange_to_failed op j j' :
  RowChange op j j' -> status j' = FAILED ->
  exists error now, op = OpFail (id j') error now.
Proof.
  destruct 1 as [tf ts _ Hel | now _ | e now Hop]; simpl; try discriminate.
  intros _. exists e, now. exact Hop.
Qed.

Lemma apply_op_Forall (P : Job -> Prop) op rows :
  NoDup (map id rows) ->
  (forall j j', RowChange op j j' -> P j -> P j') ->
  (forall j, status j = QUEUED -> attempts j = 0 ->
             op_maxAttempts op = Some (maxAttempts j) -> P j) ->
  Forall P rows -> Forall P (apply_op op rows).
Proof.
  intros Hnd Hstep Hnew Hall.
  destruct (apply_op_cases op rows Hnd)
    as [-> | [(j & -> & _ & Hq & Ha & Hm) | (pre & j & post & j' & -> & -> & Hc)]].
  - exact Hall.
  - apply Forall_app. split; [exact Hall|]. constructor; [|constructor].
    apply Hnew; assumption.
  - apply Forall_app in Hall as [Hpre Hrest].
    inversion Hrest as [|? ? Hj Hpost]; subst.
    apply Forall_app. split; [exact Hpre|].
    constructor; [eapply Hstep; eassumption | exact Hpost].
Qed.

Lemma run_ops_bounded ops rows :
  Forall enqueue_nonneg ops ->
  NoDup (map id rows) -> Forall bounded rows ->
  Forall bounded (run_ops ops rows).
Proof.
  revert rows. induction ops as [|op ops IH]; simpl; intros rows Hops Hnd Hall;
    [exact Hall|].
  inversion Hops as [|? ? Hop Hops']; subst.
  apply IH; [exact Hops' | apply apply_op_NoDup; exact Hnd |].
  apply apply_op_Forall; [exact Hnd | apply RowChange_bounded | | exact Hall].
  intros j _ Ha Hm. unfold enqueue_nonneg in Hop. rewrite Hm in Hop.
  unfold bounded. lia.
Qed.

Lemma run_ops_failed_spent ops rows :
  NoDup (map id rows) -> Forall failed_spent rows ->
  Forall failed_spent (run_ops ops rows).
Proof.
  revert rows. induction ops as [|op ops IH]; simpl; intros rows Hnd Hall;
    [exact Hall|].
  apply IH; [apply apply_op_NoDup; exact Hnd |].
  apply apply_op_Forall;
    [exact Hnd | apply RowChange_failed_spent | | exact Hall].
  intros j Hq _ _ Hf. congruence.
Qed.

(** Once every row carrying key [i] is spent, it stays so. *)
Lemma apply_op_spent op rows i :
  NoDup (map id rows) ->
  (exists x, In x rows /\ id x = i) ->
  (forall x, In x rows -> id x = i -> spent x) ->
  (exists x, In x (apply_op op rows) /\ id x = i) /\
  (forall x, In x (apply_op op rows) -> id x = i -> spent x).
Proof.
  intros Hnd (w & Hw & Hwi) Hall.
  destruct (apply_op_cases op rows Hnd)
    as [-> | [(j & -> & Hnone & _) | (pre & j & post & j' & -> & -> & Hc)]].
  - split; [exists w; auto | exact Hall].
  - split; [exists w; split; [apply in_or_app; left; exact Hw | exact Hwi]|].
    intros x Hx Hxi. apply in_app_or in Hx as [Hx|[<-|[]]]; [auto|].
    exfalso. apply (findUnique_none _ _ Hnone w Hw). congruence.
  - pose proof (RowChange_id _ _ _ Hc) as Hid.
    split.
    + apply in_app_or in Hw as [Hw|[<-|Hw]].
      * exists w. split; [apply in_or_app; left; exact Hw | exact Hwi].
      * exists j'. split; [apply in_or_app; right; left; reflexivity
                          | congruence].
      * exists w. split; [apply in_or_app; right; right; exact Hw | exact Hwi].
    + intros x Hx Hxi. apply in_app_or in Hx as [Hx|[<-|Hx]].
      * apply Hall; [apply in_or_app; left; exact Hx | exact Hxi].
      * apply (RowChange_spent _ _ _ Hc).
        apply Hall; [apply in_or_app; right; left; reflexivity | congruence].
      * apply Hall; [apply in_or_app; right; right; exact Hx | exact Hxi].
Qed.

Lemma run_ops_spent ops rows i :
  NoDup (map id rows) ->
  (exists x, In x rows /\ id x = i) ->
  (forall x, In x rows -> id x = i -> spent x) ->
  forall x, In x (run_ops ops rows) -> id x = i -> spent x.
Proof.
  revert rows. induction ops as [|op ops IH]; simpl; intros rows Hnd Hex Hall;
    [exact Hall|].
  destruct (apply_op_spent op rows i Hnd Hex Hall) as [Hex' Hall'].
  apply IH; [apply apply_op_NoDup; exact Hnd | exact Hex' | exact Hall'].
Qed.

Lemma NoDup_same_id (rows : Store) x y :
  NoDup (map id rows) -> In x rows -> In y rows -> id x = id y -> x = y.
Proof.
  intros Hnd Hx Hy Hid.
  apply in_split in Hy as (pre & post & ->).
  exact (NoDup_update_row pre y post (fun z => z) x Hnd eq_refl Hx Hid).
Qed.

(** C2, as the code has it: over every sequence of [enqueue],
    [getNextJob], [completeJob] and [failJob] calls that run one after
    another (each call returns before the next one starts, so no two
    [getNextJob] calls overlap) on an empty table, in which no [enqueue]
    passes a negative [maxAttempts], every job keeps
    [attempts <= maxAttempts]; a FAILED job has [attempts = maxAttempts], and
    a row is FAILED after a call only if it was already there as it is or the
    call was [failJob] on that job; and once a job is FAILED no later call,
    whatever it is, makes it QUEUED again. *)
Theorem attempts_bounded_failed_final (ops : list Op) :
  Forall enqueue_nonneg ops ->
  let rows := run_ops ops [] in
  (forall j, In j rows -> attempts j <= maxAttempts j) /\
  (forall j, In j rows -> status j = FAILED -> attempts j = maxAttempts j) /\
  (forall op j', In j' (apply_op op rows) -> status j' = FAILED ->
     In j' rows \/ exists error now, op = OpFail (id j') error now) /\
  (forall j ops' j', In j rows -> status j = FAILED ->
     In j' (run_ops ops' rows) -> id j' = id j -> status j' <> QUEUED).
Proof.
  intros Hops rows.
  assert (Hnd : NoDup (map id rows)) by (apply run_ops_NoDup; constructor).
  assert (Hb : Forall bounded rows)
    by (apply run_ops_bounded; [exact Hops | constructor | constructor]).
  assert (Hf : Forall failed_spent rows)
    by (apply run_ops_failed_spent; constructor).
  rewrite Forall_forall in Hb, Hf.
  split; [exact Hb|]. split; [|split].
  - intros j Hin Hs. specialize (Hb j Hin). specialize (Hf j Hin Hs).
    unfold bounded in Hb. lia.
  - intros op j' Hin Hs.
    destruct (apply_op_cases op rows Hnd)
      as [E | [(j & E & _ & Hq & _) | (pre & j & post & j'' & Hr & E & Hc)]];
      rewrite E in Hin.
    + left; exact Hin.
    + apply in_app_or in Hin as [Hin|[<-|[]]]; [left; exact Hin | congruence].
    + rewrite Hr. apply in_app_or in Hin as [Hin|[<-|Hin]].
      * left. apply in_or_app. left; exact Hin.
      * right. exact (RowChange_to_failed _ _ _ Hc Hs).
      * left. apply in_or_app. right; right; exact Hin.
  - intros j ops' j' Hin Hs Hin' Hid.
    assert (Hsp : spent j').
    { apply (run_ops_spent ops' rows (id j) Hnd); [ | | exact Hin' | exact Hid].
      - exists j. auto.
      - intros x Hx Hxi.
        rewrite (NoDup_same_id rows x j Hnd Hx Hin Hxi).
        split; [exact (Hf j Hin Hs) | congruence]. }
    exact (proj2 Hsp).
Qed.

Lemma attempts_bounded_failed_final_witness :
  Forall enqueue_nonneg retry_once_ops /\
  map status (run_ops retry_once_ops []) = [FAILED] /\
  let rows := run_ops retry_once_ops [] in
  (forall j, In j rows -> attempts j <= maxAttempts j) /\
  (forall j, In j rows -> status j = FAILED -> attempts j = maxAttempts j) /\
  (forall op j', In j' (apply_op op rows) -> status j' = FAILED ->
     In j' rows \/ exists error now, op = OpFail (id j') error now) /\
  (forall j ops' j', In j rows -> status j = FAILED ->
     In j' (run_ops ops' rows) -> id j' = id j -> status j' <> QUEUED).
Proof.
  assert (H : Forall enqueue_nonneg retry_once_ops).
  { repeat constructor; unfold enqueue_nonneg; simpl; lia. }
  split; [exact H|]. split; [reflexivity|].
  exact (attempts_bounded_failed_final retry_once_ops H).
Defined.

(** C2 as stated fails: [enqueue] stores whatever [maxAttempts] it is given,
    and a new row has [attempts = 0]; with [maxAttempts = -1] the bound is
    broken at once, and [failJob] then makes the job FAILED with
    [attempts <> maxAttempts]. *)
Lemma negative_maxAttempts_breaks_bound :
  let ops := [OpEnqueue "job-5" FETCH_POSTS sample_data (Some (-1)) None 0] in
  (exists j, In j (run_ops ops []) /\ ~ attempts j <= maxAttempts j) /\
  (exists j, In j (run_ops (ops ++ [OpFail "job-5" "boom" 1]) []) /\
             status j = FAILED /\ attempts j <> maxAttempts j).
Proof.
  cbv zeta. split.
  - eexists. split; [left; reflexivity|]. simpl. lia.
  - eexists. split; [left; reflexivity|]. simpl. split; [reflexivity|lia].
Qed.

(** The bound of C2 needs the calls to run one after another: when two
    schedulers' [getNextJob] calls overlap, both increment [attempts], and
    a job that may be tried once ends up RUNNING with [attempts = 2]; the
    [failJob] that follows makes it FAILED with [attempts <> maxAttempts]. *)
Lemma overlapping_claims_exceed_maxAttempts :
  let s := run_schedule [(SchedA, 10); (SchedB, 10); (SchedA, 11); (SchedB, 12)]
                        (start [single_try_job]) in
  (exists j, In j (table s) /\ maxAttempts j = 1 /\ attempts j = 2) /\
  (exists rows' j,
     failJob 13 "job-10" "boom" (table s) = Ok rows'
     /\ In j rows' /\ status j = FAILED /\ attempts j <> maxAttempts j).
Proof.
  cbv zeta. split.
  - eexists. split; [left; reflexivity|]. split; reflexivity.
  - eexists. eexists. split; [reflexivity|].
    split; [left; reflexivity|]. split; [reflexivity|]. simpl. lia.
Qed.

(** *** The polling tick *)

Lemma getNextJob_marks_running tFind tStart rows job rows1 :
  NoDup (map id rows) ->
  getNextJob tFind tStart rows = Ok (Some job, rows1) ->
  findUnique (id job) rows1 = Some (markRunning tStart job).
Proof.
  unfold getNextJob. intros Hnd H.
  destruct (findFirst tFind rows) as [found|] eqn:F; [|discriminate].
  destruct (update (id found) (markRunning tStart) rows) as [r|] eqn:U;
    [|discriminate].
  inversion H; subst found r; clear H.
  apply findFirst_eligible in F as [Hin _].
  apply update_split in U as (pre & j & post & -> & -> & Hid & Hf).
  assert (job = j) as ->
    by exact (NoDup_update_row pre j post (fun x => x) job Hnd eq_refl Hin
                (eq_sym Hid)).
  clear Hin Hid. unfold findUnique in *.
  induction pre as [|x pre IH]; simpl in *.
  - rewrite String.eqb_refl. reflexivity.
  - destruct (String.eqb (id x) (id j)) eqn:E.
    + exfalso. apply String.eqb_eq in E.
      inversion Hnd as [|? ? Hnot _]; subst. apply Hnot. rewrite E.
      rewrite map_app. apply in_or_app. right. left. reflexivity.
    + apply IH; [inversion Hnd; assumption | exact Hf].
Qed.

Section Tick.

Variable fetchPostsForPage :
  option string -> option (string * string) -> option string ->
  Store -> HandlerOutcome * Store.
Variable fetchCommentsForPost :
  option string -> option string -> Store -> HandlerOutcome * Store.
Variable analyzeSentiment : option string -> Store -> HandlerOutcome * Store.
Variable refreshExpiredTokens : Store -> HandlerOutcome * Store.
Variable cleanupUserData : option string -> Store -> HandlerOutcome * Store.

Let tick := processNextJob fetchPostsForPage fetchCommentsForPost
              analyzeSentiment refreshExpiredTokens cleanupUserData.
Let route := dispatch fetchPostsForPage fetchCommentsForPost
               analyzeSentiment refreshExpiredTokens cleanupUserData.

(** C4 at a job whose kind is none of the five: the [default] branch
    throws an error that carries no [jobId], the [catch] block therefore
    calls neither [failJob] nor [completeJob], and the job stays RUNNING
    with the attempt counted. *)
Theorem unknown_kind_left_running (tFind tStart tEnd : Z) (rows rows1 : Store)
    (job : Job) (name : string) :
  NoDup (map id rows) ->
  getNextJob tFind tStart rows = Ok (Some job, rows1) ->
  type job = OTHER_TYPE name ->
  processNextJob fetchPostsForPage fetchCommentsForPost analyzeSentiment
    refreshExpiredTokens cleanupUserData tFind tStart tEnd rows
  = (NoTransition (id job), rows1)
  /\ findUnique (id job) rows1 = Some (markRunning tStart job).
Proof.
  intros Hnd Hget Hty. split.
  - unfold processNextJob. rewrite Hget. unfold dispatch. rewrite Hty.
    reflexivity.
  - exact (getNextJob_marks_running _ _ _ _ _ Hnd Hget).
Qed.

(** For the five known kinds the wrapper either returns or throws an error
    that carries the job's id. *)
Lemma dispatch_known_kind (job : Job) (rows : Store) :
  (forall name, type job <> OTHER_TYPE name) ->
  (exists rows', route job rows = (None, rows'))
  \/ (exists m rows', route job rows
                      = (Some (mkJsError m (Some (id job))), rows')).
Proof.
  intros Hty. unfold route, dispatch.
  destruct (type job) eqn:T; try (exfalso; eapply Hty; reflexivity);
    unfold processFetchPostsJob, processFetchCommentsJob,
      processAnalyzeSentimentJob, processRefreshTokensJob,
      processCleanupDataJob, wrapped;
    match goal with
    | |- context [match ?w with _ => _ end] => destruct w as [[|m] rows']
    end; eauto.
Qed.

(** For the five known kinds the tick does end in exactly one store call:
    [completeJob] when the wrapper returns, [failJob] with the job's id and
    the wrapper's message when it throws. *)
Lemma known_kind_completes_or_fails (tFind tStart tEnd : Z)
    (rows rows1 : Store) (job : Job) :
  getNextJob tFind tStart rows = Ok (Some job, rows1) ->
  (forall name, type job <> OTHER_TYPE name) ->
  fst (tick tFind tStart tEnd rows) = CalledComplete (id job)
  \/ exists m, fst (tick tFind tStart tEnd rows) = CalledFail (id job) m.
Proof.
  intros Hget Hty. unfold tick, processNextJob. rewrite Hget.
  destruct (dispatch_known_kind job rows1 Hty)
    as [(rows' & E) | (m & rows' & E)]; unfold route in E; rewrite E.
  - left. destruct (completeJob tEnd (id job) rows'); reflexivity.
  - right. exists m. unfold on_error; simpl.
    destruct (failJob tEnd (id job) m rows'); reflexivity.
Qed.

End Tick.

Lemma unknown_kind_left_running_witness :
  processNextJob (fun _ _ _ rows => (Returns, rows))
    (fun _ _ rows => (Returns, rows)) (fun _ rows => (Returns, rows))
    (fun rows => (Returns, rows)) (fun _ rows => (Returns, rows))
    10 11 12 [odd_job]
  = (NoTransition "job-6", [markRunning 11 odd_job])
  /\ findUnique "job-6" [markRunning 11 odd_job] = Some (markRunning 11 odd_job).
Proof.
  apply (unknown_kind_left_running (fun _ _ _ rows => (Returns, rows))
           (fun _ _ rows => (Returns, rows)) (fun _ rows => (Returns, rows))
           (fun rows => (Returns, rows)) (fun _ rows => (Returns, rows))
           10 11 12 [odd_job] [markRunning 11 odd_job] odd_job "EXPORT_DATA").
  - simpl. constructor; [intros []|constructor].
  - reflexivity.
  - reflexivity.
Defined.

(** *** Further properties of the store operations *)

(** Rewriting the row with key [i]: it is found again rewritten, and
    every other key finds what it found before. *)
Lemma update_lookup i f rows j :
  findUnique i rows = Some j ->
  id (f j) = id j ->
  exists rows',
    update i f rows = Some rows'
    /\ findUnique i rows' = Some (f j)
    /\ forall k, k <> i -> findUnique k rows' = findUnique k rows.
Proof.
  unfold findUnique. intros H Hf.
  induction rows as [|x rest IH]; simpl in *; [discriminate|].
  destruct (String.eqb (id x) i) eqn:E.
  - inversion H; subst x. eexists. split; [reflexivity|]. simpl.
    rewrite Hf, E. split; [reflexivity|].
    intros k Hk. apply String.eqb_eq in E.
    assert (String.eqb (id j) k = false) as Ek
      by (apply String.eqb_neq; congruence).
    rewrite Ek. reflexivity.
  - destruct (IH H) as (rows' & -> & Hfound & Hother).
    eexists. split; [reflexivity|]. simpl. rewrite E.
    split; [exact Hfound|].
    intros k Hk. destruct (String.eqb (id x) k); [reflexivity|].
    apply Hother. exact Hk.
Qed.

Lemma update_none i f rows :
  findUnique i rows = None -> update i f rows = None.
Proof.
  unfold findUnique. induction rows as [|x rest IH]; simpl; [reflexivity|].
  destruct (String.eqb (id x) i); [discriminate|].
  intros H. rewrite (IH H). reflexivity.
Qed.

Lemma findUnique_app_new i rows (j : Job) :
  findUnique i rows = None ->
  findUnique i (rows ++ [j]) = if String.eqb (id j) i then Some j else None.
Proof.
  unfold findUnique. induction rows as [|x rest IH]; simpl.
  - intros _. destruct (String.eqb (id j) i); reflexivity.
  - destruct (String.eqb (id x) i); [discriminate | exact IH].
Qed.

Lemma findUnique_app_old i rows (j x : Job) :
  findUnique i rows = Some x -> findUnique i (rows ++ [j]) = Some x.
Proof.
  unfold findUnique. induction rows as [|y rest IH]; simpl; [discriminate|].
  destruct (String.eqb (id y) i); [auto | exact IH].
Qed.

(** X1: [enqueue] with a key the table does not hold yet and a
    [maxAttempts] (3 by default) that the [Int] column can hold returns that
    key; the job is then found under it as QUEUED with no attempt made, the
    given [maxAttempts] and [scheduledAt] (the clock reading by default) and
    nothing else set; every other key finds what it found before. *)
Theorem enqueue_then_lookup (newId : string) (ty : JobType) (p : JobData)
    (maxAtt sched : option Z) (now : Z) (rows : Store) :
  findUnique newId rows = None ->
  fits_int (match maxAtt with Some m => m | None => 3 end) = true ->
  exists rows',
    enqueue newId ty p maxAtt sched now rows = Ok (newId, rows')
    /\ findUnique newId rows'
       = Some (mkJob newId ty p QUEUED 0
                     (match maxAtt with Some m => m | None => 3 end)
                     (match sched with Some t => t | None => now end)
                     None None None)
    /\ forall k, k <> newId -> findUnique k rows' = findUnique k rows.
Proof.
  intros H Hfit. unfold enqueue, create. rewrite Hfit, H. cbn [negb].
  eexists. split; [reflexivity|]. split.
  - rewrite (findUnique_app_new _ _ _ H). simpl.
    rewrite String.eqb_refl. reflexivity.
  - intros k Hk. destruct (findUnique k rows) as [x|] eqn:F.
    + apply findUnique_app_old. exact F.
    + rewrite (findUnique_app_new _ _ _ F). simpl.
      destruct (String.eqb newId k) eqn:E; [|reflexivity].
      apply String.eqb_eq in E. congruence.
Qed.

Lemma enqueue_then_lookup_witness :
  findUnique "job-9" [queued_job] = None /\
  fits_int 5 = true /\
  exists rows',
    enqueue "job-9" FETCH_POSTS sample_data (Some 5) None 42 [queued_job]
      = Ok ("job-9", rows')
    /\ findUnique "job-9" rows'
       = Some (mkJob "job-9" FETCH_POSTS sample_data QUEUED 0 5 42
                     None None None)
    /\ forall k, k <> "job-9" -> findUnique k rows' = findUnique k [queued_job].
Proof.
  assert (H : fits_int 5 = true) by reflexivity.
  split; [reflexivity|]. split; [exact H|].
  exact (enqueue_then_lookup "job-9" FETCH_POSTS sample_data (Some 5) None 42
           [queued_job] eq_refl H).
Defined.

Lemma earliest_least l j :
  earliest l = Some j -> forall x, In x l -> scheduledAt j <= scheduledAt x.
Proof.
  revert j. induction l as [|y rest IH]; simpl; intros j H x Hin; [tauto|].
  destruct (earliest rest) as [b|] eqn:E.
  - specialize (IH b eq_refl).
    destruct (scheduledAt b <? scheduledAt y) eqn:C; inversion H; subst j.
    + apply Z.ltb_lt in C. destruct Hin as [<-|Hin]; [lia | auto].
    + apply Z.ltb_ge in C. destruct Hin as [<-|Hin]; [lia|].
      specialize (IH x Hin). lia.
  - inversion H; subst j. destruct Hin as [<-|Hin]; [lia|].
    destruct rest; [destruct Hin | simpl in E].
    destruct (earliest rest); [destruct (_ <? _)|]; discriminate.
Qed.

Lemma earliest_none l : earliest l = None -> l = [].
Proof.
  destruct l as [|y rest]; simpl; [reflexivity|].
  destruct (earliest rest); [destruct (_ <? _)|]; discriminate.
Qed.

(** X2: a job handed out by [getNextJob] is a row of the table that was
    QUEUED, due ([scheduledAt] not after the clock reading) and below its
    [maxAttempts], and no other such row was scheduled earlier. *)
Theorem getNextJob_earliest_eligible (tFind tStart : Z) (rows rows' : Store)
    (job : Job) :
  getNextJob tFind tStart rows = Ok (Some job, rows') ->
  In job rows
  /\ status job = QUEUED /\ scheduledAt job <= tFind
  /\ attempts job < maxAttempts job
  /\ forall other, In other rows -> eligible tFind other = true ->
       scheduledAt job <= scheduledAt other.
Proof.
  unfold getNextJob. intros H.
  destruct (findFirst tFind rows) as [found|] eqn:F; [|discriminate].
  destruct (update (id found) (markRunning tStart) rows); [|discriminate].
  inversion H; subst found.
  pose proof (findFirst_eligible _ _ _ F) as [Hin Hel].
  pose proof (eligible_queued _ _ Hel) as [Hq Hlt].
  split; [exact Hin|]. split; [exact Hq|]. split.
  - unfold eligible in Hel. apply andb_prop in Hel as [Hel _].
    apply andb_prop in Hel as [_ Hdue]. apply Z.leb_le. exact Hdue.
  - split; [exact Hlt|]. intros other Ho Hoel.
    apply (earliest_least _ _ F). apply filter_In. auto.
Qed.

Lemma getNextJob_earliest_eligible_witness :
  In queued_job [late_job; queued_job]
  /\ status queued_job = QUEUED /\ scheduledAt queued_job <= 10
  /\ attempts queued_job < maxAttempts queued_job
  /\ forall other, In other [late_job; queued_job] ->
       eligible 10 other = true -> scheduledAt queued_job <= scheduledAt other.
Proof.
  exact (getNextJob_earliest_eligible 10 11 [late_job; queued_job]
           [late_job; markRunning 11 queued_job] queued_job eq_refl).
Defined.

(** X3: [getNextJob] never throws when it runs undisturbed; it returns no
    job exactly when no row is eligible, and then leaves the table as it
    is. *)
Theorem getNextJob_none_iff (tFind tStart : Z) (rows : Store) :
  (exists r rows', getNextJob tFind tStart rows = Ok (r, rows'))
  /\ ((forall j, In j rows -> eligible tFind j = false)
      <-> getNextJob tFind tStart rows = Ok (None, rows)).
Proof.
  unfold getNextJob.
  destruct (findFirst tFind rows) as [found|] eqn:F.
  - pose proof (findFirst_eligible _ _ _ F) as [Hin Hel].
    destruct (in_split _ _ Hin) as (pre & post & Hrows).
    assert (Hf : exists x, findUnique (id found) rows = Some x).
    { unfold findUnique.
      destruct (find (fun j => String.eqb (id j) (id found)) rows) eqn:E;
        [eauto|].
      pose proof (find_none _ _ E found Hin) as Hn.
      simpl in Hn. rewrite String.eqb_refl in Hn. discriminate. }
    destruct Hf as (x & Hx).
    destruct (update_lookup _ (markRunning tStart) _ _ Hx eq_refl)
      as (rows' & -> & _).
    split; [eauto|]. split.
    + intros Hnone. rewrite (Hnone found Hin) in Hel. discriminate.
    + discriminate.
  - split; [eauto|]. split; [reflexivity|].
    intros _ j Hin. unfold findFirst in F. apply earliest_none in F.
    destruct (eligible tFind j) eqn:E; [|reflexivity].
    assert (In j (filter (eligible tFind) rows)) as Hj
      by (apply filter_In; auto).
    rewrite F in Hj. destruct Hj.
Qed.

Lemma findFirst_findUnique t rows job :
  NoDup (map id rows) ->
  findFirst t rows = Some job -> findUnique (id job) rows = Some job.
Proof.
  intros Hnd F. apply findFirst_eligible in F as [Hin _].
  unfold findUnique.
  destruct (find (fun j => String.eqb (id j) (id job)) rows) as [x|] eqn:E.
  - apply find_some in E as [Hx Hid]. apply String.eqb_eq in Hid.
    rewrite (NoDup_same_id rows x job Hnd Hx Hin Hid). reflexivity.
  - pose proof (find_none _ _ E job Hin) as Hn.
    simpl in Hn. rewrite String.eqb_refl in Hn. discriminate.
Qed.

(** X4: on a table with unique keys a successful claim rewrites the claimed
    row alone: it is found RUNNING with one more attempt and [startedAt]
    stamped, its other columns as they were, and every other key finds the
    row it found before. *)
Theorem getNextJob_rewrites_claimed_row (tFind tStart : Z)
    (rows rows' : Store) (job : Job) :
  NoDup (map id rows) ->
  getNextJob tFind tStart rows = Ok (Some job, rows') ->
  findUnique (id job) rows'
    = Some (mkJob (id job) (type job) (payload job) RUNNING (attempts job + 1)
                  (maxAttempts job) (scheduledAt job) (Some tStart)
                  (completedAt job) (lastError job))
  /\ forall k, k <> id job -> findUnique k rows' = findUnique k rows.
Proof.
  intros Hnd H. unfold getNextJob in H.
  destruct (findFirst tFind rows) as [found|] eqn:F; [|discriminate].
  pose proof (findFirst_findUnique _ _ _ Hnd F) as Hf.
  destruct (update_lookup _ (markRunning tStart) _ _ Hf eq_refl)
    as (r & U & Hfound & Hother).
  rewrite U in H. inversion H; subst found r. split; [exact Hfound | exact Hother].
Qed.

Lemma getNextJob_rewrites_claimed_row_witness :
  NoDup (map id [late_job; queued_job]) /\
  findUnique "job-3" [late_job; markRunning 11 queued_job]
    = Some (mkJob "job-3" FETCH_POSTS sample_data RUNNING 1 3 5 (Some 11)
                  None None)
  /\ forall k, k <> "job-3" ->
       findUnique k [late_job; markRunning 11 queued_job]
       = findUnique k [late_job; queued_job].
Proof.
  assert (Hnd : NoDup (map id [late_job; queued_job])).
  { simpl. constructor; [intros [E|[]]; discriminate|].
    constructor; [intros []|constructor]. }
  split; [exact Hnd|].
  exact (getNextJob_rewrites_claimed_row 10 11 [late_job; queued_job]
           [late_job; markRunning 11 queued_job] queued_job Hnd eq_refl).
Defined.

Lemma RowChange_exhausted op j j' :
  RowChange op j j' -> exhausted j -> exhausted j'.
Proof.
  unfold exhausted. destruct 1 as [tf ts _ Hel | now _ | e now _]; simpl; auto.
  apply eligible_queued in Hel. lia.
Qed.

Lemma apply_op_exhausted op rows i :
  NoDup (map id rows) ->
  (exists x, In x rows /\ id x = i) ->
  (forall x, In x rows -> id x = i -> exhausted x) ->
  (exists x, In x (apply_op op rows) /\ id x = i) /\
  (forall x, In x (apply_op op rows) -> id x = i -> exhausted x).
Proof.
  intros Hnd (w & Hw & Hwi) Hall.
  destruct (apply_op_cases op rows Hnd)
    as [-> | [(j & -> & Hnone & _) | (pre & j & post & j' & -> & -> & Hc)]].
  - split; [exists w; auto | exact Hall].
  - split; [exists w; split; [apply in_or_app; left; exact Hw | exact Hwi]|].
    intros x Hx Hxi. apply in_app_or in Hx as [Hx|[<-|[]]]; [auto|].
    exfalso. apply (findUnique_none _ _ Hnone w Hw). congruence.
  - pose proof (RowChange_id _ _ _ Hc) as Hid.
    split.
    + apply in_app_or in Hw as [Hw|[<-|Hw]].
      * exists w. split; [apply in_or_app; left; exact Hw | exact Hwi].
      * exists j'. split; [apply in_or_app; right; left; reflexivity
                          | congruence].
      * exists w. split; [apply in_or_app; right; right; exact Hw | exact Hwi].
    + intros x Hx Hxi. apply in_app_or in Hx as [Hx|[<-|Hx]].
      * apply Hall; [apply in_or_app; left; exact Hx | exact Hxi].
      * apply (RowChange_exhausted _ _ _ Hc).
        apply Hall; [apply in_or_app; right; left; reflexivity | congruence].
      * apply Hall; [apply in_or_app; right; right; exact Hx | exact Hxi].
Qed.

Lemma run_ops_exhausted ops rows i :
  NoDup (map id rows) ->
  (exists x, In x rows /\ id x = i) ->
  (forall x, In x rows -> id x = i -> exhausted x) ->
  forall x, In x (run_ops ops rows) -> id x = i -> exhausted x.
Proof.
  revert rows. induction ops as [|op ops IH]; simpl; intros rows Hnd Hex Hall;
    [exact Hall|].
  destruct (apply_op_exhausted op rows i Hnd Hex Hall) as [Hex' Hall'].
  apply IH; [apply apply_op_NoDup; exact Hnd | exact Hex' | exact Hall'].
Qed.

(** X5: a job whose [attempts] has reached its [maxAttempts] is never
    handed out again: on a table with unique keys, after any further
    sequence of store calls, no [getNextJob] returns it. In particular a job
    enqueued with [maxAttempts] 0 or less is never run. *)
Theorem exhausted_job_never_claimed (rows : Store) (j : Job) (ops : list Op)
    (tFind tStart : Z) (job : Job) (rows' : Store) :
  NoDup (map id rows) ->
  In j rows ->
  maxAttempts j <= attempts j ->
  getNextJob tFind tStart (run_ops ops rows) = Ok (Some job, rows') ->
  id job <> id j.
Proof.
  intros Hnd Hin Hex Hget Hid.
  assert (Hjob : In job (run_ops ops rows)
                 /\ attempts job < maxAttempts job).
  { unfold getNextJob in Hget.
    destruct (findFirst tFind (run_ops ops rows)) as [found|] eqn:F;
      [|discriminate].
    destruct (update (id found) (markRunning tStart) (run_ops ops rows));
      [|discriminate].
    inversion Hget; subst found.
    apply findFirst_eligible in F as [Hin' Hel].
    apply eligible_queued in Hel as [_ Hlt]. auto. }
  destruct Hjob as [Hjob Hlt].
  assert (Hx : exhausted job).
  { apply (run_ops_exhausted ops rows (id j) Hnd); [ | | exact Hjob | exact Hid].
    - exists j. auto.
    - intros x Hx Hxi. rewrite (NoDup_same_id rows x j Hnd Hx Hin Hxi).
      exact Hex. }
  unfold exhausted in Hx. lia.
Qed.

Lemma exhausted_job_never_claimed_witness :
  NoDup (map id [zero_budget_job; queued_job]) /\
  In zero_budget_job [zero_budget_job; queued_job] /\
  maxAttempts zero_budget_job <= attempts zero_budget_job /\
  id queued_job <> id zero_budget_job.
Proof.
  assert (Hnd : NoDup (map id [zero_budget_job; queued_job])).
  { simpl. constructor; [intros [E|[]]; discriminate|].
    constructor; [intros []|constructor]. }
  split; [exact Hnd|]. split; [left; reflexivity|]. split; [simpl; lia|].
  exact (exhausted_job_never_claimed [zero_budget_job; queued_job]
           zero_budget_job [OpFail "job-3" "boom" 8] 20000 20001 _ _ Hnd
           (or_introl eq_refl) ltac:(simpl; lia) eq_refl).
Defined.

(** *** Statistics *)

Lemma count_status_cons s (j : Job) rows :
  count_status s (j :: rows)
  = (if status_eqb (status j) s then 1 else 0) + count_status s rows.
Proof.
  unfold count_status. cbn [filter].
  destruct (status_eqb (status j) s); cbn [List.length]; lia.
Qed.

Lemma count_status_app s rows1 rows2 :
  count_status s (rows1 ++ rows2) = count_status s rows1 + count_status s rows2.
Proof.
  unfold count_status. rewrite filter_app, length_app. lia.
Qed.

(** X6: the four counts of [getQueueStats] partition the table: they are
    non-negative and add up to the number of jobs. *)
Theorem getQueueStats_partition (rows : Store) :
  let s := getQueueStats rows in
  0 <= queued s /\ 0 <= running s /\ 0 <= completed s /\ 0 <= failed s
  /\ queued s + running s + completed s + failed s
     = Z.of_nat (List.length rows).
Proof.
  cbv zeta. unfold getQueueStats; cbn [queued running completed failed].
  repeat (split; [unfold count_status; lia|]).
  induction rows as [|j rest IH]; [reflexivity|].
  rewrite !count_status_cons. cbn [List.length]. rewrite Nat2Z.inj_succ.
  destruct (status j); cbn [status_eqb]; lia.
Qed.

(** X7: on a table with unique keys a successful claim moves exactly one
    job from the queued count to the running count and leaves the other two
    counts alone. *)
Theorem getNextJob_moves_queued_to_running (tFind tStart : Z)
    (rows rows' : Store) (job : Job) :
  NoDup (map id rows) ->
  getNextJob tFind tStart rows = Ok (Some job, rows') ->
  queued (getQueueStats rows') = queued (getQueueStats rows) - 1
  /\ running (getQueueStats rows') = running (getQueueStats rows) + 1
  /\ completed (getQueueStats rows') = completed (getQueueStats rows)
  /\ failed (getQueueStats rows') = failed (getQueueStats rows).
Proof.
  intros Hnd H. unfold getNextJob in H.
  destruct (findFirst tFind rows) as [found|] eqn:F; [|discriminate].
  pose proof (findFirst_findUnique _ _ _ Hnd F) as Hf.
  apply findFirst_eligible in F as [_ Hel].
  apply eligible_queued in Hel as [Hq _].
  destruct (findUnique_split _ _ _ Hf) as (pre & post & -> & _ & Hu).
  rewrite Hu in H. inversion H; subst found rows'.
  unfold getQueueStats; cbn [queued running completed failed].
  rewrite !count_status_app, !count_status_cons.
  cbn [status markRunning]. rewrite Hq. cbn [status_eqb].
  repeat split; lia.
Qed.

Lemma getNextJob_moves_queued_to_running_witness :
  NoDup (map id [late_job; queued_job]) /\
  queued (getQueueStats [late_job; markRunning 11 queued_job])
    = queued (getQueueStats [late_job; queued_job]) - 1
  /\ running (getQueueStats [late_job; markRunning 11 queued_job])
     = running (getQueueStats [late_job; queued_job]) + 1
  /\ completed (getQueueStats [late_job; markRunning 11 queued_job])
     = completed (getQueueStats [late_job; queued_job])
  /\ failed (getQueueStats [late_job; markRunning 11 queued_job])
     = failed (getQueueStats [late_job; queued_job]).
Proof.
  assert (Hnd : NoDup (map id [late_job; queued_job])).
  { simpl. constructor; [intros [E|[]]; discriminate|].
    constructor; [intros []|constructor]. }
  split; [exact Hnd|].
  exact (getNextJob_moves_queued_to_running 10 11 [late_job; queued_job]
           [late_job; markRunning 11 queued_job] queued_job Hnd eq_refl).
Defined.

(** *** Retention *)

Lemma filter_lengths {A} (f : A -> bool) (l : list A) :
  (List.length (filter f l) + List.length (filter (fun x => negb (f x)) l)
   = List.length l)%nat.
Proof.
  induction l as [|x rest IH]; simpl; [reflexivity|].
  destruct (f x); simpl; lia.
Qed.

(** X8: [cleanupOldJobs] deletes exactly the COMPLETED jobs whose
    [completedAt] is before the cutoff and returns how many they were; every
    job in another status (FAILED ones included) is kept, the kept rows keep
    their order, and a second sweep with the same cutoff deletes nothing. *)
Theorem cleanupOldJobs_sweeps_completed (daysBefore : Z -> Z -> Z)
    (olderThanDays : option Z) (now : Z) (rows : Store) :
  let cutoff :=
    daysBefore now (match olderThanDays with Some d => d | None => 7 end) in
  let result := cleanupOldJobs daysBefore olderThanDays now rows in
  fst result = Z.of_nat (List.length rows) - Z.of_nat (List.length (snd result))
  /\ (forall j, In j (snd result) <->
        In j rows /\ ~ (status j = COMPLETED
                        /\ exists t, completedAt j = Some t /\ t < cutoff))
  /\ (forall j, In j rows -> status j <> COMPLETED -> In j (snd result))
  /\ snd result = filter (fun j => negb (stale cutoff j)) rows
  /\ cleanupOldJobs daysBefore olderThanDays now (snd result)
     = (0, snd result).
Proof.
  cbv zeta. unfold cleanupOldJobs. cbn [fst snd].
  set (cutoff := daysBefore now _).
  assert (Hstale : forall j, stale cutoff j = true <->
            status j = COMPLETED
            /\ exists t, completedAt j = Some t /\ t < cutoff).
  { intros j. unfold stale. split.
    - intros H. apply andb_prop in H as [Hs Ht].
      apply status_eqb_eq in Hs. split; [exact Hs|].
      destruct (completedAt j) as [t|]; [|discriminate].
      exists t. split; [reflexivity | apply Z.ltb_lt; exact Ht].
    - intros [Hs (t & Ht & Hlt)]. rewrite Hs, Ht. simpl.
      apply Z.ltb_lt. exact Hlt. }
  split; [|split; [|split; [|split]]].
  - pose proof (filter_lengths (stale cutoff) rows). lia.
  - intros j. rewrite filter_In, <- Hstale.
    destruct (stale cutoff j); simpl; split; intros [H1 H2];
      (split; [exact H1|]); try discriminate; try reflexivity;
      try (intros E; discriminate); exfalso; apply H2; reflexivity.
  - intros j Hin Hs. apply filter_In. split; [exact Hin|].
    destruct (stale cutoff j) eqn:E; [|reflexivity].
    apply Hstale in E as [E _]. contradiction.
  - reflexivity.
  - assert (E1 : filter (stale cutoff)
                     (filter (fun j => negb (stale cutoff j)) rows) = []).
    { induction rows as [|x rest IH]; simpl; [reflexivity|].
      destruct (stale cutoff x) eqn:Ex; simpl; [exact IH|].
      rewrite Ex. exact IH. }
    assert (E2 : filter (fun j => negb (stale cutoff j))
                     (filter (fun j => negb (stale cutoff j)) rows)
                 = filter (fun j => negb (stale cutoff j)) rows).
    { clear E1. induction rows as [|x rest IH]; simpl; [reflexivity|].
      destruct (stale cutoff x) eqn:Ex; simpl; [exact IH|].
      rewrite Ex. simpl. f_equal. exact IH. }
    rewrite E1, E2. reflexivity.
Qed.

(** X9: an unknown job id: [completeJob] throws and [failJob] returns
    without a word, and neither changes the table. *)
Theorem unknown_id_complete_throws_fail_ignores (now : Z)
    (jobId error : string) (rows : Store) :
  findUnique jobId rows = None ->
  (exists m, completeJob now jobId rows = Throw m)
  /\ failJob now jobId error rows = Ok rows
  /\ apply_op (OpComplete jobId now) rows = rows
  /\ apply_op (OpFail jobId error now) rows = rows.
Proof.
  intros H. unfold apply_op, completeJob, failJob.
  rewrite (update_none _ _ _ H), H. eauto.
Qed.

Lemma unknown_id_complete_throws_fail_ignores_witness :
  findUnique "nope" [queued_job] = None /\
  (exists m, completeJob 9 "nope" [queued_job] = Throw m)
  /\ failJob 9 "nope" "boom" [queued_job] = Ok [queued_job]
  /\ apply_op (OpComplete "nope" 9) [queued_job] = [queued_job]
  /\ apply_op (OpFail "nope" "boom" 9) [queued_job] = [queued_job].
Proof.
  split; [reflexivity|].
  exact (unknown_id_complete_throws_fail_ignores 9 "nope" "boom" [queued_job]
           eq_refl).
Defined.

(** *** Backoff *)

(** X10: for every attempt count from 0 on, the retry delay of the queue
    is between one second and five minutes, never decreases with the count,
    doubles from 1000 ms through the first eight retries and stays at
    300000 ms from the ninth on. *)
Theorem calculateBackoffDelay_bounds (a b : Z) :
  0 <= a -> a <= b ->
  1000 <= calculateBackoffDelay a <= 300000
  /\ calculateBackoffDelay a <= calculateBackoffDelay b
  /\ (a <= 8 -> calculateBackoffDelay a = 1000 * 2 ^ a)
  /\ (9 <= a -> calculateBackoffDelay a = 300000).
Proof.
  intros Ha Hab. unfold calculateBackoffDelay, baseDelay, maxDelay.
  assert (Hpos : 1 <= 2 ^ a)
    by (pose proof (Z.pow_pos_nonneg 2 a ltac:(lia) Ha); lia).
  assert (Hmono : 2 ^ a <= 2 ^ b) by (apply Z.pow_le_mono_r; lia).
  split; [lia|]. split; [lia|]. split.
  - intros H8. assert (2 ^ a <= 2 ^ 8) by (apply Z.pow_le_mono_r; lia).
    change (2 ^ 8) with 256 in *. lia.
  - intros H9. assert (2 ^ 9 <= 2 ^ a) by (apply Z.pow_le_mono_r; lia).
    change (2 ^ 9) with 512 in *. lia.
Qed.

Lemma calculateBackoffDelay_bounds_witness :
  0 <= 3 /\ 3 <= 12 /\
  1000 <= calculateBackoffDelay 3 <= 300000
  /\ calculateBackoffDelay 3 <= calculateBackoffDelay 12
  /\ (3 <= 8 -> calculateBackoffDelay 3 = 1000 * 2 ^ 3)
  /\ (9 <= 3 -> calculateBackoffDelay 3 = 300000).
Proof.
  split; [lia|]. split; [lia|].
  exact (calculateBackoffDelay_bounds 3 12 ltac:(lia) ltac:(lia)).
Defined.

(** *** Whole ticks *)

Section WholeTick.

Variable fetchPostsForPage :
  option string -> option (string * string) -> option string ->
  Store -> HandlerOutcome * Store.
Variable fetchCommentsForPost :
  option string -> option string -> Store -> HandlerOutcome * Store.
Variable analyzeSentiment : option string -> Store -> HandlerOutcome * Store.
Variable refreshExpiredTokens : Store -> HandlerOutcome * Store.
Variable cleanupUserData : option string -> Store -> HandlerOutcome * Store.

(** X11: a tick whose wrapper throws, the job's own row being as the claim
    left it: [failJob] is called with the wrapper's message, and it reads
    the attempt count the claim has already incremented. The job ends QUEUED
    again, due [calculateBackoffDelay(attempts + 1)] after the failure, when
    [attempts + 1] is still below [maxAttempts], and FAILED otherwise; the
    attempt stays counted, [lastError] is the message and [startedAt] is
    cleared. No other job changes. *)
Theorem failed_tick_counts_the_attempt (tFind tStart tEnd : Z)
    (rows rows1 rows2 : Store) (job : Job) (e : JsError) :
  getNextJob tFind tStart rows = Ok (Some job, rows1) ->
  (forall name, type job <> OTHER_TYPE name) ->
  dispatch fetchPostsForPage fetchCommentsForPost analyzeSentiment
    refreshExpiredTokens cleanupUserData job rows1 = (Some e, rows2) ->
  findUnique (id job) rows2 = Some (markRunning tStart job) ->
  exists rows3,
    processNextJob fetchPostsForPage fetchCommentsForPost analyzeSentiment
      refreshExpiredTokens cleanupUserData tFind tStart tEnd rows
    = (CalledFail (id job) (message e), rows3)
    /\ findUnique (id job) rows3
       = Some (mkJob (id job) (type job) (payload job)
                 (if attempts job + 1 <? maxAttempts job then QUEUED else FAILED)
                 (attempts job + 1) (maxAttempts job)
                 (if attempts job + 1 <? maxAttempts job
                  then tEnd + calculateBackoffDelay (attempts job + 1)
                  else scheduledAt job)
                 None (completedAt job) (Some (message e)))
    /\ forall k, k <> id job -> findUnique k rows3 = findUnique k rows2.
Proof.
  intros Hget Hty Hd Hrow.
  assert (Hjid : jobId e = Some (id job)).
  { destruct (dispatch_known_kind fetchPostsForPage fetchCommentsForPost
                analyzeSentiment refreshExpiredTokens cleanupUserData
                job rows1 Hty) as [(r & E) | (m & r & E)];
      rewrite E in Hd; inversion Hd; reflexivity. }
  destruct (update_lookup (id job) (markFailed tEnd (message e)) rows2 _
              Hrow eq_refl) as (rows3 & U & Hfound & Hother).
  exists rows3. unfold processNextJob. rewrite Hget, Hd.
  unfold on_error. rewrite Hjid. unfold failJob. rewrite Hrow, U.
  split; [reflexivity|]. split; [exact Hfound | exact Hother].
Qed.

(** X12: a tick whose wrapper returns, the job's own row being as the claim
    left it: the job ends COMPLETED with [completedAt] stamped, the attempt
    counted and [startedAt] kept; no other job changes. *)
Theorem successful_tick_completes_the_job (tFind tStart tEnd : Z)
    (rows rows1 rows2 : Store) (job : Job) :
  getNextJob tFind tStart rows = Ok (Some job, rows1) ->
  dispatch fetchPostsForPage fetchCommentsForPost analyzeSentiment
    refreshExpiredTokens cleanupUserData job rows1 = (None, rows2) ->
  findUnique (id job) rows2 = Some (markRunning tStart job) ->
  exists rows3,
    processNextJob fetchPostsForPage fetchCommentsForPost analyzeSentiment
      refreshExpiredTokens cleanupUserData tFind tStart tEnd rows
    = (CalledComplete (id job), rows3)
    /\ findUnique (id job) rows3
       = Some (mkJob (id job) (type job) (payload job) COMPLETED
                 (attempts job + 1) (maxAttempts job) (scheduledAt job)
                 (Some tStart) (Some tEnd) (lastError job))
    /\ forall k, k <> id job -> findUnique k rows3 = findUnique k rows2.
Proof.
  intros Hget Hd Hrow.
  destruct (update_lookup (id job) (markCompleted tEnd) rows2 _
              Hrow eq_refl) as (rows3 & U & Hfound & Hother).
  exists rows3. unfold processNextJob. rewrite Hget, Hd.
  unfold completeJob. rewrite U.
  split; [reflexivity|]. split; [exact Hfound | exact Hother].
Qed.

End WholeTick.

Lemma failed_tick_counts_the_attempt_witness :
  exists rows3,
    processNextJob (fun _ _ _ rows => (Throws "token expired", rows))
      (fun _ _ rows => (Returns, rows)) (fun _ rows => (Returns, rows))
      (fun rows => (Returns, rows)) (fun _ rows => (Returns, rows))
      10 11 12 [queued_job]
    = (CalledFail "job-3" "Failed to fetch posts: token expired", rows3)
    /\ findUnique "job-3" rows3
       = Some (mkJob "job-3" FETCH_POSTS sample_data QUEUED 1 3 (12 + 2000)
                 None None (Some "Failed to fetch posts: token expired"))
    /\ forall k, k <> "job-3" ->
         findUnique k rows3 = findUnique k [markRunning 11 queued_job].
Proof.
  exact (failed_tick_counts_the_attempt
           (fun _ _ _ rows => (Throws "token expired", rows))
           (fun _ _ rows => (Returns, rows)) (fun _ rows => (Returns, rows))
           (fun rows => (Returns, rows)) (fun _ rows => (Returns, rows))
           10 11 12 [queued_job] [markRunning 11 queued_job]
           [markRunning 11 queued_job] queued_job
           (mkJsError "Failed to fetch posts: token expired" (Some "job-3"))
           eq_refl ltac:(discriminate) eq_refl eq_refl).
Defined.

Lemma successful_tick_completes_the_job_witness :
  exists rows3,
    processNextJob (fun _ _ _ rows => (Returns, rows))
      (fun _ _ rows => (Returns, rows)) (fun _ rows => (Returns, rows))
      (fun rows => (Returns, rows)) (fun _ rows => (Returns, rows))
      10 11 12 [queued_job]
    = (CalledComplete "job-3", rows3)
    /\ findUnique "job-3" rows3
       = Some (mkJob "job-3" FETCH_POSTS sample_data COMPLETED 1 3 5
                 (Some 11) (Some 12) None)
    /\ forall k, k <> "job-3" ->
         findUnique k rows3 = findUnique k [markRunning 11 queued_job].
Proof.
  exact (successful_tick_completes_the_job
           (fun _ _ _ rows => (Returns, rows))
           (fun _ _ rows => (Returns, rows)) (fun _ rows => (Returns, rows))
           (fun rows => (Returns, rows)) (fun _ rows => (Returns, rows))
           10 11 12 [queued_job] [markRunning 11 queued_job]
           [markRunning 11 queued_job] queued_job eq_refl eq_refl eq_refl).
Defined.

(** *** Starting and stopping *)

Lemma flip_one_timer c st : one_timer st -> one_timer (flip c st).
Proof.
  destruct st as [[proc [h|]] [next timers]]; unfold one_timer; simpl;
    intros H; destruct c as [ms|]; simpl.
  - destruct H as [-> H]. simpl. auto.
  - destruct H as [_ (ms & ->)]. simpl. rewrite Nat.eqb_refl. simpl. auto.
  - destruct H as [-> ->]. simpl. eauto.
  - destruct H as [_ ->]. auto.
Qed.

(** X13: whatever sequence of [startProcessing] and [stopProcessing] calls
    a new queue object receives, it never holds more than one polling timer:
    while [isProcessing] is set exactly one timer of its own is alive, the
    one recorded in [processingInterval], and otherwise none is. From there,
    a start while stopped sets up one timer with the period asked for (5000
    ms by default); a second start changes nothing, whatever period it asks
    for; and a stop, after a start or at any other moment, leaves no timer
    alive and both fields cleared. *)
Theorem start_stop_keep_one_timer (cs : list Switch) (next : nat) :
  let st := switches cs (fresh_processor next) in
  ((isProcessing (fst st) = true /\
    exists h ms, processingInterval (fst st) = Some h
                 /\ live (snd st) = [(h, ms)])
   \/ (isProcessing (fst st) = false /\ processingInterval (fst st) = None
       /\ live (snd st) = []))
  /\ (forall ms,
        isProcessing (fst st) = false ->
        startProcessing ms st
        = (mkProcessor true (Some (nextHandle (snd st))),
           mkTimers (S (nextHandle (snd st)))
                    [(nextHandle (snd st),
                      match ms with Some m => m | None => 5000 end)]))
  /\ (forall ms ms',
        startProcessing ms' (startProcessing ms st) = startProcessing ms st)
  /\ (forall ms,
        stopProcessing (startProcessing ms st)
        = (mkProcessor false None,
           mkTimers (nextHandle (snd (startProcessing ms st))) []))
  /\ stopProcessing st
     = (mkProcessor false None, mkTimers (nextHandle (snd st)) []).
Proof.
  cbv zeta.
  assert (G : forall l st0, one_timer st0 ->
                one_timer (fold_left (fun s c => flip c s) l st0)).
  { induction l as [|c l IH]; intros st0 Hst; simpl; [exact Hst|].
    apply IH. apply flip_one_timer. exact Hst. }
  assert (H : one_timer (switches cs (fresh_processor next))).
  { apply G. unfold one_timer, fresh_processor. simpl. auto. }
  assert (Hstop : forall st0, one_timer st0 ->
            stopProcessing st0
            = (mkProcessor false None, mkTimers (nextHandle (snd st0)) [])).
  { intros [[proc [h|]] [nh timers]]; unfold one_timer; simpl.
    - intros [_ (ms & ->)]. simpl. rewrite Nat.eqb_refl. reflexivity.
    - intros [_ ->]. reflexivity. }
  split; [|split; [|split; [|split]]].
  - unfold one_timer in H.
    destruct (processingInterval (fst (switches cs (fresh_processor next))))
      as [h|].
    + left. destruct H as [H (ms & Hl)]. eauto.
    + right. destruct H as [H Hl]. auto.
  - intros ms Hoff.
    destruct (switches cs (fresh_processor next)) as [[proc pi] [nh timers]].
    unfold one_timer in H. simpl in *. subst proc.
    destruct pi as [h|]; [destruct H; discriminate|].
    destruct H as [_ ->]. reflexivity.
  - intros ms ms'.
    destruct (switches cs (fresh_processor next)) as [[[|] pi] [nh timers]];
      reflexivity.
  - intros ms. apply Hstop.
    change (startProcessing ms (switches cs (fresh_processor next)))
      with (flip (Start ms) (switches cs (fresh_processor next))).
    apply flip_one_timer. exact H.
  - apply Hstop. exact H.
Qed.

End QueueFacts.

(* ===================================================================== *)
(** ** Properties of the Graph API client *)
(* ===================================================================== *)
Module MetaFacts.
Import Meta.

Section Retry.

Context {T Net : Type}.
Variable fetch : Request -> Net -> FetchOutcome T * Net.

Lemma attempts_loop_caught (req : Request) (o : FetchOutcome T) (m : string)
    (maxRetries : Z) :
  (forall n, fst (fetch req n) = o) ->
  caught_message o = Some m ->
  forall (left : nat) (attempt : Z) (net : Net),
    attempt + Z.of_nat (S left) = maxRetries ->
    exists ev net',
      attempts_loop fetch (S left) attempt maxRetries req net
        = (Throw m, ev, net')
      /\ fetches ev = S left
      /\ sleeps ev = delays attempt left.
Proof.
  intros Hfetch Hmsg. induction left as [|left IH]; intros attempt net Hsum.
  - simpl. specialize (Hfetch net).
    destruct (fetch req net) as [o' net1]; simpl in Hfetch; subst o'.
    assert (E : (attempt =? maxRetries - 1) = true) by (apply Z.eqb_eq; lia).
    unfold caught_message in Hmsg.
    destruct o as [m0|resp].
    + rewrite E. inversion Hmsg; subst. eauto.
    + destruct (status resp =? 429); [discriminate|].
      destruct (body resp) as [b|].
      * destruct (ok resp); [discriminate|]. simpl. rewrite E.
        inversion Hmsg; subst. eauto.
      * injection Hmsg as <-.
        destruct (ok resp); simpl; rewrite E; eauto.
  - assert (E : (attempt =? maxRetries - 1) = false) by (apply Z.eqb_neq; lia).
    destruct (IH (attempt + 1) (snd (fetch req net)) ltac:(lia))
      as (ev & net' & Hloop & Hf & Hs).
    remember (S left) as k.
    cbn [attempts_loop]. specialize (Hfetch net).
    destruct (fetch req net) as [o' net1]; simpl in Hfetch, Hloop; subst o'.
    rewrite Hloop.
    exists (Fetch req :: Sleep (retryDelay attempt) :: ev), net'.
    assert (Hev : fetches (Fetch req :: Sleep (retryDelay attempt) :: ev) = S k
                  /\ sleeps (Fetch req :: Sleep (retryDelay attempt) :: ev)
                     = delays attempt k).
    { unfold fetches, sleeps in *. simpl. rewrite Hf, Hs. subst k.
      split; reflexivity. }
    unfold caught_message in Hmsg.
    destruct o as [m0|resp].
    + rewrite E. tauto.
    + destruct (status resp =? 429); [discriminate|].
      destruct (body resp) as [b|].
      * destruct (ok resp); [discriminate|]. simpl. rewrite E. tauto.
      * destruct (ok resp); simpl; rewrite E; tauto.
Qed.

Lemma attempts_loop_throttled (req : Request) (resp : HttpResponse T)
    (maxRetries : Z) :
  (forall n, fst (fetch req n) = Responded resp) ->
  status resp = 429 ->
  forall (left : nat) (attempt : Z) (net : Net),
    exists ev net',
      attempts_loop fetch left attempt maxRetries req net
        = (Throw max_retries_exceeded, ev, net')
      /\ fetches ev = left
      /\ sleeps ev = delays attempt left.
Proof.
  intros Hfetch H429. induction left as [|left IH]; intros attempt net.
  - simpl. eauto.
  - destruct (IH (attempt + 1) (snd (fetch req net)))
      as (ev & net' & Hloop & Hf & Hs).
    cbn [attempts_loop]. specialize (Hfetch net).
    destruct (fetch req net) as [o' net1]; simpl in Hfetch, Hloop; subst o'.
    rewrite H429. simpl. rewrite Hloop.
    exists (Fetch req :: Sleep (retryDelay attempt) :: ev), net'.
    unfold fetches, sleeps in *. simpl. rewrite Hf, Hs. auto.
Qed.

(** An attempt that fails and is not the last: the request goes out, the
    client pauses, and the loop goes on. *)
Lemma attempt_failed_goes_on (req : Request) (left : nat)
    (attempt maxRetries : Z) (net : Net) :
  success_value (fst (fetch req net)) = None ->
  attempt <> maxRetries - 1 ->
  attempts_loop fetch (S left) attempt maxRetries req net
  = let '(r, ev, net2) :=
      attempts_loop fetch left (attempt + 1) maxRetries req
        (snd (fetch req net)) in
    (r, Fetch req :: Sleep (retryDelay attempt) :: ev, net2).
Proof.
  intros Hs Hlast. cbn [attempts_loop].
  assert (E : (attempt =? maxRetries - 1) = false) by (apply Z.eqb_neq; lia).
  destruct (fetch req net) as [o net1]. cbn [fst snd] in *.
  destruct (attempts_loop fetch left (attempt + 1) maxRetries req net1)
    as [[r ev] net2].
  destruct o as [m|resp]; simpl in Hs.
  - rewrite E. reflexivity.
  - destruct (status resp =? 429); [reflexivity|].
    destruct (ok resp); simpl.
    + destruct (body resp); [discriminate|]. rewrite E. reflexivity.
    + destruct (body resp); rewrite E; reflexivity.
Qed.

(** The last attempt, when it fails: a caught error is thrown on, a 429 is
    followed by one more pause and the error of the loop's end. *)
Lemma last_attempt_failed (req : Request) (attempt maxRetries : Z) (net : Net) :
  success_value (fst (fetch req net)) = None ->
  attempt = maxRetries - 1 ->
  exists ev,
    attempts_loop fetch 1 attempt maxRetries req net
    = (Throw (match caught_message (fst (fetch req net)) with
              | Some m => m
              | None => max_retries_exceeded
              end), ev, snd (fetch req net))
    /\ fetches ev = 1%nat
    /\ sleeps ev = delays attempt
                     (if throttled (fst (fetch req net)) then 1 else 0).
Proof.
  intros Hs Hlast. cbn [attempts_loop].
  assert (E : (attempt =? maxRetries - 1) = true) by (apply Z.eqb_eq; lia).
  destruct (fetch req net) as [o net1]. cbn [fst snd] in *.
  destruct o as [m|resp]; simpl in Hs |- *.
  - rewrite E. eexists. split; [reflexivity|]. split; reflexivity.
  - destruct (status resp =? 429).
    + eexists. split; [reflexivity|]. split; reflexivity.
    + destruct (ok resp); simpl.
      * destruct (body resp); [discriminate|]. rewrite E.
        eexists. split; [reflexivity|]. split; reflexivity.
      * destruct (body resp); rewrite E;
          (eexists; split; [reflexivity|]; split; reflexivity).
Qed.

Lemma attempts_loop_all_failed (req : Request) (maxRetries : Z)
    (failures : list (FetchOutcome T)) :
  forall (final : FetchOutcome T) (attempt : Z) (net : Net),
    answers fetch req net (failures ++ [final]) ->
    Forall (fun o => success_value o = None) (failures ++ [final]) ->
    attempt + Z.of_nat (S (List.length failures)) = maxRetries ->
    exists ev net',
      attempts_loop fetch (S (List.length failures)) attempt maxRetries req net
      = (Throw (match caught_message final with
                | Some m => m
                | None => max_retries_exceeded
                end), ev, net')
      /\ fetches ev = S (List.length failures)
      /\ sleeps ev = delays attempt
                       (List.length failures
                        + (if throttled final then 1 else 0)).
Proof.
  induction failures as [|f failures IH]; intros final attempt net Ha Hf Hsum.
  - simpl in Ha, Hf. destruct Ha as [Ha _].
    apply Forall_cons_iff in Hf as [Hf _]. rewrite <- Ha in Hf.
    destruct (last_attempt_failed req attempt maxRetries net Hf)
      as (ev & E & Hfe & Hsl); [simpl in Hsum; lia|].
    rewrite Ha in E, Hsl. exists ev, (snd (fetch req net)).
    split; [exact E|]. split; [exact Hfe | exact Hsl].
  - cbn [app answers] in Ha. destruct Ha as [Ha Hrest].
    change ((f :: failures) ++ [final]) with (f :: (failures ++ [final])) in Hf.
    apply Forall_cons_iff in Hf as [Hf1 Hf2]. rewrite <- Ha in Hf1.
    cbn [List.length] in *.
    rewrite (attempt_failed_goes_on req (S (List.length failures)) attempt
               maxRetries net Hf1) by lia.
    destruct (IH final (attempt + 1) (snd (fetch req net)) Hrest Hf2
                ltac:(lia)) as (ev & net' & -> & Hfe & Hsl).
    eexists. eexists. split; [reflexivity|].
    unfold fetches, sleeps in *. cbn [filter flat_map List.length app].
    rewrite Hfe, Hsl. split; reflexivity.
Qed.

(** C6, as the code has it: [makeRequest] treats every failed attempt
    alike. Whatever mixture of failures the upstream answers the
    [maxRetries] attempts with (a rejected [fetch], a 429, a response that
    is not ok: a 4xx such as an invalid token included, or a body that is
    not JSON), every one of them is followed by the next attempt: all
    [maxRetries] requests go out, with a pause of
    [min(1000 * 2^attempt, 30000)] ms after each attempt but the last.
    The last attempt alone decides the error. When it hands an error to the
    [catch] block, that error is thrown on: a plain [Error] with message
    ["Meta API Error: " + (error.message || statusText)] for a response that
    is not ok, the rejection of [fetch] or of [json()] as it is otherwise.
    When it is answered 429, the client pauses once more and throws the
    plain [Error("Max retries exceeded")]. *)
Theorem makeRequest_retries_every_failure (token endp : string)
    (ps : list (string * ParamValue)) (maxRetries : Z) (net : Net)
    (failures : list (FetchOutcome T)) (final : FetchOutcome T) :
  Z.of_nat (List.length failures) + 1 = maxRetries ->
  answers fetch (mkRequest endp token ps) net (failures ++ [final]) ->
  Forall (fun o => success_value o = None) (failures ++ [final]) ->
  (forall m, caught_message final = Some m ->
     exists ev net',
       makeRequest fetch token endp ps (Some maxRetries) net
         = (Throw m, ev, net')
       /\ fetches ev = Z.to_nat maxRetries
       /\ sleeps ev = delays 0 (Z.to_nat maxRetries - 1)) /\
  (throttled final = true ->
     exists ev net',
       makeRequest fetch token endp ps (Some maxRetries) net
         = (Throw max_retries_exceeded, ev, net')
       /\ fetches ev = Z.to_nat maxRetries
       /\ sleeps ev = delays 0 (Z.to_nat maxRetries)).
Proof.
  intros Hlen Ha Hf.
  destruct (attempts_loop_all_failed (mkRequest endp token ps) maxRetries
              failures final 0 net Ha Hf ltac:(lia))
    as (ev & net' & E & Hfe & Hsl).
  assert (En : Z.to_nat maxRetries = S (List.length failures)) by lia.
  assert (Hth : caught_message final <> None -> throttled final = false).
  { destruct final as [m|resp]; simpl; [reflexivity|].
    destruct (status resp =? 429); [congruence | reflexivity]. }
  assert (Hct : throttled final = true -> caught_message final = None).
  { destruct final as [m|resp]; simpl; [discriminate|].
    intros ->. reflexivity. }
  split.
  - intros m Hm. unfold makeRequest. rewrite En, E, Hm.
    exists (CheckLimit :: ev), net'. split; [reflexivity|].
    rewrite Hth in Hsl by congruence.
    rewrite Nat.sub_succ, Nat.sub_0_r, Nat.add_0_r in *.
    unfold fetches, sleeps in *. simpl. auto.
  - intros Ht. unfold makeRequest. rewrite En, E, (Hct Ht).
    exists (CheckLimit :: ev), net'. split; [reflexivity|].
    rewrite Ht in Hsl. rewrite Nat.add_1_r in Hsl.
    unfold fetches, sleeps in *. simpl. auto.
Qed.

End Retry.

Lemma makeRequest_retries_every_failure_witness :
  Z.of_nat (List.length [@Rejected unit "fetch failed"; too_many]) + 1 = 3 /\
  answers scripted me_request
    [Rejected "fetch failed"; too_many; Responded invalid_token_response]
    ([Rejected "fetch failed"; too_many] ++ [Responded invalid_token_response]) /\
  Forall (fun o => success_value o = None)
    ([@Rejected unit "fetch failed"; too_many]
     ++ [Responded invalid_token_response]) /\
  exists ev net',
    makeRequest scripted "token" "/me" [("fields", PStr "id")] (Some 3)
      [Rejected "fetch failed"; too_many; Responded invalid_token_response]
    = (Throw "Meta API Error: Invalid OAuth access token.", ev, net')
    /\ fetches ev = 3%nat
    /\ sleeps ev = [1000; 2000].
Proof.
  assert (H1 : Z.of_nat (List.length [@Rejected unit "fetch failed"; too_many])
               + 1 = 3) by reflexivity.
  assert (H2 : answers scripted me_request
                 [Rejected "fetch failed"; too_many;
                  Responded invalid_token_response]
                 ([Rejected "fetch failed"; too_many]
                  ++ [Responded invalid_token_response]))
    by (simpl; repeat split).
  assert (H3 : Forall (fun o => success_value o = None)
                 ([@Rejected unit "fetch failed"; too_many]
                  ++ [Responded invalid_token_response]))
    by (repeat constructor).
  split; [exact H1|]. split; [exact H2|]. split; [exact H3|].
  exact (proj1 (makeRequest_retries_every_failure scripted
                  "token" "/me" [("fields", PStr "id")] 3
                  [Rejected "fetch failed"; too_many;
                   Responded invalid_token_response]
                  [Rejected "fetch failed"; too_many]
                  (Responded invalid_token_response) H1 H2 H3)
               "Meta API Error: Invalid OAuth access token." eq_refl).
Defined.

(** C6 as stated fails: a 400 "invalid token" answer is not final. The call
    goes out three times, with pauses of one and two seconds, before the
    error is thrown. *)
Lemma invalid_token_is_retried :
  makeRequest invalid_token_upstream "token" "/me" [("fields", PStr "id")]
    None tt
  = (Throw "Meta API Error: Invalid OAuth access token.",
     [CheckLimit; Fetch me_request; Sleep 1000; Fetch me_request; Sleep 2000;
      Fetch me_request], tt)
  /\ fetches [CheckLimit; Fetch me_request; Sleep 1000; Fetch me_request;
              Sleep 2000; Fetch me_request] <> 1%nat.
Proof. split; [reflexivity | discriminate]. Qed.

(** *** Pagination *)

Section Pages.

Context {T Net : Type}.
Variable fetch : Request -> Net -> FetchOutcome (PaginatedResponse T) * Net.


Lemma attempts_loop_requests left attempt maxRetries req net :
  forall r', In (Fetch r')
               (snd (fst (attempts_loop fetch left attempt maxRetries req net)))
             -> r' = req.
Proof.
  revert attempt net.
  induction left as [|left IH]; intros attempt net r'; simpl; [tauto|].
  destruct (fetch req net) as [o net1].
  specialize (IH (attempt + 1) net1 r').
  destruct (attempts_loop fetch left (attempt + 1) maxRetries req net1)
    as [[r2 ev2] net2]; simpl in IH.
  assert (Hagain : In (Fetch r')
                      (Fetch req :: Sleep (retryDelay attempt) :: ev2)
                   -> r' = req).
  { intros [E|[E|E]]; [congruence | discriminate | auto]. }
  assert (Hone : In (Fetch r') [Fetch req] -> r' = req).
  { intros [E|[]]; congruence. }
  destruct o as [m|resp].
  - destruct (attempt =? maxRetries - 1); simpl; auto.
  - destruct (status resp =? 429); [exact Hagain|].
    destruct (ok resp); simpl; destruct (body resp);
      try destruct (attempt =? maxRetries - 1); simpl; auto.
Qed.


Lemma makeRequest_requests token endp ps mr net :
  forall r', In (Fetch r')
               (snd (fst (makeRequest fetch token endp ps mr net)))
             -> r' = mkRequest endp token ps.
Proof.
  intros r'. unfold makeRequest.
  pose proof (attempts_loop_requests
                (Z.to_nat (match mr with Some m => m | None => 3 end)) 0
                (match mr with Some m => m | None => 3 end)
                (mkRequest endp token ps) net r') as H.
  destruct (attempts_loop _ _ _ _ _ _) as [[r e] n]; simpl in *.
  intros [E|E]; [discriminate | auto].
Qed.



End Pages.


Lemma single_page_nonempty {T} (x : T) : pages_nonempty (single_page [x]).
Proof.
  intros req n resp n' b H _ Hb. unfold single_page in H.
  inversion H; subst; clear H. simpl in Hb. inversion Hb; subst. discriminate.
Qed.




(** The next link is read by the loop test and never requested: against
    the two-page upstream every round fetches the first page again, until
    the cap is reached on copies of its one post. *)
Example getPagePosts_refetches_first_page :
  exists ev,
    getPagePosts two_pages (Z.to_nat 1000) "page" "token" None None None tt
    = (Some (Ok (repeat post_a (Z.to_nat 1000))), ev, tt)
    /\ fetches ev = Z.to_nat 1000.
Proof.
  eexists. split; vm_compute; reflexivity.
Qed.

(** *** The limiter *)

Lemma list_min_least l m :
  list_min l = Some m -> In m l /\ forall x, In x l -> m <= x.
Proof.
  revert m. induction l as [|y rest IH]; simpl; intros m H; [discriminate|].
  destruct (list_min rest) as [r|] eqn:E.
  - inversion H; subst m. destruct (IH r eq_refl) as [Hin Hle].
    split.
    + destruct (Z.min_spec y r) as [[_ ->]|[_ ->]]; auto.
    + intros x [<-|Hx]; [lia|]. specialize (Hle x Hx). lia.
  - inversion H; subst m. destruct rest as [|z rest'].
    + split; [auto|]. intros x [<-|[]]. lia.
    + simpl in E. destruct (list_min rest'); discriminate.
Qed.

Lemma list_min_none l : list_min l = None -> l = [].
Proof.
  destruct l as [|y rest]; simpl; [reflexivity|].
  destruct (list_min rest); discriminate.
Qed.

(** X14: what [checkLimit] asks of its caller. With fewer than
    [maxRequests] timestamps inside the window there is no wait. With the
    window full (and [maxRequests] at least 1, no timestamp ahead of the
    clock) the wait is the time until the oldest timestamp in the window
    leaves it: more than 0 and at most [timeWindow] milliseconds. Either
    way the call is recorded, under the clock reading taken on entry, after
    the timestamps still in the window. *)
Theorem checkLimit_wait (now : Z) (rl : RateLimiter) :
  let kept := in_window now rl in
  (Z.of_nat (List.length kept) < maxRequests rl ->
     fst (checkLimit now rl) = NoWait)
  /\ (maxRequests rl <= Z.of_nat (List.length kept) ->
      1 <= maxRequests rl ->
      (forall t, In t (requests rl) -> t <= now) ->
      exists oldest,
        In oldest kept /\ (forall t, In t kept -> oldest <= t)
        /\ fst (checkLimit now rl) = WaitMs (timeWindow rl - (now - oldest))
        /\ 0 < timeWindow rl - (now - oldest) <= timeWindow rl)
  /\ requests (snd (checkLimit now rl)) = kept ++ [now]
  /\ maxRequests (snd (checkLimit now rl)) = maxRequests rl
  /\ timeWindow (snd (checkLimit now rl)) = timeWindow rl.
Proof.
  cbv zeta. unfold checkLimit. cbn [fst snd requests maxRequests timeWindow].
  split; [|split; [|auto]].
  - intros H. destruct (Z.geb_spec (Z.of_nat (List.length (in_window now rl)))
                          (maxRequests rl)); [lia | reflexivity].
  - intros Hfull Hmax Hpast.
    destruct (Z.geb_spec (Z.of_nat (List.length (in_window now rl)))
                (maxRequests rl)); [|lia].
    destruct (list_min (in_window now rl)) as [oldest|] eqn:E.
    + destruct (list_min_least _ _ E) as [Hin Hle].
      exists oldest. split; [exact Hin|]. split; [exact Hle|].
      split; [reflexivity|].
      unfold in_window in Hin. apply filter_In in Hin as [Hreq Hw].
      apply Z.ltb_lt in Hw. specialize (Hpast oldest Hreq). lia.
    + apply list_min_none in E. rewrite E in Hfull. simpl in Hfull. lia.
Qed.

Lemma checkLimit_wait_witness :
  (maxRequests busy_limiter <= Z.of_nat (List.length (in_window 1200 busy_limiter)))
  /\ 1 <= maxRequests busy_limiter
  /\ (forall t, In t (requests busy_limiter) -> t <= 1200)
  /\ exists oldest,
       In oldest (in_window 1200 busy_limiter)
       /\ (forall t, In t (in_window 1200 busy_limiter) -> oldest <= t)
       /\ fst (checkLimit 1200 busy_limiter)
          = WaitMs (timeWindow busy_limiter - (1200 - oldest))
       /\ 0 < timeWindow busy_limiter - (1200 - oldest)
            <= timeWindow busy_limiter.
Proof.
  assert (H1 : maxRequests busy_limiter
               <= Z.of_nat (List.length (in_window 1200 busy_limiter)))
    by (vm_compute; discriminate).
  assert (H2 : 1 <= maxRequests busy_limiter) by (vm_compute; discriminate).
  assert (H3 : forall t, In t (requests busy_limiter) -> t <= 1200).
  { intros t [<-|[<-|[<-|[]]]]; lia. }
  split; [exact H1|]. split; [exact H2|]. split; [exact H3|].
  exact (proj1 (proj2 (checkLimit_wait 1200 busy_limiter)) H1 H2 H3).
Defined.

Lemma checkLimits_room times :
  forall rl,
    Z.of_nat (List.length (requests rl)) + Z.of_nat (List.length times)
      <= maxRequests rl ->
    Forall (eq NoWait) (checkLimits times rl).
Proof.
  induction times as [|now rest IH]; intros rl H; simpl; [constructor|].
  assert (Hk : (List.length (in_window now rl) <= List.length (requests rl))%nat)
    by (unfold in_window; apply filter_length_le).
  cbn [List.length] in H.
  constructor.
  - destruct (Z.geb_spec (Z.of_nat (List.length (in_window now rl)))
                (maxRequests rl)); [lia | reflexivity].
  - apply IH. cbn [requests maxRequests]. rewrite length_app. simpl. lia.
Qed.

(** X15: a new limiter lets the first [maxRequests] calls through without
    any wait, whenever they come. *)
Theorem first_calls_never_wait (maxReq window : option Z) (times : list Z) :
  Z.of_nat (List.length times)
    <= maxRequests (newRateLimiter maxReq window) ->
  Forall (eq NoWait) (checkLimits times (newRateLimiter maxReq window)).
Proof.
  intros H. apply checkLimits_room. simpl. exact H.
Qed.

Lemma first_calls_never_wait_witness :
  Z.of_nat (List.length [5; 5; 6]) <= maxRequests (newRateLimiter (Some 3) None)
  /\ Forall (eq NoWait)
       (checkLimits [5; 5; 6] (newRateLimiter (Some 3) None)).
Proof.
  assert (H : Z.of_nat (List.length [5; 5; 6])
              <= maxRequests (newRateLimiter (Some 3) None))
    by (vm_compute; discriminate).
  split; [exact H|].
  exact (first_calls_never_wait (Some 3) None [5; 5; 6] H).
Defined.

Lemma checkLimits_spaced times :
  forall rl,
    1 <= maxRequests rl ->
    spaced (timeWindow rl) times ->
    (forall now, hd_error times = Some now ->
       forall t, In t (requests rl) -> t + timeWindow rl <= now) ->
    Forall (eq NoWait) (checkLimits times rl).
Proof.
  induction times as [|now rest IH]; intros rl Hmax Hsp Hold; simpl;
    [constructor|].
  assert (Hk : in_window now rl = []).
  { unfold in_window. specialize (Hold now eq_refl).
    induction (requests rl) as [|t ts IHt]; simpl; [reflexivity|].
    destruct (Z.ltb_spec (now - t) (timeWindow rl)).
    - specialize (Hold t (or_introl eq_refl)). lia.
    - apply IHt. intros x Hx. apply Hold. right; exact Hx. }
  rewrite Hk. simpl.
  constructor.
  - destruct (Z.geb_spec 0 (maxRequests rl)); [lia | reflexivity].
  - apply IH; cbn [requests maxRequests timeWindow].
    + exact Hmax.
    + destruct rest; simpl in Hsp; [exact I | tauto].
    + intros next Hnext t [<-|[]]. destruct rest as [|t2 rest'];
        simpl in Hnext; [discriminate|]. inversion Hnext; subst t2.
      simpl in Hsp. tauto.
Qed.

(** X16: calls that are each at least one whole window after the one
    before never wait, on a new limiter that allows at least one request
    per window. *)
Theorem spaced_calls_never_wait (maxReq window : option Z) (times : list Z) :
  1 <= maxRequests (newRateLimiter maxReq window) ->
  spaced (timeWindow (newRateLimiter maxReq window)) times ->
  Forall (eq NoWait) (checkLimits times (newRateLimiter maxReq window)).
Proof.
  intros Hmax Hsp. apply checkLimits_spaced; [exact Hmax | exact Hsp |].
  intros now _ t [].
Qed.

Lemma spaced_calls_never_wait_witness :
  1 <= maxRequests (newRateLimiter (Some 1) (Some 1000))
  /\ spaced (timeWindow (newRateLimiter (Some 1) (Some 1000))) [0; 1000; 2500]
  /\ Forall (eq NoWait)
       (checkLimits [0; 1000; 2500] (newRateLimiter (Some 1) (Some 1000))).
Proof.
  assert (H1 : 1 <= maxRequests (newRateLimiter (Some 1) (Some 1000)))
    by (vm_compute; discriminate).
  assert (H2 : spaced (timeWindow (newRateLimiter (Some 1) (Some 1000)))
                 [0; 1000; 2500])
    by (simpl; lia).
  split; [exact H1|]. split; [exact H2|].
  exact (spaced_calls_never_wait (Some 1) (Some 1000) [0; 1000; 2500] H1 H2).
Defined.

(** *** More on [makeRequest] *)

Lemma retryDelay_bounds (a : Z) : 0 <= a -> 1000 <= retryDelay a <= 30000.
Proof.
  intros Ha. unfold retryDelay.
  pose proof (Z.pow_pos_nonneg 2 a ltac:(lia) Ha). lia.
Qed.

Section Budget.

Context {T Net : Type}.
Variable fetch : Request -> Net -> FetchOutcome T * Net.

Lemma attempts_loop_budget (left : nat) (attempt maxRetries : Z)
    (req : Request) (net : Net) :
  0 <= attempt ->
  let ev := snd (fst (attempts_loop fetch left attempt maxRetries req net)) in
  (fetches ev <= left)%nat
  /\ (List.length (sleeps ev) <= fetches ev)%nat
  /\ Forall (fun ms => 1000 <= ms <= 30000) (sleeps ev)
  /\ limit_checks ev = 0%nat.
Proof.
  cbv zeta. revert attempt net.
  induction left as [|left IH]; intros attempt net Ha; simpl.
  - repeat split; auto.
  - destruct (fetch req net) as [o net1].
    specialize (IH (attempt + 1) net1 ltac:(lia)).
    destruct (attempts_loop fetch left (attempt + 1) maxRetries req net1)
      as [[r2 ev2] net2]; simpl in IH.
    destruct IH as (I1 & I2 & I3 & I4).
    pose proof (retryDelay_bounds attempt Ha) as Hd.
    assert (Hagain :
              (fetches (Fetch req :: Sleep (retryDelay attempt) :: ev2) <= S left)%nat
              /\ (List.length (sleeps (Fetch req :: Sleep (retryDelay attempt) :: ev2))
                  <= fetches (Fetch req :: Sleep (retryDelay attempt) :: ev2))%nat
              /\ Forall (fun ms => 1000 <= ms <= 30000)
                   (sleeps (Fetch req :: Sleep (retryDelay attempt) :: ev2))
              /\ limit_checks (Fetch req :: Sleep (retryDelay attempt) :: ev2)
                 = 0%nat).
    { unfold fetches, sleeps, limit_checks in *. simpl.
      repeat split; try lia. constructor; [exact Hd | exact I3]. }
    assert (Hone :
              (fetches [Fetch req] <= S left)%nat
              /\ (List.length (sleeps [Fetch req]) <= fetches [Fetch req])%nat
              /\ Forall (fun ms => 1000 <= ms <= 30000) (sleeps [Fetch req])
              /\ limit_checks [Fetch req] = 0%nat).
    { unfold fetches, sleeps, limit_checks. simpl.
      repeat split; try lia. constructor. }
    destruct o as [m|resp].
    + destruct (attempt =? maxRetries - 1); simpl; assumption.
    + destruct (status resp =? 429); [exact Hagain|].
      destruct (ok resp); simpl; destruct (body resp);
        try destruct (attempt =? maxRetries - 1); simpl; assumption.
Qed.

(** X17: whatever the upstream does, one [makeRequest] sends at most
    [maxRetries] requests (3 by default, none when [maxRetries] is 0 or
    less), pauses at most once per request sent, each pause between one and
    thirty seconds, and consults the rate limiter exactly once: retries are
    not rate-limited. *)
Theorem makeRequest_budget (token endp : string)
    (ps : list (string * ParamValue)) (maxRetries : option Z) (net : Net) :
  let ev := snd (fst (makeRequest fetch token endp ps maxRetries net)) in
  (fetches ev
   <= Z.to_nat (match maxRetries with Some m => m | None => 3 end))%nat
  /\ (List.length (sleeps ev) <= fetches ev)%nat
  /\ Forall (fun ms => 1000 <= ms <= 30000) (sleeps ev)
  /\ limit_checks ev = 1%nat.
Proof.
  cbv zeta. unfold makeRequest.
  pose proof (attempts_loop_budget
                (Z.to_nat (match maxRetries with Some m => m | None => 3 end))
                0 (match maxRetries with Some m => m | None => 3 end)
                (mkRequest endp token ps) net ltac:(lia)) as H.
  cbv zeta in H.
  destruct (attempts_loop fetch _ 0 _ _ net) as [[r ev] net']; simpl in *.
  destruct H as (H1 & H2 & H3 & H4).
  unfold fetches, sleeps, limit_checks in *. simpl.
  repeat split; try lia. exact H3.
Qed.

End Budget.

(** One failed attempt that is not the last: the request goes out, the
    client pauses, and the loop goes on with the rest of the script. *)
Lemma scripted_attempt_failed {T} (o : FetchOutcome T) script
    (left : nat) (attempt maxRetries : Z) (req : Request) :
  success_value o = None ->
  attempt <> maxRetries - 1 ->
  attempts_loop scripted (S left) attempt maxRetries req (o :: script)
  = let '(r, ev, net2) :=
      attempts_loop scripted left (attempt + 1) maxRetries req script in
    (r, Fetch req :: Sleep (retryDelay attempt) :: ev, net2).
Proof.
  intros Hs Hlast. cbn [attempts_loop scripted].
  assert (E : (attempt =? maxRetries - 1) = false) by (apply Z.eqb_neq; lia).
  destruct (attempts_loop scripted left (attempt + 1) maxRetries req script)
    as [[r ev] net2].
  destruct o as [m|resp]; simpl in Hs.
  - rewrite E. reflexivity.
  - destruct (status resp =? 429); [reflexivity|].
    destruct (ok resp); simpl.
    + destruct (body resp); [discriminate|]. rewrite E. reflexivity.
    + destruct (body resp); rewrite E; reflexivity.
Qed.

Lemma scripted_attempt_succeeds {T} (o : FetchOutcome T) script
    (left : nat) (attempt maxRetries : Z) (req : Request) (v : T) :
  success_value o = Some v ->
  attempts_loop scripted (S left) attempt maxRetries req (o :: script)
  = (Ok v, [Fetch req], script).
Proof.
  intros Hs. cbn [attempts_loop scripted].
  destruct (attempts_loop scripted left (attempt + 1) maxRetries req script)
    as [[r ev] net2].
  destruct o as [m|resp]; simpl in Hs; [discriminate|].
  destruct (status resp =? 429); [discriminate|].
  destruct (ok resp); [|discriminate]. simpl.
  destruct (body resp) as [b|]; [|discriminate].
  inversion Hs. reflexivity.
Qed.

Lemma scripted_retry_until_success {T} (failures : list (FetchOutcome T)) :
  forall (o : FetchOutcome T) (v : T) rest (left : nat)
         (attempt maxRetries : Z) (req : Request),
    Forall (fun f => success_value f = None) failures ->
    success_value o = Some v ->
    (List.length failures < left)%nat ->
    attempt + Z.of_nat left = maxRetries ->
    exists ev,
      attempts_loop scripted left attempt maxRetries req
        (failures ++ o :: rest) = (Ok v, ev, rest)
      /\ fetches ev = S (List.length failures)
      /\ sleeps ev = delays attempt (List.length failures).
Proof.
  induction failures as [|f failures IH];
    intros o v rest left attempt maxRetries req Hf Ho Hlen Hsum.
  - destruct left as [|left]; [simpl in Hlen; lia|].
    simpl app. rewrite (scripted_attempt_succeeds o rest left _ _ _ v Ho).
    eexists. split; [reflexivity|]. split; reflexivity.
  - destruct left as [|left]; [simpl in Hlen; lia|].
    apply Forall_cons_iff in Hf as [Hf1 Hf2].
    simpl app.
    rewrite (scripted_attempt_failed f _ left attempt maxRetries req Hf1)
      by (simpl in Hlen; lia).
    destruct (IH o v rest left (attempt + 1) maxRetries req Hf2 Ho
                ltac:(simpl in Hlen; lia) ltac:(lia))
      as (ev & -> & Hfe & Hsl).
    eexists. split; [reflexivity|].
    unfold fetches, sleeps in *. simpl. rewrite Hfe, Hsl. split; reflexivity.
Qed.

(** X18: when the first attempts fail (throttled, rejected, not ok, or not
    JSON) and a later one, still within [maxRetries], succeeds, [makeRequest]
    returns that attempt's body: it has sent one request per attempt, paused
    [min(1000 * 2^k, 30000)] ms after the failed attempt number [k], and
    left the rest of the upstream's answers unread. *)
Theorem makeRequest_retries_until_success {T} (failures : list (FetchOutcome T))
    (o : FetchOutcome T) (v : T) (rest : list (FetchOutcome T))
    (token endp : string) (ps : list (string * ParamValue)) (maxRetries : Z) :
  Forall (fun f => success_value f = None) failures ->
  success_value o = Some v ->
  Z.of_nat (List.length failures) < maxRetries ->
  exists ev,
    makeRequest scripted token endp ps (Some maxRetries)
      (failures ++ o :: rest) = (Ok v, ev, rest)
    /\ fetches ev = S (List.length failures)
    /\ sleeps ev = delays 0 (List.length failures).
Proof.
  intros Hf Ho Hlen. unfold makeRequest.
  destruct (scripted_retry_until_success failures o v rest
              (Z.to_nat maxRetries) 0 maxRetries (mkRequest endp token ps)
              Hf Ho ltac:(lia) ltac:(lia)) as (ev & -> & Hfe & Hsl).
  exists (CheckLimit :: ev). split; [reflexivity|].
  unfold fetches, sleeps in *. simpl. auto.
Qed.

Lemma makeRequest_retries_until_success_witness :
  Forall (fun f => success_value f = None)
    [too_many; @server_error (PaginatedResponse FacebookPost)] /\
  success_value (ok_page [post_a] None) = Some (mkPage [post_a] None) /\
  Z.of_nat (List.length [too_many; @server_error (PaginatedResponse FacebookPost)]) < 3 /\
  exists ev,
    makeRequest scripted "token" "/page/posts" [] (Some 3)
      ([too_many; server_error] ++ ok_page [post_a] None :: [])
    = (Ok (mkPage [post_a] None), ev, [])
    /\ fetches ev = 3%nat
    /\ sleeps ev = [1000; 2000].
Proof.
  assert (H1 : Forall (fun f => success_value f = None)
                 [too_many; @server_error (PaginatedResponse FacebookPost)])
    by (repeat constructor).
  assert (H3 : Z.of_nat (List.length
                 [too_many; @server_error (PaginatedResponse FacebookPost)]) < 3)
    by (simpl; lia).
  split; [exact H1|]. split; [reflexivity|]. split; [exact H3|].
  exact (makeRequest_retries_until_success
           [too_many; server_error] (ok_page [post_a] None)
           (mkPage [post_a] None) [] "token" "/page/posts" [] 3
           H1 eq_refl H3).
Defined.

(** X19: [validateToken] cannot tell why a call failed. Against an upstream
    that answers every attempt with the same failure, be it a rejected
    [fetch] (no network), a 429, a 5xx or an invalid-token 400, it reports
    the token as not valid, after spending all three attempts. *)
Theorem validateToken_false_on_any_failure {T Net : Type}
    (fetch : Request -> Net -> FetchOutcome T * Net)
    (token : string) (net : Net) (o : FetchOutcome T) :
  (forall n, fst (fetch (mkRequest "/me" token [("fields", PStr "id")]) n) = o) ->
  success_value o = None ->
  exists ev net',
    validateToken fetch token net = (false, ev, net')
    /\ fetches ev = 3%nat.
Proof.
  intros Hfetch Hs. unfold validateToken, makeRequest.
  change (Z.to_nat 3) with 3%nat.
  destruct (throttled o) eqn:Ht.
  - destruct o as [m|resp]; [discriminate|]. simpl in Ht.
    apply Z.eqb_eq in Ht.
    destruct (attempts_loop_throttled fetch _ resp 3 Hfetch Ht 3%nat 0 net)
      as (ev & net' & -> & Hf & _).
    exists (CheckLimit :: ev), net'. split; [reflexivity|].
    unfold fetches in *. simpl. exact Hf.
  - assert (Hm : exists m, caught_message o = Some m).
    { destruct o as [m|resp]; simpl in *; [eauto|].
      rewrite Ht in *. destruct (body resp); [|eauto].
      destruct (ok resp); [discriminate | eauto]. }
    destruct Hm as (m & Hm).
    destruct (attempts_loop_caught fetch _ o m 3 Hfetch Hm 2%nat 0 net
                ltac:(lia)) as (ev & net' & -> & Hf & _).
    exists (CheckLimit :: ev), net'. split; [reflexivity|].
    unfold fetches in *. simpl. exact Hf.
Qed.

Lemma validateToken_false_on_any_failure_witness :
  (forall n, fst (network_down (mkRequest "/me" "token" [("fields", PStr "id")]) n)
             = Rejected "fetch failed") /\
  success_value (@Rejected unit "fetch failed") = None /\
  exists ev net',
    validateToken network_down "token" tt = (false, ev, net')
    /\ fetches ev = 3%nat.
Proof.
  split; [reflexivity|]. split; [reflexivity|].
  exact (validateToken_false_on_any_failure network_down "token" tt
           (Rejected "fetch failed") (fun _ => eq_refl) eq_refl).
Defined.

(** *** More on the paginated fetches *)



Section MorePages.

Context {T Net : Type}.
Variable fetch : Request -> Net -> FetchOutcome (PaginatedResponse T) * Net.

Lemma makeRequest_first_ok token endp ps mr net resp b net1 :
  fetch (mkRequest endp token ps) net = (Responded resp, net1) ->
  status resp <> 429 -> ok resp = true -> body resp = Some b ->
  0 < match mr with Some m => m | None => 3 end ->
  makeRequest fetch token endp ps mr net
  = (Ok (value b), [CheckLimit; Fetch (mkRequest endp token ps)], net1).
Proof.
  intros Hf Hs Hok Hb Hpos. unfold makeRequest.
  destruct (Z.to_nat (match mr with Some m => m | None => 3 end))
    as [|left] eqn:E; [lia|].
  cbn [attempts_loop]. rewrite Hf.
  destruct (attempts_loop fetch left _ _ _ net1) as [[r ev] n2].
  apply Z.eqb_neq in Hs. rewrite Hs, Hok, Hb. reflexivity.
Qed.

Lemma pages_loop_never_ends (cap : Z) (token endp : string)
    (ps : list (string * ParamValue)) :
  pages_empty_with_next fetch -> 0 < cap ->
  forall (fuel : nat) (net : Net),
    fst (fst (pages_loop fetch fuel cap token endp ps [] net)) = None.
Proof.
  intros He Hcap. induction fuel as [|fuel IH]; intros net; [reflexivity|].
  cbn [pages_loop].
  destruct (He (mkRequest endp token ps) net)
    as (resp & b & n' & Hf & Hs & Hok & Hb & Hd & Hn).
  rewrite (makeRequest_first_ok token endp ps None net resp b n' Hf Hs Hok Hb)
    by lia.
  rewrite Hd, Hn. simpl app.
  assert (E : (Z.of_nat (@List.length T []) <? cap) = true)
    by (apply Z.ltb_lt; simpl; lia).
  rewrite E. simpl andb. cbv iota.
  specialize (IH n').
  destruct (pages_loop fetch fuel cap token endp ps [] n') as [[r ev] n2].
  simpl in *. exact IH.
Qed.

Lemma pages_loop_requests (cap : Z) (token endp : string)
    (ps : list (string * ParamValue)) :
  forall (fuel : nat) (items : list T) (net : Net) r',
    In (Fetch r') (snd (fst (pages_loop fetch fuel cap token endp ps items net)))
    -> r' = mkRequest endp token ps.
Proof.
  induction fuel as [|fuel IH]; intros items net r'; simpl; [tauto|].
  pose proof (makeRequest_requests fetch token endp ps None net r') as Hreq.
  destruct (makeRequest fetch token endp ps None net) as [[r ev] net1].
  simpl in Hreq.
  destruct r as [response|m]; [|exact Hreq].
  destruct (truthy (paging_next response)
            && (Z.of_nat (List.length (items ++ data response)) <? cap));
    [|exact Hreq].
  specialize (IH (items ++ data response) net1 r').
  destruct (pages_loop fetch fuel cap token endp ps (items ++ data response) net1)
    as [[r2 ev2] net2]. simpl in *.
  intros Hin. apply in_app_or in Hin as [Hin|Hin]; auto.
Qed.

End MorePages.

(** X21: an upstream that keeps answering with an empty page that has a
    next link keeps [getPagePosts] and [getPostComments] going for ever: the
    count never grows, so neither the cap nor a missing link ends the loop.
    However many rounds are allowed, the call has not returned. *)
Theorem empty_pages_with_next_never_return {Net : Type}
    (fetchPosts : Request -> Net -> FetchOutcome (PaginatedResponse FacebookPost) * Net)
    (fetchComments : Request -> Net -> FetchOutcome (PaginatedResponse FacebookComment) * Net)
    (pageId postId pageToken : string) (since until : option string)
    (limit : option Z) (net : Net) (fuel : nat) :
  pages_empty_with_next fetchPosts ->
  pages_empty_with_next fetchComments ->
  fst (fst (getPagePosts fetchPosts fuel pageId pageToken since until limit net))
    = None
  /\ fst (fst (getPostComments fetchComments fuel postId pageToken limit net))
     = None.
Proof.
  intros HP HC. split.
  - apply pages_loop_never_ends; [exact HP | unfold posts_cap; lia].
  - apply pages_loop_never_ends; [exact HC | unfold comments_cap; lia].
Qed.

Lemma empty_forever_pages {T} : pages_empty_with_next (@empty_forever T).
Proof.
  intros req n. unfold empty_forever, ok_page.
  do 3 eexists. split; [reflexivity|]. simpl.
  repeat split; try reflexivity. discriminate.
Qed.

Lemma empty_pages_with_next_never_return_witness :
  pages_empty_with_next (@empty_forever FacebookPost) /\
  pages_empty_with_next (@empty_forever FacebookComment) /\
  fst (fst (getPagePosts empty_forever 50 "page" "token" None None None tt))
    = None
  /\ fst (fst (getPostComments empty_forever 50 "post" "token" None tt))
     = None.
Proof.
  split; [exact empty_forever_pages|]. split; [exact empty_forever_pages|].
  exact (empty_pages_with_next_never_return empty_forever empty_forever
           "page" "post" "token" None None None tt 50
           empty_forever_pages empty_forever_pages).
Defined.

(** X22: every request [getPagePosts] and [getPostComments] send, in any
    round and on any retry, is the one built from the page's or post's
    endpoint, the token and the initial [params]: the next link of a page is
    never requested and no request carries a cursor. *)
Theorem paginated_fetch_repeats_one_request {Net : Type}
    (fetchPosts : Request -> Net -> FetchOutcome (PaginatedResponse FacebookPost) * Net)
    (fetchComments : Request -> Net -> FetchOutcome (PaginatedResponse FacebookComment) * Net)
    (pageId postId pageToken : string) (since until : option string)
    (limit : option Z) (net : Net) (fuel : nat) (r : Request) :
  (In (Fetch r)
      (snd (fst (getPagePosts fetchPosts fuel pageId pageToken since until
                   limit net))) ->
   r = mkRequest (String.append "/" (String.append pageId "/posts")) pageToken
         (posts_params since until
            (match limit with Some l => l | None => 25 end)))
  /\
  (In (Fetch r)
      (snd (fst (getPostComments fetchComments fuel postId pageToken limit net))) ->
   r = mkRequest (String.append "/" (String.append postId "/comments"))
         pageToken
         (comments_params (match limit with Some l => l | None => 100 end))).
Proof.
  split; intros H.
  - exact (pages_loop_requests fetchPosts posts_cap _ _ _ fuel [] net r H).
  - exact (pages_loop_requests fetchComments comments_cap _ _ _ fuel [] net r H).
Qed.

(** X23: an error in a later round throws the pages of the earlier rounds
    away. When the first page comes with a next link and fewer items than
    the cap, and the three attempts for the second page all fail, the last
    one with an error message, [getPagePosts] throws that error: the caller
    gets none of the posts fetched. *)
Theorem getPagePosts_loses_pages_on_error (page : list FacebookPost)
    (next : string) (f1 f2 f3 : FetchOutcome (PaginatedResponse FacebookPost))
    (m : string) (rest : list (FetchOutcome (PaginatedResponse FacebookPost)))
    (pageId pageToken : string) (since until : option string)
    (limit : option Z) (fuel : nat) :
  next <> "" ->
  Z.of_nat (List.length page) < 1000 ->
  success_value f1 = None -> success_value f2 = None ->
  caught_message f3 = Some m ->
  exists ev,
    getPagePosts scripted (S (S fuel)) pageId pageToken since until limit
      (ok_page page (Some next) :: f1 :: f2 :: f3 :: rest)
    = (Some (Throw m), ev, rest)
    /\ fetches ev = 4%nat.
Proof.
  intros Hnext Hlen H1 H2 H3. unfold getPagePosts.
  cbn [pages_loop].
  rewrite (makeRequest_first_ok scripted pageToken _ _ None
             (ok_page page (Some next) :: f1 :: f2 :: f3 :: rest)
             (mkResponse 200 "OK" (Some (mkBody None (mkPage page (Some next)))))
             (mkBody None (mkPage page (Some next))) (f1 :: f2 :: f3 :: rest)
             eq_refl ltac:(simpl; lia) eq_refl eq_refl ltac:(lia)).
  cbn [value data paging_next app truthy].
  assert (En : negb (String.eqb next "") = true).
  { destruct (String.eqb next "") eqn:E; [|reflexivity].
    apply String.eqb_eq in E. contradiction. }
  rewrite En.
  assert (Ec : (Z.of_nat (List.length page) <? posts_cap) = true)
    by (apply Z.ltb_lt; unfold posts_cap; lia).
  rewrite Ec. cbn [andb].
  unfold makeRequest. change (Z.to_nat 3) with 3%nat.
  rewrite (scripted_attempt_failed f1 _ 2 0 3 _ H1) by lia.
  rewrite (scripted_attempt_failed f2 _ 1 (0 + 1) 3 _ H2) by lia.
  assert (E3 : forall req,
             attempts_loop scripted 1 (0 + 1 + 1) 3 req (f3 :: rest)
             = (Throw m, [Fetch req], rest)).
  { intros req. cbn [attempts_loop scripted].
    change (0 + 1 + 1 =? 3 - 1) with true.
    destruct f3 as [m3|resp]; simpl in H3.
    - inversion H3. reflexivity.
    - destruct (status resp =? 429); [discriminate|].
      destruct (body resp) as [b|]; simpl.
      + destruct (ok resp); [discriminate|]. simpl. inversion H3. reflexivity.
      + inversion H3. destruct (ok resp); reflexivity. }
  rewrite E3.
  eexists. split; [reflexivity|]. reflexivity.
Qed.

Lemma getPagePosts_loses_pages_on_error_witness :
  "https://graph.facebook.com/next" <> "" /\
  Z.of_nat (List.length [post_a; post_b]) < 1000 /\
  success_value (@too_many (PaginatedResponse FacebookPost)) = None /\
  caught_message (@server_error (PaginatedResponse FacebookPost))
    = Some json_syntax_error /\
  exists ev,
    getPagePosts scripted 5 "page" "token" None None None
      [ok_page [post_a; post_b] (Some "https://graph.facebook.com/next");
       too_many; too_many; server_error]
    = (Some (Throw json_syntax_error), ev, [])
    /\ fetches ev = 4%nat.
Proof.
  split; [discriminate|]. split; [simpl; lia|]. split; [reflexivity|].
  split; [reflexivity|].
  exact (getPagePosts_loses_pages_on_error [post_a; post_b]
           "https://graph.facebook.com/next" too_many too_many server_error
           json_syntax_error [] "page" "token" None None None 3
           ltac:(discriminate) ltac:(simpl; lia) eq_refl eq_refl eq_refl).
Defined.

End MetaFacts.

(* ===================================================================== *)
(** ** Properties of the token vault *)
(* ===================================================================== *)
Module VaultFacts.
Import Vault.

(** *** Hexadecimal *)

Lemma from_hex_byte (b : ascii) (s : string) :
  from_hex (String (hex_digit (N_of_ascii b / 16))
              (String (hex_digit (N_of_ascii b mod 16)) s))
  = b :: from_hex s.
Proof. destruct b as [[] [] [] [] [] [] [] []]; reflexivity. Qed.

Lemma from_hex_to_hex (buf : Buffer) : from_hex (to_hex buf) = buf.
Proof.
  induction buf as [|b rest IH]; [reflexivity|].
  cbn [to_hex]. rewrite from_hex_byte, IH. reflexivity.
Qed.

Lemma hex_digit_not_colon (b : ascii) :
  Ascii.eqb (hex_digit (N_of_ascii b / 16)) colon = false
  /\ Ascii.eqb (hex_digit (N_of_ascii b mod 16)) colon = false.
Proof. destruct b as [[] [] [] [] [] [] [] []]; split; reflexivity. Qed.

Lemma to_hex_no_colon (buf : Buffer) : has_char colon (to_hex buf) = false.
Proof.
  induction buf as [|b rest IH]; [reflexivity|].
  cbn [to_hex has_char]. destruct (hex_digit_not_colon b) as [-> ->].
  exact IH.
Qed.

(** *** [split(':')] *)

Lemma split_on_none sep s : has_char sep s = false -> split_on sep s = [s].
Proof.
  induction s as [|c rest IH]; simpl; intros H; [reflexivity|].
  apply orb_false_elim in H as [Hc Hrest]. rewrite Hc, (IH Hrest). reflexivity.
Qed.

Lemma split_on_first sep s1 s2 :
  has_char sep s1 = false ->
  split_on sep (String.append s1 (String sep s2)) = s1 :: split_on sep s2.
Proof.
  induction s1 as [|c rest IH]; simpl; intros H.
  - rewrite Ascii.eqb_refl. reflexivity.
  - apply orb_false_elim in H as [Hc Hrest]. rewrite Hc, (IH Hrest).
    reflexivity.
Qed.

(** *** UTF-8 *)

Ltac div_lia := zify; Z.to_euclidean_division_equations; lia.

Lemma byte_value (n : N) : (n < 256)%N -> N_of_ascii (ascii_of_N n) = n.
Proof. apply N_ascii_embedding. Qed.

Ltac settle_tests :=
  repeat match goal with
         | |- context [N.ltb ?a ?b] =>
             destruct (N.ltb_spec a b); try lia; cbn [andb negb]
         | |- context [N.leb ?a ?b] =>
             destruct (N.leb_spec a b); try lia; cbn [andb negb]
         end.

(** The decoder on a well-formed sequence of one, two, three, four bytes. *)
Ltac one_round r0 :=
  cbn [utf8_decode]; subst r0; cbv beta iota zeta;
  unfold is_cont, cont_bits.

Lemma utf8_decode_1 (b0 : ascii) (rest : Buffer) :
  (N_of_ascii b0 < 0x80)%N ->
  utf8_decode (b0 :: rest) = N_of_ascii b0 :: utf8_decode rest.
Proof.
  intros H. cbn [utf8_decode]. cbv zeta.
  destruct (N.ltb_spec (N_of_ascii b0) 0x80); [reflexivity | lia].
Qed.

Lemma utf8_decode_2 (b0 b1 : ascii) (rest : Buffer) (n0 n1 : N) :
  N_of_ascii b0 = n0 -> N_of_ascii b1 = n1 ->
  (0xC2 <= n0 < 0xE0)%N -> (0x80 <= n1 < 0xC0)%N ->
  utf8_decode (b0 :: b1 :: rest)
  = ((n0 - 0xC0) * 64 + (n1 - 0x80))%N :: utf8_decode rest.
Proof.
  intros E0 E1 H0 H1. remember (b1 :: rest) as r0 eqn:R.
  one_round r0. rewrite ?E0, ?E1. settle_tests; reflexivity.
Qed.

Lemma utf8_decode_3 (b0 b1 b2 : ascii) (rest : Buffer) (n0 n1 n2 c : N) :
  N_of_ascii b0 = n0 -> N_of_ascii b1 = n1 -> N_of_ascii b2 = n2 ->
  (0xE0 <= n0 < 0xF0)%N -> (0x80 <= n1 < 0xC0)%N -> (0x80 <= n2 < 0xC0)%N ->
  c = ((n0 - 0xE0) * 4096 + (n1 - 0x80) * 64 + (n2 - 0x80))%N ->
  (0x800 <= c)%N -> (c < 0xD800 \/ 0xE000 <= c)%N ->
  utf8_decode (b0 :: b1 :: b2 :: rest) = c :: utf8_decode rest.
Proof.
  intros E0 E1 E2 H0 H1 H2 Hc Hlo Hsur. remember (b1 :: b2 :: rest) as r0 eqn:R.
  one_round r0. rewrite ?E0, ?E1, ?E2, <- ?Hc. settle_tests; reflexivity.
Qed.

Lemma utf8_decode_4 (b0 b1 b2 b3 : ascii) (rest : Buffer) (n0 n1 n2 n3 c : N) :
  N_of_ascii b0 = n0 -> N_of_ascii b1 = n1 -> N_of_ascii b2 = n2 ->
  N_of_ascii b3 = n3 ->
  (0xF0 <= n0 < 0xF5)%N -> (0x80 <= n1 < 0xC0)%N -> (0x80 <= n2 < 0xC0)%N ->
  (0x80 <= n3 < 0xC0)%N ->
  c = ((n0 - 0xF0) * 262144 + (n1 - 0x80) * 4096 + (n2 - 0x80) * 64
       + (n3 - 0x80))%N ->
  (0x10000 <= c < 0x110000)%N ->
  utf8_decode (b0 :: b1 :: b2 :: b3 :: rest) = c :: utf8_decode rest.
Proof.
  intros E0 E1 E2 E3 H0 H1 H2 H3 Hc Hr.
  remember (b1 :: b2 :: b3 :: rest) as r0 eqn:R.
  one_round r0. rewrite ?E0, ?E1, ?E2, ?E3, <- ?Hc. settle_tests; reflexivity.
Qed.

Lemma utf8_decode_encode_cp (c : N) (rest : Buffer) :
  scalar_value c ->
  utf8_decode (utf8_encode_cp c ++ rest) = c :: utf8_decode rest.
Proof.
  unfold scalar_value, utf8_encode_cp. intros Hc.
  destruct (N.ltb_spec c 0x80).
  { cbn [app]. rewrite utf8_decode_1; rewrite byte_value by div_lia;
      [reflexivity | div_lia]. }
  destruct (N.ltb_spec c 0x800).
  { cbn [app].
    rewrite (utf8_decode_2 _ _ rest (0xC0 + c / 64) (0x80 + c mod 64))
      by (try apply byte_value; div_lia).
    f_equal. div_lia. }
  assert (Hns : ((0xD800 <=? c) && (c <? 0xE000))%N = false).
  { destruct (N.leb_spec 0xD800 c); destruct (N.ltb_spec c 0xE000);
      cbn [andb]; try reflexivity; div_lia. }
  rewrite Hns.
  destruct (N.ltb_spec c 0x10000).
  { cbn [app].
    apply (utf8_decode_3 _ _ _ rest (0xE0 + c / 4096) (0x80 + (c / 64) mod 64)
             (0x80 + c mod 64));
      try apply byte_value; div_lia. }
  destruct (N.ltb_spec c 0x110000); [|div_lia].
  cbn [app].
  apply (utf8_decode_4 _ _ _ _ rest (0xF0 + c / 262144)
           (0x80 + (c / 4096) mod 64) (0x80 + (c / 64) mod 64)
           (0x80 + c mod 64));
    try apply byte_value; div_lia.
Qed.

Lemma utf8_decode_encode (t : Text) :
  Forall scalar_value t -> utf8_decode (utf8_encode t) = t.
Proof.
  induction 1 as [|c rest Hc _ IH]; [reflexivity|].
  unfold utf8_encode in *. cbn [flat_map].
  rewrite utf8_decode_encode_cp by exact Hc. rewrite IH. reflexivity.
Qed.

(** *** The cipher *)

Lemma xorb_cancel (a k : bool) : xorb (xorb a k) k = a.
Proof. destruct a, k; reflexivity. Qed.

Lemma xor_byte_cancel (a k : ascii) : xor_byte (xor_byte a k) k = a.
Proof.
  destruct a, k; simpl. rewrite !xorb_cancel. reflexivity.
Qed.

Lemma buffer_eqb_refl (b : Buffer) : buffer_eqb b b = true.
Proof.
  induction b as [|x rest IH]; simpl; [reflexivity|].
  rewrite Ascii.eqb_refl. exact IH.
Qed.

Section CipherFacts.

Variable EVP_BytesToKey : Buffer -> Buffer * Buffer.
Variable keystream : Buffer -> Buffer -> nat -> ascii.
Variable gcm_tag : Buffer -> Buffer -> Buffer -> Buffer.

Lemma ctr_xor_cancel (c : CipherState) (input : Buffer) (i : nat) :
  ctr_xor keystream c i (ctr_xor keystream c i input) = input.
Proof.
  revert i. induction input as [|b rest IH]; intros i; simpl; [reflexivity|].
  rewrite xor_byte_cancel, IH. reflexivity.
Qed.

Lemma encrypt_envelope (keyHex : string) (iv : Buffer) (text : Text) :
  let cipher := createCipher EVP_BytesToKey (from_hex keyHex) in
  let ct := ctr_xor keystream cipher 0 (utf8_encode text) in
  encrypt EVP_BytesToKey keystream gcm_tag (Some keyHex) iv text
  = Ok (String.append (to_hex iv)
          (String colon
             (String.append (to_hex (getAuthTag gcm_tag cipher ct))
                (String colon (to_hex ct)))))
  /\ split_on colon
       (String.append (to_hex iv)
          (String colon
             (String.append (to_hex (getAuthTag gcm_tag cipher ct))
                (String colon (to_hex ct)))))
     = [to_hex iv; to_hex (getAuthTag gcm_tag cipher ct); to_hex ct].
Proof.
  cbv zeta. split; [reflexivity|].
  rewrite split_on_first by apply to_hex_no_colon.
  rewrite split_on_first by apply to_hex_no_colon.
  rewrite split_on_none by apply to_hex_no_colon.
  reflexivity.
Qed.

(** C7: with a fixed key, decrypting what [encrypt] produced gives the
    plaintext back, for every well-formed string: any sequence of Unicode
    code points, one-byte (ASCII) and multi-byte alike. *)
Theorem decrypt_encrypt_roundtrip (keyHex : string) (randomBytes16 : Buffer)
    (text : Text) :
  Forall scalar_value text ->
  exists envelope,
    encrypt EVP_BytesToKey keystream gcm_tag (Some keyHex) randomBytes16 text
      = Ok envelope
    /\ decrypt EVP_BytesToKey keystream gcm_tag (Some keyHex) envelope
      = Ok text.
Proof.
  intros Htext.
  destruct (encrypt_envelope keyHex randomBytes16 text) as [Henc Hsplit].
  cbv zeta in Henc, Hsplit.
  eexists. split; [exact Henc|].
  unfold decrypt. rewrite Hsplit. unfold createDecipher.
  rewrite !from_hex_to_hex, buffer_eqb_refl, ctr_xor_cancel.
  rewrite utf8_decode_encode by exact Htext. reflexivity.
Qed.

(** C8 on the code: the cipher that [encrypt] builds gets its IV from the
    key alone. Two calls under one key, whatever the two random IVs
    are, run the cipher with the same IV; for the same plaintext the
    tag and ciphertext segments of the two envelopes coincide, and only
    the first segment, which holds the random bytes the cipher never saw,
    differs. *)
Theorem encrypt_reuses_cipher_iv (keyHex : string) (iv1 iv2 : Buffer)
    (text : Text) :
  cipher_iv (encrypt_cipher EVP_BytesToKey (from_hex keyHex) iv1)
  = cipher_iv (encrypt_cipher EVP_BytesToKey (from_hex keyHex) iv2)
  /\ exists tag ct,
       encrypt EVP_BytesToKey keystream gcm_tag (Some keyHex) iv1 text
       = Ok (String.append (to_hex iv1)
               (String colon (String.append (to_hex tag)
                                (String colon (to_hex ct)))))
       /\ encrypt EVP_BytesToKey keystream gcm_tag (Some keyHex) iv2 text
          = Ok (String.append (to_hex iv2)
                  (String colon (String.append (to_hex tag)
                                   (String colon (to_hex ct)))))
       /\ envelope_segments
            (String.append (to_hex iv1)
               (String colon (String.append (to_hex tag)
                                (String colon (to_hex ct)))))
          = Some (iv1, tag, ct).
Proof.
  split; [reflexivity|].
  destruct (encrypt_envelope keyHex iv1 text) as [H1 Hs1].
  destruct (encrypt_envelope keyHex iv2 text) as [H2 _].
  cbv zeta in *.
  eexists. eexists. split; [exact H1|]. split; [exact H2|].
  unfold envelope_segments. rewrite Hs1, !from_hex_to_hex. reflexivity.
Qed.

End CipherFacts.

Lemma sample_text_scalar : Forall scalar_value sample_text.
Proof. repeat constructor; unfold scalar_value; lia. Qed.

Lemma decrypt_encrypt_roundtrip_witness :
  Forall scalar_value sample_text /\
  exists envelope,
    encrypt toy_kdf toy_keystream toy_tag (Some "00ff")
      [ascii_of_N 1; ascii_of_N 2] sample_text = Ok envelope
    /\ decrypt toy_kdf toy_keystream toy_tag (Some "00ff") envelope
       = Ok sample_text.
Proof.
  split; [exact sample_text_scalar|].
  exact (decrypt_encrypt_roundtrip toy_kdf toy_keystream toy_tag "00ff"
           [ascii_of_N 1; ascii_of_N 2] sample_text sample_text_scalar).
Defined.

(** *** What [decrypt] accepts *)

Lemma split_on_length sep s :
  List.length (split_on sep s) = S (count_char sep s).
Proof.
  induction s as [|c rest IH]; simpl; [reflexivity|].
  destruct (Ascii.eqb c sep); simpl; [rewrite IH; reflexivity|].
  destruct (split_on sep rest); simpl in *; [discriminate | exact IH].
Qed.

Lemma buffer_eqb_eq (a b : Buffer) : buffer_eqb a b = true -> a = b.
Proof.
  revert b. induction a as [|x a IH]; intros [|y b]; simpl; intros H;
    try discriminate; [reflexivity|].
  apply andb_prop in H as [Hxy Hab]. apply Ascii.eqb_eq in Hxy.
  rewrite Hxy, (IH b Hab). reflexivity.
Qed.

Section DecryptFacts.

Variable EVP_BytesToKey : Buffer -> Buffer * Buffer.
Variable keystream : Buffer -> Buffer -> nat -> ascii.
Variable gcm_tag : Buffer -> Buffer -> Buffer -> Buffer.

(** X24: [decrypt] throws on every string with fewer than two colons (an
    envelope of fewer than three segments), whatever the key. *)
Theorem decrypt_rejects_short_envelope (env : option string)
    (encryptedText : string) :
  (count_char colon encryptedText < 2)%nat ->
  exists m,
    decrypt EVP_BytesToKey keystream gcm_tag env encryptedText = Throw m.
Proof.
  intros H. unfold decrypt. destruct env as [keyHex|]; [|eauto].
  pose proof (split_on_length colon encryptedText) as L.
  destruct (split_on colon encryptedText) as [|p0 [|p1 [|p2 more]]];
    simpl in L; eauto; lia.
Qed.

(** X25: [decrypt] never reads the first segment of the envelope: with any
    other text without a colon in its place the result is the same. *)
Theorem decrypt_ignores_first_segment (env : option string)
    (first first' rest : string) :
  has_char colon first = false ->
  has_char colon first' = false ->
  decrypt EVP_BytesToKey keystream gcm_tag env
    (String.append first (String colon rest))
  = decrypt EVP_BytesToKey keystream gcm_tag env
      (String.append first' (String colon rest)).
Proof.
  intros H H'. unfold decrypt. destruct env as [keyHex|]; [|reflexivity].
  rewrite (split_on_first colon first rest H).
  rewrite (split_on_first colon first' rest H').
  reflexivity.
Qed.

(** X26: [decrypt] rejects a forged envelope. For an envelope whose three
    segments are the hexadecimal of any bytes, the second segment being as
    long as an authentication tag but not the tag of the bytes of the third
    under the key, [decrypt] throws, whatever the first segment is. *)
Theorem decrypt_rejects_wrong_tag (keyHex : string) (iv tag ct : Buffer) :
  List.length tag
  = List.length
      (getAuthTag gcm_tag (createDecipher EVP_BytesToKey (from_hex keyHex)) ct) ->
  tag <> getAuthTag gcm_tag (createDecipher EVP_BytesToKey (from_hex keyHex)) ct ->
  exists m,
    decrypt EVP_BytesToKey keystream gcm_tag (Some keyHex)
      (String.append (to_hex iv)
         (String colon (String.append (to_hex tag)
                          (String colon (to_hex ct)))))
    = Throw m.
Proof.
  intros _ Hne. unfold decrypt.
  rewrite split_on_first by apply to_hex_no_colon.
  rewrite split_on_first by apply to_hex_no_colon.
  rewrite split_on_none by apply to_hex_no_colon.
  rewrite !from_hex_to_hex.
  destruct (buffer_eqb tag _) eqn:E; [|eauto].
  apply buffer_eqb_eq in E. contradiction.
Qed.

End DecryptFacts.

Lemma decrypt_rejects_short_envelope_witness :
  (count_char colon "0102:0a43f3fc98" < 2)%nat /\
  exists m,
    decrypt toy_kdf toy_keystream toy_tag (Some toy_key) "0102:0a43f3fc98"
    = Throw m.
Proof.
  assert (H : (count_char colon "0102:0a43f3fc98" < 2)%nat)
    by (vm_compute; repeat constructor).
  split; [exact H|].
  exact (decrypt_rejects_short_envelope toy_kdf toy_keystream toy_tag
           (Some toy_key) "0102:0a43f3fc98" H).
Defined.

Lemma decrypt_ignores_first_segment_witness :
  has_char colon "0102" = false /\ has_char colon "not hex at all" = false /\
  decrypt toy_kdf toy_keystream toy_tag (Some toy_key)
    (String.append "0102" (String colon "0a:43f3fc981d681991abd8"))
  = decrypt toy_kdf toy_keystream toy_tag (Some toy_key)
      (String.append "not hex at all"
         (String colon "0a:43f3fc981d681991abd8")).
Proof.
  split; [reflexivity|]. split; [reflexivity|].
  exact (decrypt_ignores_first_segment toy_kdf toy_keystream toy_tag
           (Some toy_key) "0102" "not hex at all" "0a:43f3fc981d681991abd8"
           eq_refl eq_refl).
Defined.

Lemma decrypt_rejects_wrong_tag_witness :
  List.length [ascii_of_N 11]
  = List.length
      (getAuthTag toy_tag (createDecipher toy_kdf (from_hex toy_key))
         [ascii_of_N 67; ascii_of_N 243]) /\
  [ascii_of_N 11]
  <> getAuthTag toy_tag (createDecipher toy_kdf (from_hex toy_key))
       [ascii_of_N 67; ascii_of_N 243] /\
  exists m,
    decrypt toy_kdf toy_keystream toy_tag (Some toy_key)
      (String.append (to_hex [ascii_of_N 1; ascii_of_N 2])
         (String colon
            (String.append (to_hex [ascii_of_N 11])
               (String colon (to_hex [ascii_of_N 67; ascii_of_N 243])))))
    = Throw m.
Proof.
  assert (H1 : List.length [ascii_of_N 11]
               = List.length
                   (getAuthTag toy_tag
                      (createDecipher toy_kdf (from_hex toy_key))
                      [ascii_of_N 67; ascii_of_N 243])) by reflexivity.
  assert (H2 : [ascii_of_N 11]
               <> getAuthTag toy_tag
                    (createDecipher toy_kdf (from_hex toy_key))
                    [ascii_of_N 67; ascii_of_N 243])
    by (vm_compute; discriminate).
  split; [exact H1|]. split; [exact H2|].
  exact (decrypt_rejects_wrong_tag toy_kdf toy_keystream toy_tag toy_key
           [ascii_of_N 1; ascii_of_N 2] [ascii_of_N 11]
           [ascii_of_N 67; ascii_of_N 243] H1 H2).
Defined.

End VaultFacts.

(* ===================================================================== *)
(** ** Properties of the analyze-sentiment worker *)
(* ===================================================================== *)
Module SentimentFacts.
Import Sentiment.

Lemma findComment_id cid db c : findComment cid db = Some c -> comment_id c = cid.
Proof.
  unfold findComment. intros H. apply find_some in H as [_ H].
  apply String.eqb_eq. exact H.
Qed.

Lemma count_none (cid : string) (l : list Analysis) :
  find (fun a => String.eqb (commentId a) cid) l = None ->
  List.length (filter (fun a => String.eqb (commentId a) cid) l) = 0%nat.
Proof.
  induction l as [|a rest IH]; simpl; [reflexivity|].
  destruct (String.eqb (commentId a) cid); [discriminate | exact IH].
Qed.

Lemma analyses_of_append cid db comment r now cid' :
  comment_id comment = cid ->
  analyses_of cid'
    (mkDb (comments db) (analyses db ++ [analysis_row comment r now]))
  = (analyses_of cid' db + (if String.eqb cid cid' then 1 else 0))%nat.
Proof.
  intros Hid. unfold analyses_of; simpl.
  rewrite filter_app, length_app. simpl. rewrite Hid.
  destruct (String.eqb cid cid'); reflexivity.
Qed.

(** One run never takes a comment from at most one row to more. *)
Lemma analyzeSentiment_at_most_one analyze now cid db cid' :
  (analyses_of cid' db <= 1)%nat ->
  (analyses_of cid' (snd (analyzeSentiment analyze now cid db)) <= 1)%nat.
Proof.
  intros H. unfold analyzeSentiment.
  destruct (findComment cid db) as [comment|] eqn:C; [|exact H].
  pose proof (findComment_id _ _ _ C) as Hid. rewrite Hid.
  destruct (findAnalysis cid db) as [a|] eqn:A; [exact H|].
  destruct (analyze (comment_message comment)) as [r|m]; [|exact H].
  cbn [snd]. rewrite (analyses_of_append cid db comment r now cid' Hid).
  destruct (String.eqb cid cid') eqn:E; [|lia].
  apply String.eqb_eq in E. subst cid'.
  unfold analyses_of. unfold findAnalysis in A. rewrite (count_none _ _ A).
  simpl. lia.
Qed.

Lemma deliveries_at_most_one runs cid db cid' :
  (analyses_of cid' db <= 1)%nat ->
  (analyses_of cid' (deliveries runs cid db) <= 1)%nat.
Proof.
  unfold deliveries. revert db.
  induction runs as [|[e t] runs IH]; intros db H; simpl; [exact H|].
  apply IH. apply analyzeSentiment_at_most_one. exact H.
Qed.

(** The steps of one run taken undisturbed are [analyzeSentiment]: the four
    awaits in a row end the run with its outcome, on its database. *)
Lemma run_alone_is_analyzeSentiment (analyze : Engine) (cid : string)
    (t1 t2 t3 now : Z) (db : Db) :
  run_alone analyze cid [t1; t2; t3; now] db
  = (Finished (fst (analyzeSentiment analyze now cid db)),
     snd (analyzeSentiment analyze now cid db)).
Proof.
  unfold run_alone, analyzeSentiment. cbn [fold_left run_step fst snd].
  destruct (findComment cid db) as [comment|]; cbn [fst snd run_step];
    [|reflexivity].
  destruct (findAnalysis (comment_id comment) db); cbn [fst snd run_step];
    [reflexivity|].
  destruct (analyze (comment_message comment)); reflexivity.
Qed.

(** C9, as the code has it, for runs that do not overlap: on a comment that
    exists, the worker succeeds without writing when an [Analysis] row for
    it is there; when none is there it calls the engine and, on its result,
    appends exactly one row, the comment's first, after which any further
    run is a no-op (an engine that throws leaves the database as it was and
    the error goes to the caller); and however many times, at whatever
    moments and with whatever engine behaviour, the job is run again, each
    run returning before the next one starts, no comment that had at most
    one row ends up with more. *)
Theorem analyzeSentiment_idempotent (analyze : Engine) (now : Z)
    (cid : string) (db : Db) (comment : Comment) :
  findComment cid db = Some comment ->
  (forall a, findAnalysis cid db = Some a ->
     analyzeSentiment analyze now cid db = (Ok tt, db)) /\
  (findAnalysis cid db = None ->
   forall r, analyze (comment_message comment) = Ok r ->
     analyzeSentiment analyze now cid db
       = (Ok tt, mkDb (comments db)
                      (analyses db ++ [analysis_row comment r now]))
     /\ analyses_of cid (snd (analyzeSentiment analyze now cid db)) = 1%nat
     /\ forall analyze' now',
          analyzeSentiment analyze' now' cid
            (snd (analyzeSentiment analyze now cid db))
          = (Ok tt, snd (analyzeSentiment analyze now cid db))) /\
  (findAnalysis cid db = None ->
   forall m, analyze (comment_message comment) = Throw m ->
     analyzeSentiment analyze now cid db = (Throw m, db)) /\
  (forall runs cid',
     (analyses_of cid' db <= 1)%nat ->
     (analyses_of cid' (deliveries runs cid db) <= 1)%nat).
Proof.
  intros C. pose proof (findComment_id _ _ _ C) as Hid.
  split; [|split; [|split]].
  - intros a A. unfold analyzeSentiment. rewrite C, Hid, A. reflexivity.
  - intros A r R.
    assert (E : analyzeSentiment analyze now cid db
                = (Ok tt, mkDb (comments db)
                               (analyses db ++ [analysis_row comment r now]))).
    { unfold analyzeSentiment. rewrite C, Hid, A, R. reflexivity. }
    rewrite E. cbn [snd]. split; [reflexivity|]. split.
    + rewrite (analyses_of_append cid db comment r now cid Hid).
      rewrite String.eqb_refl. unfold analyses_of.
      unfold findAnalysis in A. rewrite (count_none _ _ A). reflexivity.
    + intros analyze' now'. unfold analyzeSentiment at 1.
      unfold findComment in *. cbn [comments]. rewrite C, Hid.
      unfold findAnalysis. cbn [analyses].
      unfold findAnalysis in A.
      assert (F : find (fun a => String.eqb (commentId a) cid)
                    (analyses db ++ [analysis_row comment r now])
                  = Some (analysis_row comment r now)).
      { clear - A Hid. induction (analyses db) as [|x rest IH]; simpl in *.
        - rewrite Hid, String.eqb_refl. reflexivity.
        - destruct (String.eqb (commentId x) cid); [discriminate|].
          exact (IH A). }
      rewrite F. reflexivity.
  - intros A m R. unfold analyzeSentiment. rewrite C, Hid, A, R. reflexivity.
  - intros runs cid'. apply deliveries_at_most_one.
Qed.

Lemma analyzeSentiment_idempotent_witness :
  findComment "c1" db_one_comment = Some (mkComment "c1" "great post") /\
  analyzeSentiment (fun _ => Ok happy) 5 "c1" db_one_comment
    = (Ok tt, mkDb [mkComment "c1" "great post"]
                   [analysis_row (mkComment "c1" "great post") happy 5])
  /\ analyses_of "c1"
       (deliveries [(fun _ => Ok happy, 5); (fun _ => Throw "down", 6);
                    (fun _ => Ok happy, 7)] "c1" db_one_comment) = 1%nat
  /\ (analyses_of "c1"
        (deliveries [(fun _ => Ok happy, 5%Z); (fun _ => Ok happy, 7%Z)] "c1"
                    db_one_comment) <= 1)%nat.
Proof.
  split; [reflexivity|].
  destruct (analyzeSentiment_idempotent (fun _ => Ok happy) 5 "c1"
              db_one_comment (mkComment "c1" "great post") eq_refl)
    as (_ & Hwrite & _ & Hmany).
  split; [exact (proj1 (Hwrite eq_refl happy eq_refl))|].
  split; [reflexivity|].
  exact (Hmany [(fun _ => Ok happy, 5); (fun _ => Ok happy, 7)] "c1"
               (le_S 0 0 (le_n 0))).
Defined.

(** C9 as stated fails: the existence check and the write are separate
    awaits. When a second delivery of the job makes its check before the
    first has written, both find no row, both call the engine and both
    write: the comment ends up with two [Analysis] rows, and both runs
    report success. *)
Lemma overlapping_runs_write_two_rows :
  let f := fly "c1"
             [(FirstRun, fun _ => Ok happy, 1); (FirstRun, fun _ => Ok happy, 2);
              (SecondRun, fun _ => Ok happy, 3); (SecondRun, fun _ => Ok happy, 4);
              (FirstRun, fun _ => Ok happy, 5); (FirstRun, fun _ => Ok happy, 6);
              (SecondRun, fun _ => Ok happy, 7); (SecondRun, fun _ => Ok happy, 8)]
             db_one_comment in
  firstRun f = Finished (Ok tt) /\
  secondRun f = Finished (Ok tt) /\
  analyses_of "c1" (shared f) = 2%nat /\
  (analyses_of "c1" db_one_comment <= 1)%nat.
Proof.
  cbv zeta. split; [reflexivity|]. split; [reflexivity|].
  split; [reflexivity|]. apply Nat.leb_le. reflexivity.
Qed.

(** X27: [analyzeSentiment] only ever appends: whatever the engine does,
    the [Comment] table is left as it is and the [Analysis] rows that were
    there stay, in place and unchanged, at most one row being added after
    them, for the comment asked for. For a comment id that does not exist it
    throws ["Comment not found: " + id] and adds nothing. *)
Theorem analyzeSentiment_only_appends (analyze : Engine) (now : Z)
    (cid : string) (db : Db) :
  let db' := snd (analyzeSentiment analyze now cid db) in
  comments db' = comments db
  /\ (exists added,
        analyses db' = analyses db ++ added
        /\ (List.length added <= 1)%nat
        /\ forall a, In a added -> commentId a = cid)
  /\ (findComment cid db = None ->
      analyzeSentiment analyze now cid db
      = (Throw (String.append "Comment not found: " cid), db)).
Proof.
  cbv zeta. unfold analyzeSentiment.
  destruct (findComment cid db) as [comment|] eqn:C.
  - pose proof (findComment_id _ _ _ C) as Hid.
    destruct (findAnalysis (comment_id comment) db).
    + simpl. split; [reflexivity|]. split; [|discriminate].
      exists []. rewrite app_nil_r. simpl. split; [reflexivity|].
      split; [lia | tauto].
    + destruct (analyze (comment_message comment)) as [r|m]; simpl.
      * split; [reflexivity|]. split; [|discriminate].
        eexists. split; [reflexivity|]. simpl. split; [lia|].
        intros a [<-|[]]. exact Hid.
      * split; [reflexivity|]. split; [|discriminate].
        exists []. rewrite app_nil_r. simpl. split; [reflexivity|].
        split; [lia | tauto].
  - simpl. split; [reflexivity|]. split; [|reflexivity].
    exists []. rewrite app_nil_r. simpl. split; [reflexivity|].
    split; [lia | tauto].
Qed.

End SentimentFacts.

(* ===================================================================== *)
(** ** Properties of the analysis engine *)
(* ===================================================================== *)
Module AnalysisFacts.
Import Analysis.

Lemma text_eqb_eq (a b : Text) : text_eqb a b = true <-> a = b.
Proof.
  revert b. induction a as [|x a IH]; intros [|y b]; simpl.
  - tauto.
  - split; discriminate.
  - split; discriminate.
  - rewrite andb_true_iff, N.eqb_eq, IH. split.
    + intros [-> ->]. reflexivity.
    + intros E. injection E as -> ->. tauto.
Qed.

Lemma text_eqb_refl (a : Text) : text_eqb a a = true.
Proof. apply text_eqb_eq. reflexivity. Qed.

Lemma text_eqb_neq (a b : Text) : text_eqb a b = false <-> a <> b.
Proof.
  rewrite <- text_eqb_eq. destruct (text_eqb a b).
  - split; [discriminate | intros H; exfalso; apply H; reflexivity].
  - split; [intros _ E; discriminate | reflexivity].
Qed.

(** Every piece of [split(/\s+/)] is free of white space and made of
    characters of the string. *)
Lemma split_spaces_clean (P : N -> Prop) (s : Text) :
  forall cur in_gap,
    Forall P s ->
    Forall (fun c => is_space c = false /\ P c) cur ->
    Forall (Forall (fun c => is_space c = false /\ P c))
           (split_spaces s cur in_gap).
Proof.
  induction s as [|c s IH]; intros cur in_gap Hs Hc; simpl.
  - constructor; [|constructor]. apply Forall_rev. exact Hc.
  - apply Forall_cons_iff in Hs as [Hc0 Hs].
    destruct (is_space c) eqn:Ec.
    + destruct in_gap.
      * apply IH; assumption.
      * constructor.
        -- apply Forall_rev. exact Hc.
        -- apply IH; [assumption | constructor].
    + apply IH; [assumption|]. constructor; [split; assumption | exact Hc].
Qed.

Lemma occurrences_app (k : Text) (a b : list Text) :
  occurrences k (a ++ b) = occurrences k a + occurrences k b.
Proof.
  unfold occurrences. rewrite filter_app, length_app. lia.
Qed.

Lemma occurrences_one (k w : Text) :
  occurrences k [w] = if text_eqb k w then 1 else 0.
Proof.
  unfold occurrences. cbn [filter]. destruct (text_eqb k w); reflexivity.
Qed.

Lemma occurrences_pos (k : Text) (words : list Text) :
  In k words -> 0 < occurrences k words.
Proof.
  intros H. unfold occurrences.
  assert (Hin : In k (filter (text_eqb k) words)).
  { apply filter_In. split; [exact H | apply text_eqb_refl]. }
  destruct (filter (text_eqb k) words); [destruct Hin|].
  cbn [List.length]. lia.
Qed.

Lemma occurrences_absent (k : Text) (words : list Text) :
  ~ In k words -> occurrences k words = 0.
Proof.
  intros H. unfold occurrences.
  destruct (filter (text_eqb k) words) as [|x l] eqn:E; [reflexivity|].
  exfalso. apply H.
  assert (Hx : In x (filter (text_eqb k) words)) by (rewrite E; left; reflexivity).
  apply filter_In in Hx as [Hx Hk]. apply text_eqb_eq in Hk. subst x. exact Hx.
Qed.

(** [bump] leaves the keys alone when the word is known and appends it
    otherwise. *)
Lemma bump_keys_known (w : Text) (counts : list (Text * Z)) :
  In w (map fst counts) -> map fst (bump w counts) = map fst counts.
Proof.
  induction counts as [|[k n] rest IH]; simpl; intros H; [destruct H|].
  destruct (text_eqb k w) eqn:E; [reflexivity|].
  simpl. f_equal. apply IH. destruct H as [H|H]; [|exact H].
  apply text_eqb_neq in E. contradiction.
Qed.

Lemma bump_keys_new (w : Text) (counts : list (Text * Z)) :
  ~ In w (map fst counts) -> map fst (bump w counts) = map fst counts ++ [w].
Proof.
  induction counts as [|[k n] rest IH]; simpl; intros H; [reflexivity|].
  destruct (text_eqb k w) eqn:E.
  - apply text_eqb_eq in E. exfalso. apply H. left. exact E.
  - simpl. f_equal. apply IH. intros Hin. apply H. right. exact Hin.
Qed.

Lemma In_dec_text (w : Text) (l : list Text) : In w l \/ ~ In w l.
Proof.
  destruct (existsb (text_eqb w) l) eqn:E.
  - left. apply existsb_exists in E as [x [Hx Hw]].
    apply text_eqb_eq in Hw. subst x. exact Hx.
  - right. intros H.
    assert (Ht : existsb (text_eqb w) l = true).
    { apply existsb_exists. exists w. split; [exact H | apply text_eqb_refl]. }
    rewrite E in Ht. discriminate.
Qed.

Lemma bump_keys_NoDup (w : Text) (counts : list (Text * Z)) :
  NoDup (map fst counts) -> NoDup (map fst (bump w counts)).
Proof.
  intros H. destruct (In_dec_text w (map fst counts)) as [Hin|Hn].
  - rewrite bump_keys_known by exact Hin. exact H.
  - rewrite bump_keys_new by exact Hn.
    apply NoDup_rev in H. rewrite <- (rev_involutive (map fst counts ++ [w])).
    apply NoDup_rev. rewrite rev_app_distr. simpl. constructor; [|exact H].
    rewrite <- in_rev. exact Hn.
Qed.

Lemma bump_keys_In (w k : Text) (counts : list (Text * Z)) :
  In k (map fst (bump w counts)) <-> k = w \/ In k (map fst counts).
Proof.
  destruct (In_dec_text w (map fst counts)) as [Hin|Hn].
  - rewrite bump_keys_known by exact Hin. split; [tauto|].
    intros [->|H]; assumption.
  - rewrite bump_keys_new by exact Hn. rewrite in_app_iff. simpl.
    split; [intros [H|[H|[]]]; auto | intros [H|H]; auto].
Qed.

(** [bump] keeps the counts equal to the occurrences. *)
Lemma bump_counts (w : Text) (words : list Text) (counts : list (Text * Z)) :
  NoDup (map fst counts) ->
  (~ In w (map fst counts) -> occurrences w words = 0) ->
  Forall (fun kn => snd kn = occurrences (fst kn) words) counts ->
  Forall (fun kn => snd kn = occurrences (fst kn) (words ++ [w]))
         (bump w counts).
Proof.
  induction counts as [|[k n] rest IH]; intros Hnd Hz Hf.
  - simpl. constructor; [|constructor]. simpl.
    rewrite occurrences_app, occurrences_one, text_eqb_refl.
    rewrite Hz by (intros []). reflexivity.
  - simpl in Hnd. apply NoDup_cons_iff in Hnd as [Hk Hnd].
    apply Forall_cons_iff in Hf as [Hkn Hf]. simpl in Hkn.
    simpl. destruct (text_eqb k w) eqn:E.
    + apply text_eqb_eq in E. subst w. constructor.
      * simpl. rewrite occurrences_app, occurrences_one, text_eqb_refl. lia.
      * rewrite Forall_forall in Hf |- *. intros [k' n'] Hin. simpl.
        rewrite occurrences_app, occurrences_one.
        destruct (text_eqb k' k) eqn:E'.
        -- apply text_eqb_eq in E'. subst k'. exfalso. apply Hk.
           apply in_map_iff. exists (k, n'). split; [reflexivity | exact Hin].
        -- specialize (Hf _ Hin). simpl in Hf. lia.
    + constructor.
      * simpl. rewrite occurrences_app, occurrences_one, E. lia.
      * apply IH; [exact Hnd | | exact Hf].
        intros Hn. apply Hz. simpl. intros [H|H].
        -- apply text_eqb_neq in E. contradiction.
        -- contradiction.
Qed.

Lemma wordCount_snoc (words : list Text) (w : Text) :
  wordCount (words ++ [w]) = bump w (wordCount words).
Proof. unfold wordCount. rewrite fold_left_app. reflexivity. Qed.

(** The map of [extractKeywords] has one entry for each distinct word,
    holding the number of its occurrences. *)
Lemma wordCount_spec (words : list Text) :
  NoDup (map fst (wordCount words))
  /\ (forall k, In k (map fst (wordCount words)) <-> In k words)
  /\ Forall (fun kn => snd kn = occurrences (fst kn) words) (wordCount words).
Proof.
  induction words as [|w words IH] using rev_ind.
  - split; [constructor|]. split; [intros k; simpl; tauto | constructor].
  - destruct IH as [Hnd [Hk Hf]]. rewrite wordCount_snoc.
    split; [apply bump_keys_NoDup; exact Hnd|]. split.
    + intros k. rewrite bump_keys_In, in_app_iff, Hk. simpl.
      split; [intros [H|H]; auto | intros [H|[H|[]]]; auto].
    + apply bump_counts; [exact Hnd | | exact Hf].
      intros Hn. apply occurrences_absent. rewrite <- Hk. exact Hn.
Qed.

Lemma place_Permutation (x : Text * Z) (l : list (Text * Z)) :
  Permutation (place x l) (x :: l).
Proof.
  induction l as [|y l IH]; simpl; [apply Permutation_refl|].
  destruct (snd y <? snd x); [apply Permutation_refl|].
  eapply Permutation_trans; [apply perm_skip; exact IH | apply perm_swap].
Qed.

Lemma place_sorted (x : Text * Z) (l : list (Text * Z)) :
  StronglySorted by_count l -> StronglySorted by_count (place x l).
Proof.
  induction l as [|y l IH]; simpl; intros H.
  - constructor; [constructor | constructor].
  - apply StronglySorted_inv in H as [Hl Hy].
    destruct (snd y <? snd x) eqn:E.
    + apply Z.ltb_lt in E. constructor.
      * constructor; assumption.
      * constructor; [unfold by_count; lia|].
        rewrite Forall_forall in Hy |- *. intros z Hz.
        specialize (Hy z Hz). unfold by_count in *. lia.
    + apply Z.ltb_ge in E. constructor; [apply IH; exact Hl|].
      rewrite Forall_forall in Hy |- *. intros z Hz.
      apply (Permutation_in _ (place_Permutation x l)) in Hz.
      destruct Hz as [<-|Hz]; [exact E | apply Hy; exact Hz].
Qed.

Lemma sort_by_count_spec (entries : list (Text * Z)) :
  Permutation (sort_by_count entries) entries
  /\ StronglySorted by_count (sort_by_count entries).
Proof.
  unfold sort_by_count.
  induction entries as [|x entries IH] using rev_ind.
  - split; [apply Permutation_refl | constructor].
  - destruct IH as [Hp Hs]. rewrite fold_left_app. simpl. split.
    + eapply Permutation_trans; [apply place_Permutation|].
      eapply Permutation_trans; [apply perm_skip; exact Hp|].
      apply Permutation_cons_append.
    + apply place_sorted. exact Hs.
Qed.

Lemma sorted_app_le (a b : list (Text * Z)) :
  StronglySorted by_count (a ++ b) ->
  forall x y, In x a -> In y b -> snd y <= snd x.
Proof.
  induction a as [|z a IH]; simpl; intros H x y Hx Hy; [destruct Hx|].
  apply StronglySorted_inv in H as [Ha Hz]. destruct Hx as [<-|Hx].
  - rewrite Forall_forall in Hz. apply (Hz y). apply in_or_app. right. exact Hy.
  - apply (IH Ha x y Hx Hy).
Qed.

Section EngineFacts.

Variable toLowerCase : string -> string.

(** X28 ([AnalysisEngine.analyze], src/lib/analysis.ts): with no analyzer
    available the call throws; otherwise the text goes to an analyzer that
    is available, which is the first available one when no preference is
    given or when no available name contains the preference; and what
    [setPreferredAnalyzer] stored plays no part. *)
Theorem analyze_uses_an_available_analyzer
    (e : AnalysisEngine) (text : string) (preferred : option string) :
  (getAvailableAnalyzers e = [] ->
     analyze toLowerCase e text preferred = Throw no_analyzers)
  /\ (forall first rest, getAvailableAnalyzers e = first :: rest ->
        (exists a, In a (analyzers e) /\ isAvailable a = true
                   /\ analyze toLowerCase e text preferred = analyze_text a text)
        /\ analyze toLowerCase e text None = analyze_text first text
        /\ analyze toLowerCase e text (Some "") = analyze_text first text
        /\ (forall p,
              (forall a, In a (getAvailableAnalyzers e) ->
                 includes (toLowerCase (getName a)) (toLowerCase p) = false) ->
              analyze toLowerCase e text (Some p) = analyze_text first text))
  /\ (forall name,
        analyze toLowerCase (setPreferredAnalyzer name e) text preferred
        = analyze toLowerCase e text preferred).
Proof.
  split; [|split].
  - intros E. unfold analyze. rewrite E. reflexivity.
  - intros first rest E.
    assert (Hav : forall a, In a (first :: rest) ->
                    In a (analyzers e) /\ isAvailable a = true).
    { intros a Ha. rewrite <- E in Ha. unfold getAvailableAnalyzers in Ha.
      apply filter_In in Ha. exact Ha. }
    split; [|split; [|split]].
    + unfold analyze. rewrite E. destruct preferred as [p|].
      * destruct (String.eqb p "").
        -- exists first. destruct (Hav first (or_introl eq_refl)) as [H1 H2].
           auto.
        -- destruct (find _ (first :: rest)) as [a|] eqn:Ef.
           ++ apply find_some in Ef as [Ha _]. exists a.
              destruct (Hav a Ha) as [H1 H2]. auto.
           ++ exists first.
              destruct (Hav first (or_introl eq_refl)) as [H1 H2]. auto.
      * exists first. destruct (Hav first (or_introl eq_refl)) as [H1 H2]. auto.
    + unfold analyze. rewrite E. reflexivity.
    + unfold analyze. rewrite E. reflexivity.
    + intros p Hp. unfold analyze. rewrite E.
      destruct (String.eqb p ""); [reflexivity|].
      destruct (find _ (first :: rest)) as [a|] eqn:Ef; [|reflexivity].
      apply find_some in Ef as [Ha Hinc]. rewrite <- E in Ha.
      rewrite (Hp a Ha) in Hinc. discriminate.
  - intros name. reflexivity.
Qed.

End EngineFacts.

Section KeywordFacts.

Variable lower : Text -> Text.

Lemma words_of_shape (text : Text) (w : Text) :
  In w (words_of lower text) ->
  (3 <= List.length w)%nat /\ is_stop_word w = false
  /\ Forall (fun c => is_word c = true) w.
Proof.
  unfold words_of. intros H. apply filter_In in H as [Hin Hok].
  apply andb_true_iff in Hok as [Hlen Hstop]. apply Z.ltb_lt in Hlen.
  apply negb_true_iff in Hstop. split; [lia|]. split; [exact Hstop|].
  pose proof (split_spaces_clean
                (fun c => is_word c || is_space c = true)
                (filter (fun c => is_word c || is_space c) (lower text))
                [] false) as Hc.
  assert (Hall : Forall (fun c => is_word c || is_space c = true)
                   (filter (fun c => is_word c || is_space c) (lower text))).
  { apply Forall_forall. intros c Hc'. apply filter_In in Hc'. apply Hc'. }
  specialize (Hc Hall (Forall_nil _)).
  rewrite Forall_forall in Hc. specialize (Hc w Hin).
  rewrite Forall_forall in Hc |- *. intros c Hcw.
  destruct (Hc c Hcw) as [Hs Hw]. rewrite Hs, orb_false_r in Hw. exact Hw.
Qed.

(** X29 ([extractKeywords], src/lib/analysis.ts): the keywords are at most
    five distinct words of the lower-cased text, each of three or more word
    characters and none a stop word; they are the most frequent ones (a
    word left out occurs no more often than any keyword), and when fewer
    than five come back no word was left out. *)
Theorem extractKeywords_most_frequent (text : Text) :
  let words := words_of lower text in
  let keywords := extractKeywords lower text in
  (List.length keywords <= 5)%nat
  /\ NoDup keywords
  /\ (forall k, In k keywords ->
        In k words /\ (3 <= List.length k)%nat /\ is_stop_word k = false
        /\ Forall (fun c => is_word c = true) k)
  /\ (forall k w, In k keywords -> In w words -> ~ In w keywords ->
        occurrences w words <= occurrences k words)
  /\ ((List.length keywords < 5)%nat -> forall w, In w words -> In w keywords).
Proof.
  intros words keywords.
  destruct (wordCount_spec words) as [Hnd [Hkeys Hcnt]].
  destruct (sort_by_count_spec (wordCount words)) as [Hperm Hsort].
  set (sorted := sort_by_count (wordCount words)) in *.
  assert (Ek : keywords = map fst (firstn 5 sorted)) by reflexivity.
  assert (Hsplit : sorted = firstn 5 sorted ++ skipn 5 sorted)
    by (symmetry; apply firstn_skipn).
  assert (Hnds : NoDup (map fst sorted)).
  { apply (Permutation_NoDup (l := map fst (wordCount words))); [|exact Hnd].
    apply Permutation_map. apply Permutation_sym. exact Hperm. }
  assert (Hin_sorted : forall kn, In kn sorted ->
            In (fst kn) words /\ snd kn = occurrences (fst kn) words).
  { intros kn Hin. apply (Permutation_in _ Hperm) in Hin. split.
    - apply Hkeys. apply in_map. exact Hin.
    - rewrite Forall_forall in Hcnt. apply Hcnt. exact Hin. }
  assert (Hfirst : forall kn, In kn (firstn 5 sorted) -> In kn sorted).
  { intros kn Hin. rewrite Hsplit. apply in_or_app. left. exact Hin. }
  split; [|split; [|split; [|split]]].
  - rewrite Ek, length_map. apply firstn_le_length.
  - rewrite Ek. rewrite Hsplit, map_app in Hnds.
    apply NoDup_app_remove_r in Hnds. exact Hnds.
  - intros k Hk. rewrite Ek in Hk. apply in_map_iff in Hk as [kn [<- Hin]].
    destruct (Hin_sorted kn (Hfirst kn Hin)) as [Hw _].
    split; [exact Hw|]. apply (words_of_shape text). exact Hw.
  - intros k w Hk Hw Hnot. rewrite Ek in Hk.
    apply in_map_iff in Hk as [kn [<- Hin]].
    destruct (Hin_sorted kn (Hfirst kn Hin)) as [_ Hkn]. rewrite <- Hkn.
    apply Hkeys in Hw. apply in_map_iff in Hw as [wn [<- Hwn]].
    apply (Permutation_in _ (Permutation_sym Hperm)) in Hwn.
    fold sorted in Hwn.
    destruct (Hin_sorted wn Hwn) as [_ Hwc]. rewrite <- Hwc.
    rewrite Hsplit in Hwn, Hsort. apply in_app_or in Hwn as [Hwn|Hwn].
    + exfalso. apply Hnot. rewrite Ek. apply in_map. exact Hwn.
    + apply (sorted_app_le _ _ Hsort kn wn Hin Hwn).
  - intros Hlen w Hw. rewrite Ek in Hlen |- *. rewrite length_map in Hlen.
    assert (Eall : firstn 5 sorted = sorted).
    { apply firstn_all2. rewrite length_firstn in Hlen. lia. }
    rewrite Eall. apply Hkeys in Hw.
    apply (Permutation_in _ (Permutation_map fst (Permutation_sym Hperm))).
    exact Hw.
Qed.

End KeywordFacts.

End AnalysisFacts.
